(** * Twilio Media Streams transport: connection, buffers and registry

    A shallow embedding of package [transport] of omnivoice-twilio
    (the Go file that declares [Provider], [Connection], [audioWriter] and
    [audioReader]), with the properties of its specification.

    The embedding is sequential: one goroutine runs at a time and an
    operation that would have to wait for another goroutine (a send on a
    full channel, a receive on an empty open channel, [Lock] on a held
    mutex) ends in the outcome [Blocked]; a Go run-time panic (a send on a
    closed channel, closing a channel twice) ends in [Panicked], with the
    state at that point (what deferred calls do while the goroutine
    unwinds is not followed).

    The mutex of a connection and those of its two buffers are each taken
    and released inside one method that calls nothing else taking them, so
    a sequential run always finds them free and they are left out; the
    provider's mutex is part of the state, because [Provider.Close] holds
    it while it calls into the connections. The send loop and the two
    control messages ([SendMark], [Clear]) take no part in the properties
    and are not embedded. *)

From stdpp Require Import gmap strings list.
From Stdlib Require Import Strings.Byte ZArith.

Local Open Scope Z_scope.
Local Open Scope nat_scope.

(** ** Outcomes and the state monad of the embedding *)

Inductive outcome (S A : Type) : Type :=
| Ret (a : A) (s : S)
| Blocked (s : S)
| Panicked (s : S).
Arguments Ret {S A} a s.
Arguments Blocked {S A} s.
Arguments Panicked {S A} s.

Definition M (S A : Type) : Type := S → outcome S A.

#[global] Instance M_ret {S} : MRet (M S) := λ A a s, Ret a s.
#[global] Instance M_bind {S} : MBind (M S) := λ A B f m s,
  match m s with
  | Ret a s' => f a s'
  | Blocked s' => Blocked s'
  | Panicked s' => Panicked s'
  end.

Definition get {S} : M S S := λ s, Ret s s.
Definition modify {S} (f : S → S) : M S unit := λ s, Ret tt (f s).
Definition panic {S A} : M S A := λ s, Panicked s.

(** The state an outcome ends in, whatever the outcome. *)
Definition final {S A} (o : outcome S A) : S :=
  match o with Ret _ s | Blocked s | Panicked s => s end.

Definition returned {S A} (o : outcome S A) : bool :=
  match o with Ret _ _ => true | _ => false end.

(** ** Errors

    The error values the package returns or inspects: [io.ErrClosedPipe],
    [io.EOF], a websocket [*CloseError] with its close code, and any other
    error of the socket. *)

Inductive error : Type :=
| ErrClosedPipe
| EOF
| CloseError (code : Z) (text : string)
| OtherError (msg : string).

Definition CloseNormalClosure : Z := 1000.
Definition CloseGoingAway : Z := 1001.

(** [websocket.IsCloseError(err, codes...)]: [err] is a [*CloseError] whose
    code is one of [codes]. *)
Definition IsCloseError (err : error) (codes : list Z) : bool :=
  match err with
  | CloseError code _ => existsb (Z.eqb code) codes
  | _ => false
  end.

Abbreviation bytes := (list byte).

(** ** Go channels, sequentially *)

Module Chan.

Record chan (A : Type) : Type := mk {
  buf : list A;      (* queued elements, oldest first *)
  cap : nat;         (* make(chan A, cap) *)
  closed : bool
}.
Arguments mk {A} buf cap closed.
Arguments buf {A} c.
Arguments cap {A} c.
Arguments closed {A} c.

Definition make (A : Type) (n : nat) : chan A := mk [] n false.

Definition set_buf {A} (c : chan A) (l : list A) : chan A :=
  mk l (cap c) (closed c).

Inductive send_result (A : Type) : Type :=
| Sent (c : chan A)
| SendWouldBlock
| SendOnClosed.
Arguments Sent {A} c.
Arguments SendWouldBlock {A}.
Arguments SendOnClosed {A}.

(** [c <- x] when it can proceed at once. *)
Definition send {A} (c : chan A) (x : A) : send_result A :=
  if closed c then SendOnClosed
  else if length (buf c) <? cap c then Sent (set_buf c (buf c ++ [x]))
  else SendWouldBlock.

Inductive recv_result (A : Type) : Type :=
| Received (x : A) (c : chan A)
| RecvWouldBlock
| RecvClosed.
Arguments Received {A} x c.
Arguments RecvWouldBlock {A}.
Arguments RecvClosed {A}.

(** [<-c] when it can proceed at once; a closed channel still hands out
    what it holds and only then reports [ok = false]. *)
Definition recv {A} (c : chan A) : recv_result A :=
  match buf c with
  | x :: rest => Received x (set_buf c rest)
  | [] => if closed c then RecvClosed else RecvWouldBlock
  end.

(** [close(c)]; [None] is the panic of closing a closed channel. *)
Definition close {A} (c : chan A) : option (chan A) :=
  if closed c then None else Some (mk (buf c) (cap c) true).

End Chan.

(** ** The outbound buffer: [audioWriter] *)

Record audioWriter : Type := mkAudioWriter {
  aw_ch : Chan.chan bytes;
  aw_closed : bool
}.

(** The writer of [newAudioWriter] with the capacity left open;
    [newAudioWriter] itself takes 100. *)
Definition newAudioWriterCap (n : nat) : audioWriter :=
  mkAudioWriter (Chan.make bytes n) false.

Definition newAudioWriter : audioWriter := newAudioWriterCap 100.

Module audioWriter.

(** [func (w *audioWriter) Write(p []byte) (n int, err error)] *)
Definition Write (p : bytes) : M audioWriter (nat * option error) := λ w,
  if aw_closed w then Ret (0, Some ErrClosedPipe) w
  else
    let data := p in
    match Chan.send (aw_ch w) data with
    | Chan.Sent c' => Ret (length p, None) (mkAudioWriter c' (aw_closed w))
    | Chan.SendOnClosed => Panicked w
    | Chan.SendWouldBlock =>
        (* Buffer full, drop oldest *)
        let c1 := match Chan.recv (aw_ch w) with
                  | Chan.Received _ c' => c'
                  | _ => aw_ch w
                  end in
        let w1 := mkAudioWriter c1 (aw_closed w) in
        match Chan.send c1 data with
        | Chan.Sent c' => Ret (length p, None) (mkAudioWriter c' (aw_closed w))
        | Chan.SendWouldBlock => Blocked w1
        | Chan.SendOnClosed => Panicked w1
        end
    end.

(** [func (w *audioWriter) Close() error] *)
Definition Close : M audioWriter (option error) := λ w,
  if negb (aw_closed w) then
    match Chan.close (aw_ch w) with
    | Some c' => Ret None (mkAudioWriter c' true)
    | None => Panicked (mkAudioWriter (aw_ch w) true)
    end
  else Ret None w.

End audioWriter.

(** ** The inbound buffer: [audioReader] *)

Record audioReader : Type := mkAudioReader {
  ar_ch : Chan.chan bytes;
  ar_buffer : bytes
}.

Definition newAudioReaderCap (n : nat) : audioReader :=
  mkAudioReader (Chan.make bytes n) [].

Definition newAudioReader : audioReader := newAudioReaderCap 100.

Module audioReader.

(** [func (r *audioReader) Read(p []byte) (n int, err error)].
    The destination [p] matters through its length only; the result carries
    the [n] bytes copied into [p] (so [n] is their length) and the error. *)
Definition Read (plen : nat) : M audioReader (bytes * option error) := λ r,
  (* If we have buffered data, return it first *)
  if 0 <? length (ar_buffer r) then
    let n := Nat.min plen (length (ar_buffer r)) in
    Ret (take n (ar_buffer r), None)
        (mkAudioReader (ar_ch r) (drop n (ar_buffer r)))
  else
    (* Wait for new data *)
    match Chan.recv (ar_ch r) with
    | Chan.RecvWouldBlock => Blocked r
    | Chan.RecvClosed => Ret ([], Some EOF) r
    | Chan.Received data c' =>
        let n := Nat.min plen (length data) in
        Ret (take n data, None)
            (mkAudioReader c' (if n <? length data then drop n data
                               else ar_buffer r))
    end.

(** [func (r *audioReader) write(data []byte)]: a send that never waits. *)
Definition write (data : bytes) (r : audioReader) : outcome audioReader unit :=
  match Chan.send (ar_ch r) data with
  | Chan.Sent c' => Ret tt (mkAudioReader c' (ar_buffer r))
  | Chan.SendWouldBlock => Ret tt r   (* Buffer full, drop *)
  | Chan.SendOnClosed => Panicked r
  end.

(** [func (r *audioReader) close()] *)
Definition close : M audioReader unit := λ r,
  match Chan.close (ar_ch r) with
  | Some c' => Ret tt (mkAudioReader c' (ar_buffer r))
  | None => Panicked r
  end.

End audioReader.

(** ** Mutexes

    [sync.RWMutex] as one goroutine sees it: [None] from [Lock] or [RLock]
    means the caller has to wait for the holder, [None] from [Unlock] or
    [RUnlock] is the run-time's fatal error for an unlock without a lock. *)

Inductive RWMutex : Type :=
| Unlocked
| WLocked
| RLocked (others : nat).   (* held by [others + 1] readers *)

Module RWMutex.

Definition Lock (m : RWMutex) : option RWMutex :=
  match m with Unlocked => Some WLocked | _ => None end.

Definition Unlock (m : RWMutex) : option RWMutex :=
  match m with WLocked => Some Unlocked | _ => None end.

Definition RLock (m : RWMutex) : option RWMutex :=
  match m with
  | Unlocked => Some (RLocked 0)
  | RLocked n => Some (RLocked (S n))
  | WLocked => None
  end.

Definition RUnlock (m : RWMutex) : option RWMutex :=
  match m with
  | RLocked 0 => Some Unlocked
  | RLocked (S n) => Some (RLocked n)
  | _ => None
  end.

End RWMutex.

(** ** Events ([transport.Event]) *)

Inductive EventType : Type :=
| EventConnected
| EventDisconnected
| EventAudioStarted
| EventAudioStopped
| EventDTMF
| EventError.

Record Event : Type := mkEvent {
  ev_Type : EventType;
  ev_Data : option string;
  ev_Error : option error
}.

Definition event (t : EventType) : Event := mkEvent t None None.

(** ** Twilio Media Streams message types *)

Record mediaFormat : Type := mkMediaFormat {
  mf_Encoding : string;
  mf_SampleRate : Z;
  mf_Channels : Z
}.

Record startMessage : Type := mkStartMessage {
  start_StreamSID : string;
  start_AccountSID : string;
  start_CallSID : string;
  start_Tracks : list string;
  start_MediaFormat : mediaFormat;
  start_CustomParams : list (string * string)
}.

Record mediaPayload : Type := mkMediaPayload {
  media_Track : string;
  media_Chunk : string;
  media_Timestamp : string;
  media_Payload : string   (* Base64 encoded audio *)
}.

Record markMessage : Type := mkMarkMessage { mark_Name : string }.

Record stopMessage : Type := mkStopMessage {
  stop_AccountSID : string;
  stop_CallSID : string
}.

Record dtmfMessage : Type := mkDtmfMessage { dtmf_Digit : string }.

Record mediaMessage : Type := mkMediaMessage {
  msg_Event : string;
  msg_StreamSID : string;
  msg_Start : option startMessage;
  msg_Media : option mediaPayload;
  msg_Mark : option markMessage;
  msg_Stop : option stopMessage;
  msg_DTMF : option dtmfMessage
}.

(** ** Connections and the provider *)

(** A [*Connection] and a listener's channel are addresses in the stores of
    [World] below; a DTMF handler is known by the number it was registered
    under, and each call of it is recorded. *)
Abbreviation connptr := nat.
Abbreviation chanptr := nat.
Abbreviation handler := nat.

(** What the socket hands to one [ReadMessage] call. *)
Inductive wsRead : Type :=
| ReadMsg (data : string)
| ReadErr (err : error).

Record wsConn : Type := mkWsConn {
  ws_closeCalls : nat    (* how often [Close] was called on the socket *)
}.

Record Connection : Type := mkConnection {
  id : string;
  streamSID : string;
  callSID : string;
  wsconn : wsConn;
  events : Chan.chan Event;
  audioIn : audioWriter;
  audioOut : audioReader;
  done : Chan.chan unit;
  closed : bool;
  closeOnce : bool      (* the [sync.Once] has run *)
}.

Record Provider : Type := mkProvider {
  accountSID : string;
  authToken : string;
  mu : RWMutex;
  connections : gmap string connptr;
  listeners : gmap string chanptr;
  dtmfHandler : option handler
}.

(** The connection [HandleWebSocket] builds around an upgraded socket. *)
Definition newConnection : Connection :=
  mkConnection "" (* Will be set from start message *) "" ""
    (mkWsConn 0) (Chan.make Event 100) newAudioWriter newAudioReader
    (Chan.make unit 0) false false.

Definition set_ids (sid cid : string) (c : Connection) : Connection :=
  mkConnection (id c) sid cid (wsconn c) (events c) (audioIn c)
    (audioOut c) (done c) (closed c) (closeOnce c).
Definition set_wsconn (x : wsConn) (c : Connection) : Connection :=
  mkConnection (id c) (streamSID c) (callSID c) x (events c) (audioIn c)
    (audioOut c) (done c) (closed c) (closeOnce c).
Definition set_events (x : Chan.chan Event) (c : Connection) : Connection :=
  mkConnection (id c) (streamSID c) (callSID c) (wsconn c) x (audioIn c)
    (audioOut c) (done c) (closed c) (closeOnce c).
Definition set_audioIn (x : audioWriter) (c : Connection) : Connection :=
  mkConnection (id c) (streamSID c) (callSID c) (wsconn c) (events c) x
    (audioOut c) (done c) (closed c) (closeOnce c).
Definition set_audioOut (x : audioReader) (c : Connection) : Connection :=
  mkConnection (id c) (streamSID c) (callSID c) (wsconn c) (events c)
    (audioIn c) x (done c) (closed c) (closeOnce c).
Definition set_done (x : Chan.chan unit) (c : Connection) : Connection :=
  mkConnection (id c) (streamSID c) (callSID c) (wsconn c) (events c)
    (audioIn c) (audioOut c) x (closed c) (closeOnce c).
Definition set_closed (x : bool) (c : Connection) : Connection :=
  mkConnection (id c) (streamSID c) (callSID c) (wsconn c) (events c)
    (audioIn c) (audioOut c) (done c) x (closeOnce c).
Definition set_closeOnce (x : bool) (c : Connection) : Connection :=
  mkConnection (id c) (streamSID c) (callSID c) (wsconn c) (events c)
    (audioIn c) (audioOut c) (done c) (closed c) x.

Definition set_mu (x : RWMutex) (p : Provider) : Provider :=
  mkProvider (accountSID p) (authToken p) x (connections p) (listeners p)
    (dtmfHandler p).
Definition set_connections (x : gmap string connptr) (p : Provider) : Provider :=
  mkProvider (accountSID p) (authToken p) (mu p) x (listeners p)
    (dtmfHandler p).
Definition set_listeners (x : gmap string chanptr) (p : Provider) : Provider :=
  mkProvider (accountSID p) (authToken p) (mu p) (connections p) x
    (dtmfHandler p).
Definition set_dtmfHandler (x : option handler) (p : Provider) : Provider :=
  mkProvider (accountSID p) (authToken p) (mu p) (connections p)
    (listeners p) x.

(** What a method of one connection can reach: the connection, its
    provider, and the record of DTMF handler calls. *)
Record cstate : Type := mkCstate {
  cs_conn : Connection;
  cs_prov : Provider;
  cs_calls : list (handler * connptr * string)
}.

Definition on_conn (f : Connection → Connection) (st : cstate) : cstate :=
  mkCstate (f (cs_conn st)) (cs_prov st) (cs_calls st).
Definition on_prov (f : Provider → Provider) (st : cstate) : cstate :=
  mkCstate (cs_conn st) (f (cs_prov st)) (cs_calls st).

(** Run a computation on a part of the state. *)
Definition zoom {S T A} (proj : S → T) (upd : T → S → S) (m : M T A) : M S A :=
  λ s, match m (proj s) with
       | Ret a t => Ret a (upd t s)
       | Blocked t => Blocked (upd t s)
       | Panicked t => Panicked (upd t s)
       end.

(** [c.events <- ev] *)
Definition send_event (ev : Event) : M cstate unit := λ st,
  match Chan.send (events (cs_conn st)) ev with
  | Chan.Sent ch' => Ret tt (on_conn (set_events ch') st)
  | Chan.SendWouldBlock => Blocked st
  | Chan.SendOnClosed => Panicked st
  end.

(** [c.provider.mu.Lock()] and its companions *)
Definition with_mu (op : RWMutex → option RWMutex) (wait : bool) : M cstate unit :=
  λ st, match op (mu (cs_prov st)) with
        | Some m' => Ret tt (on_prov (set_mu m') st)
        | None => if wait then Blocked st else Panicked st
        end.
Definition provider_Lock : M cstate unit := with_mu RWMutex.Lock true.
Definition provider_Unlock : M cstate unit := with_mu RWMutex.Unlock false.
Definition provider_RLock : M cstate unit := with_mu RWMutex.RLock true.
Definition provider_RUnlock : M cstate unit := with_mu RWMutex.RUnlock false.

(** [close(ch)] on a channel field of the connection. *)
Definition close_chan {A} (proj : Connection → Chan.chan A)
    (upd : Chan.chan A → Connection → Connection) : M cstate unit := λ st,
  match Chan.close (proj (cs_conn st)) with
  | Some ch' => Ret tt (on_conn (upd ch') st)
  | None => Panicked st
  end.

Inductive ctl : Type := Continue | Return.

Module Connection.

(** [func (c *Connection) ID() string] *)
Definition ID (c : Connection) : string := streamSID c.

(** [func (c *Connection) CallSID() string] *)
Definition CallSID (c : Connection) : string := callSID c.

(** The function [Close] hands to [c.closeOnce.Do]. *)
Definition teardown : M cstate unit :=
  modify (on_conn (set_closed true));;
  close_chan done set_done;;
  zoom (λ st, audioIn (cs_conn st)) (λ w, on_conn (set_audioIn w))
       audioWriter.Close;;
  zoom (λ st, audioOut (cs_conn st)) (λ r, on_conn (set_audioOut r))
       audioReader.close;;
  close_chan events set_events;;
  modify (on_conn (λ c, set_wsconn (mkWsConn (S (ws_closeCalls (wsconn c)))) c));;
  provider_Lock;;
  modify (λ st, on_prov (λ p, set_connections
                                (delete (streamSID (cs_conn st)) (connections p)) p) st);;
  provider_Unlock.

(** [func (c *Connection) Close() error] *)
Definition Close : M cstate (option error) :=
  st ← get;
  (if closeOnce (cs_conn st) then mret tt
   else teardown;; modify (on_conn (set_closeOnce true)));;
  mret None.

Section ReadLoop.

(** The two library decoders the loop calls: [json.Unmarshal] into a
    [mediaMessage] ([None] for its error) and
    [base64.StdEncoding.DecodeString]. *)
Context (Unmarshal : string → option mediaMessage).
Context (DecodeString : string → option bytes).

(** The [switch msg.Event] of [readLoop], for the connection at [this]. *)
Definition dispatch (this : connptr) (msg : mediaMessage) : M cstate ctl :=
  if (msg_Event msg =? "connected")%string then
    (* Connection established *)
    send_event (event EventConnected);;
    mret Continue
  else if (msg_Event msg =? "start")%string then
    match msg_Start msg with
    | Some start =>
        modify (on_conn (set_ids (start_StreamSID start) (start_CallSID start)));;
        provider_Lock;;
        modify (λ st, on_prov (λ p, set_connections
                  (<[streamSID (cs_conn st) := this]> (connections p)) p) st);;
        provider_Unlock;;
        send_event (event EventAudioStarted);;
        mret Continue
    | None => mret Continue
    end
  else if (msg_Event msg =? "media")%string then
    match msg_Media msg with
    | Some media =>
        if negb (media_Payload media =? "")%string then
          (* Decode base64 audio *)
          match DecodeString (media_Payload media) with
          | None => mret Continue
          | Some audio =>
              (* Write to audio output *)
              zoom (λ st, audioOut (cs_conn st)) (λ r, on_conn (set_audioOut r))
                   (audioReader.write audio);;
              mret Continue
          end
        else mret Continue
    | None => mret Continue
    end
  else if (msg_Event msg =? "dtmf")%string then
    match msg_DTMF msg with
    | Some dtmf =>
        send_event (mkEvent EventDTMF (Some (dtmf_Digit dtmf)) None);;
        provider_RLock;;
        st ← get;
        let h := dtmfHandler (cs_prov st) in
        provider_RUnlock;;
        match h with
        | Some f =>
            modify (λ st, mkCstate (cs_conn st) (cs_prov st)
                            (cs_calls st ++ [(f, this, dtmf_Digit dtmf)]));;
            mret Continue
        | None => mret Continue
        end
    | None => mret Continue
    end
  else if (msg_Event msg =? "stop")%string then
    send_event (event EventAudioStopped);;
    send_event (event EventDisconnected);;
    mret Return
  else if (msg_Event msg =? "mark")%string then
    (* Mark event - can be used for synchronization *)
    mret Continue
  else mret Continue.

(** One turn of the loop after the [done] check, on what [ReadMessage]
    returned. *)
Definition iteration (this : connptr) (r : wsRead) : M cstate ctl :=
  match r with
  | ReadErr err =>
      (if negb (IsCloseError err [CloseNormalClosure; CloseGoingAway]) then
         send_event (mkEvent EventError None (Some err))
       else mret tt);;
      mret Return
  | ReadMsg data =>
      match Unmarshal data with
      | None => mret Continue
      | Some msg => dispatch this msg
      end
  end.

(** [func (c *Connection) readLoop()], on the results the socket's
    successive [ReadMessage] calls give; when they run out the socket is
    silent and the read waits. The deferred [Close] runs on every return. *)
Fixpoint readLoop (this : connptr) (script : list wsRead) : M cstate unit :=
  λ st,
  match Chan.recv (done (cs_conn st)) with
  | Chan.Received _ d' => (Close;; mret tt) (on_conn (set_done d') st)
  | Chan.RecvClosed => (Close;; mret tt) st
  | Chan.RecvWouldBlock =>
      match script with
      | [] => Blocked st
      | r :: rest =>
          match iteration this r st with
          | Ret Continue st' => readLoop this rest st'
          | Ret Return st' => (Close;; mret tt) st'
          | Blocked st' => Blocked st'
          | Panicked st' => Panicked st'
          end
      end
  end.

End ReadLoop.

End Connection.

(** ** The provider and the stores its pointers refer to *)

Record World : Type := mkWorld {
  w_prov : Provider;
  w_conns : gmap connptr Connection;            (* every [*Connection] *)
  w_chans : gmap chanptr (Chan.chan connptr);   (* every listener channel *)
  w_calls : list (handler * connptr * string)
}.

Definition set_prov (f : Provider → Provider) (w : World) : World :=
  mkWorld (f (w_prov w)) (w_conns w) (w_chans w) (w_calls w).
Definition set_conns (x : gmap connptr Connection) (w : World) : World :=
  mkWorld (w_prov w) x (w_chans w) (w_calls w).
Definition set_chans (x : gmap chanptr (Chan.chan connptr)) (w : World) : World :=
  mkWorld (w_prov w) (w_conns w) x (w_calls w).

(** A method of the connection at [c], run in the world; a pointer that
    refers to nothing is a nil dereference. *)
Definition at_conn {A} (c : connptr) (m : M cstate A) : M World A := λ w,
  match w_conns w !! c with
  | None => Panicked w
  | Some conn =>
      zoom (λ w, mkCstate conn (w_prov w) (w_calls w))
           (λ st w, mkWorld (cs_prov st) (<[c := cs_conn st]> (w_conns w))
                            (w_chans w) (cs_calls st))
           m w
  end.

Definition world_mu (op : RWMutex → option RWMutex) (wait : bool) : M World unit :=
  λ w, match op (mu (w_prov w)) with
       | Some m' => Ret tt (set_prov (set_mu m') w)
       | None => if wait then Blocked w else Panicked w
       end.

Module Provider.

(** [func New(opts ...Option)], the options already
    applied to [accountSID] and [authToken]. *)
Definition New (sid token : string) : World :=
  mkWorld (mkProvider sid token Unlocked ∅ ∅ None) ∅ ∅ [].

(** [func (p *Provider) Listen(ctx, addr)] *)
Definition Listen (addr : string) : M World chanptr :=
  w ← get;
  let connCh := fresh (dom (w_chans w)) in
  modify (set_chans (<[connCh := Chan.make connptr 10]> (w_chans w)));;
  world_mu RWMutex.Lock true;;
  modify (set_prov (λ p, set_listeners (<[addr := connCh]> (listeners p)) p));;
  world_mu RWMutex.Unlock false;;
  mret connCh.

(** [func (p *Provider) HandleWebSocket(w, r, listenerPath)] once the
    upgrade has succeeded. The two loops it starts are run by whoever
    schedules them ([Connection.readLoop] above). *)
Definition HandleWebSocket (listenerPath : string) : M World connptr :=
  w ← get;
  let conn := fresh (dom (w_conns w)) in
  modify (set_conns (<[conn := newConnection]> (w_conns w)));;
  (* Notify listener *)
  world_mu RWMutex.RLock true;;
  w ← get;
  let listener := listeners (w_prov w) !! listenerPath in
  world_mu RWMutex.RUnlock false;;
  match listener with
  | Some l =>
      match w_chans w !! l with
      | Some ch =>
          match Chan.send ch conn with
          | Chan.Sent ch' => modify (set_chans (<[l := ch']> (w_chans w)))
          | Chan.SendWouldBlock => mret tt
          | Chan.SendOnClosed => panic
          end
      | None => mret tt
      end;;
      mret conn
  | None => mret conn
  end.

(** [func (p *Provider) OnDTMF(handler)] *)
Definition OnDTMF (h : handler) : M World unit :=
  world_mu RWMutex.Lock true;;
  modify (set_prov (set_dtmfHandler (Some h)));;
  world_mu RWMutex.Unlock false.

(** [for _, conn := range p.connections { _ = conn.Close() }], over the
    keys the map had when the loop began: an entry deleted before its turn
    is not visited. Go leaves the order open; the order of [map_to_list]
    stands for any. *)
Fixpoint close_connections (keys : list string) : M World unit :=
  match keys with
  | [] => mret tt
  | k :: rest =>
      w ← get;
      match connections (w_prov w) !! k with
      | Some conn => at_conn conn Connection.Close;; close_connections rest
      | None => close_connections rest
      end
  end.

(** [for _, ch := range p.listeners { close(ch) }] *)
Fixpoint close_listeners (chs : list chanptr) : M World unit :=
  match chs with
  | [] => mret tt
  | l :: rest =>
      w ← get;
      match w_chans w !! l ≫= Chan.close with
      | Some ch' =>
          modify (set_chans (<[l := ch']> (w_chans w)));;
          close_listeners rest
      | None => panic
      end
  end.

(** [func (p *Provider) Close() error] *)
Definition Close : M World (option error) :=
  world_mu RWMutex.Lock true;;
  w ← get;
  close_connections (map_to_list (connections (w_prov w))).*1;;
  close_listeners (map_to_list (listeners (w_prov w))).*2;;
  modify (set_prov (set_connections ∅));;
  modify (set_prov (set_listeners ∅));;
  world_mu RWMutex.Unlock false;;
  mret None.

End Provider.

(** The read loop of the connection at [c], run in the world. *)
Definition run_readLoop (Unmarshal : string → option mediaMessage)
    (DecodeString : string → option bytes) (c : connptr)
    (script : list wsRead) : M World unit :=
  at_conn c (Connection.readLoop Unmarshal DecodeString c script).

(** ** A socket peer for the examples

    The theorems below hold for every [Unmarshal] and [DecodeString]; the
    examples run the code on the frames of this peer, each given with the
    message [json.Unmarshal] makes of it. *)

Definition no_format : mediaFormat := mkMediaFormat "audio/x-mulaw" 8000 1.

Definition start_of (sid cid : string) : mediaMessage :=
  mkMediaMessage "start" sid
    (Some (mkStartMessage sid "AC1" cid ["inbound"] no_format []))
    None None None None.

Definition media_of (payload : string) : mediaMessage :=
  mkMediaMessage "media" "MZ1" None
    (Some (mkMediaPayload "inbound" "1" "20" payload)) None None None.

Definition peer_frames : list (string * mediaMessage) :=
  [ ("{connected}", mkMediaMessage "connected" "" None None None None None);
    ("{start MZ1 CA1}", start_of "MZ1" "CA1");
    ("{start MZ2 CA2}", start_of "MZ2" "CA2");
    ("{media AQID}", media_of "AQID");
    ("{media !!!}", media_of "!!!");
    ("{dtmf 5}", mkMediaMessage "dtmf" "MZ1" None None None None
                   (Some (mkDtmfMessage "5")));
    ("{stop}", mkMediaMessage "stop" "MZ1" None None None
                 (Some (mkStopMessage "AC1" "CA1")) None);
    ("{mark m}", mkMediaMessage "mark" "MZ1" None None
                   (Some (mkMarkMessage "m")) None None);
    ("{ping}", mkMediaMessage "ping" "" None None None None None) ].

Definition peer_Unmarshal (data : string) : option mediaMessage :=
  (λ hit, hit.2.2) <$> list_find (λ f, f.1 = data) peer_frames.

Definition peer_DecodeString (s : string) : option bytes :=
  if (s =? "AQID")%string then Some [x01; x02; x03] else None.

(** ** Derived runs, used to state the properties *)

(** Call [f] on each element in turn, as a caller's [for] loop would,
    collecting what the calls return. *)
Fixpoint forM {S A B} (f : A → M S B) (l : list A) : M S (list B) :=
  match l with
  | [] => mret []
  | x :: rest => y ← f x; ys ← forM f rest; mret (y :: ys)
  end.

(** The result of a [Write] of [p] that succeeded. *)
Definition wrote (p : bytes) : nat * option error := (length p, None).

(** An open writer or reader with the given queue. *)
Definition writer_with (q : list bytes) (C : nat) : audioWriter :=
  mkAudioWriter (Chan.mk q C false) false.
Definition reader_with (q : list bytes) (C : nat) (buffer : bytes) : audioReader :=
  mkAudioReader (Chan.mk q C false) buffer.

(** The bytes a reader still owes its consumer, in order. *)
Definition pending (r : audioReader) : bytes :=
  ar_buffer r ++ concat (Chan.buf (ar_ch r)).

(** Successive [Read] calls with destinations of the given sizes, up to the
    first one that has to wait: the bytes each returned and the reader
    left. *)
Fixpoint reads (sizes : list nat) (r : audioReader) : list bytes * audioReader :=
  match sizes with
  | [] => ([], r)
  | n :: rest =>
      match audioReader.Read n r with
      | Ret (bs, _) r' => let (out, r'') := reads rest r' in (bs :: out, r'')
      | Blocked r' | Panicked r' => ([], r')
      end
  end.

(** Reads enough to take everything out of [r]: a read with room for a byte
    takes a byte or finishes a chunk. *)
Definition read_budget (r : audioReader) : nat :=
  length (ar_buffer r) + sum_list (S ∘ length <$> Chan.buf (ar_ch r)).

(** A connection nobody has closed yet: its [sync.Once] has not run, its
    channels are open, nothing was ever sent on [done], and the writer's
    flag agrees with its channel. *)
Definition live (c : Connection) : bool :=
  negb (closeOnce c)
  && negb (Chan.closed (done c))
  && bool_decide (Chan.buf (done c) = [])
  && negb (Chan.closed (events c))
  && negb (Chan.closed (ar_ch (audioOut c)))
  && bool_decide (aw_closed (audioIn c) = Chan.closed (aw_ch (audioIn c))).

(** A live connection whose provider's mutex is free and whose event
    channel holds [evs] of [K] possible. *)
Definition ready (evs : list Event) (K : nat) (st : cstate) : Prop :=
  live (cs_conn st) = true
  ∧ mu (cs_prov st) = Unlocked
  ∧ Chan.buf (events (cs_conn st)) = evs
  ∧ Chan.cap (events (cs_conn st)) = K.

(** The state with [evs] more events queued on the event channel. *)
Definition emitted (evs : list Event) (st : cstate) : cstate :=
  on_conn (λ c, set_events
                  (Chan.set_buf (events c) (Chan.buf (events c) ++ evs)) c) st.

Definition closed_chan {A} (c : Chan.chan A) : Chan.chan A :=
  Chan.mk (Chan.buf c) (Chan.cap c) true.

(** The state one teardown leaves: flag set, [done], both buffers and the
    event channel closed with what they held, the socket closed once more,
    the registry without the entry of the connection's stream id, the
    [sync.Once] spent. *)
Definition torn_down (st : cstate) : cstate :=
  let c := cs_conn st in
  mkCstate
    (mkConnection (id c) (streamSID c) (callSID c)
       (mkWsConn (S (ws_closeCalls (wsconn c))))
       (closed_chan (events c))
       (mkAudioWriter (closed_chan (aw_ch (audioIn c))) true)
       (mkAudioReader (closed_chan (ar_ch (audioOut c))) (ar_buffer (audioOut c)))
       (closed_chan (done c))
       true true)
    (set_connections (delete (streamSID c) (connections (cs_prov st))) (cs_prov st))
    (cs_calls st).

(** The frames the loop skips: [json.Unmarshal] fails on them, or their
    event name is none the [switch] knows, or they are audio frames whose
    payload [DecodeString] rejects. *)
Definition known_event (e : string) : bool :=
  existsb (String.eqb e) ["connected"; "start"; "media"; "dtmf"; "stop"; "mark"].

Definition malformed (Unmarshal : string → option mediaMessage)
    (DecodeString : string → option bytes) (data : string) : bool :=
  match Unmarshal data with
  | None => true
  | Some msg =>
      if known_event (msg_Event msg) then
        (msg_Event msg =? "media")%string
        && match msg_Media msg with
           | Some media =>
               negb (media_Payload media =? "")%string
               && negb (bool_decide (is_Some (DecodeString (media_Payload media))))
           | None => false
           end
      else true
  end.

(** The kinds of well-formed frame, by what [json.Unmarshal] makes of the
    data. *)
Definition frame_is (Unmarshal : string → option mediaMessage)
    (name : string) (data : string) : Prop :=
  ∃ msg, Unmarshal data = Some msg ∧ msg_Event msg = name.

Definition start_frame (Unmarshal : string → option mediaMessage)
    (data : string) (start : startMessage) : Prop :=
  ∃ msg, Unmarshal data = Some msg ∧ msg_Event msg = "start"
         ∧ msg_Start msg = Some start.

Definition dtmf_frame (Unmarshal : string → option mediaMessage)
    (data : string) (digit : string) : Prop :=
  ∃ msg, Unmarshal data = Some msg ∧ msg_Event msg = "dtmf"
         ∧ msg_DTMF msg = Some (mkDtmfMessage digit).

(** The start body a read hands to the loop, if it is a started frame that
    has one. *)
Definition start_body (Unmarshal : string → option mediaMessage)
    (r : wsRead) : option startMessage :=
  match r with
  | ReadMsg data =>
      match Unmarshal data with
      | Some msg => if (msg_Event msg =? "start")%string then msg_Start msg else None
      | None => None
      end
  | ReadErr _ => None
  end.

Definition ids (st : cstate) : string * string :=
  (streamSID (cs_conn st), callSID (cs_conn st)).

(** The state after a started frame bound [start]'s ids to the connection
    at [this] and registered it. *)
Definition bound (this : connptr) (start : startMessage) (st : cstate) : cstate :=
  on_prov (λ p, set_connections (<[start_StreamSID start := this]> (connections p)) p)
    (on_conn (set_ids (start_StreamSID start) (start_CallSID start)) st).

(** The state after the registered DTMF handler, if any, was called. *)
Definition called (this : connptr) (digit : string) (st : cstate) : cstate :=
  match dtmfHandler (cs_prov st) with
  | Some f => mkCstate (cs_conn st) (cs_prov st) (cs_calls st ++ [(f, this, digit)])
  | None => st
  end.

(** The five events of a call from its connected frame to its stopped
    frame. *)
Definition call_events (digit : string) : list Event :=
  [ event EventConnected; event EventAudioStarted;
    mkEvent EventDTMF (Some digit) None;
    event EventAudioStopped; event EventDisconnected ].

(** A connection as [HandleWebSocket] leaves it, with a provider as [New]
    leaves it. *)
Definition accepted : cstate :=
  mkCstate newConnection (w_prov (Provider.New "AC1" "token")) [].

(** A computation that leaves the two ids alone, however it ends. *)
Definition keeps_ids {A} (m : M cstate A) : Prop :=
  ∀ st, ids (final (m st)) = ids st.

(** The reading of the identity claim that makes the ids write-once: once
    a started frame was processed, processing another one leaves the ids as
    the first one set them. *)
Definition identity_write_once : Prop :=
  ∀ (Unmarshal : string → option mediaMessage)
    (DecodeString : string → option bytes) (this : connptr)
    (d1 d2 : string) (s1 s2 : startMessage) (st st1 st2 : cstate),
    start_frame Unmarshal d1 s1 → start_frame Unmarshal d2 s2 →
    Connection.iteration Unmarshal DecodeString this (ReadMsg d1) st = Ret Continue st1 →
    Connection.iteration Unmarshal DecodeString this (ReadMsg d2) st1 = Ret Continue st2 →
    ids st2 = (start_StreamSID s1, start_CallSID s1).


(** A provider with one listener and one connection that was accepted and
    has received its connected and started frames; its read loop now waits
    for the socket. *)
Definition live_world : World :=
  match (Provider.Listen "/media-stream";;
         Provider.HandleWebSocket "/media-stream") (Provider.New "AC1" "token") with
  | Ret c w =>
      final (run_readLoop peer_Unmarshal peer_DecodeString c
               [ReadMsg "{connected}"; ReadMsg "{start MZ1 CA1}"] w)
  | Blocked w | Panicked w => w
  end.

(** Every registered stream id refers to a connection that is live or has
    been closed. *)
Definition tracked_ok (w : World) : Prop :=
  ∀ sid c, connections (w_prov w) !! sid = Some c →
    ∃ conn, w_conns w !! c = Some conn
            ∧ (live conn = true ∨ closeOnce conn = true).

Definition tracks_live (w : World) (sid : string) : Prop :=
  ∃ c conn, connections (w_prov w) !! sid = Some c
            ∧ w_conns w !! c = Some conn ∧ live conn = true.

(** The accepted connection after one audio frame of three bytes. *)
Definition listened : cstate :=
  final (Connection.iteration peer_Unmarshal peer_DecodeString 0
           (ReadMsg "{media AQID}") accepted).

(** ** The send loop *)

(** The media frame [writeLoop] hands to [WriteJSON]: event ["media"] with
    the stream id and the encoded payload. *)
Record outMedia : Type := mkOutMedia {
  out_streamSid : string;
  out_payload : string
}.

(** A connection with the frames written to its socket so far. *)
Record sockstate : Type := mkSock {
  sk_cs : cstate;
  sk_sent : list outMedia
}.

Definition on_cs (f : cstate → cstate) (s : sockstate) : sockstate :=
  mkSock (f (sk_cs s)) (sk_sent s).

(** [c.wsConn.WriteJSON(msg)], given what the socket answers. *)
Definition WriteJSON (msg : outMedia) (answer : option error) : M sockstate (option error) :=
  λ s, match answer with
       | None => Ret None (mkSock (sk_cs s) (sk_sent s ++ [msg]))
       | Some e => Ret (Some e) s
       end.

Module SendLoop.

Section WriteLoop.

(** [base64.StdEncoding.EncodeToString] *)
Context (EncodeToString : bytes → string).

(** The [case audio := <-c.audioIn.ch] branch, on the received [audio]
    (nil from a closed channel) and the channel left. *)
Definition send_audio (audio : bytes) (ch' : Chan.chan bytes)
    (answer : option error) : M sockstate ctl :=
  modify (on_cs (on_conn (λ c, set_audioIn (mkAudioWriter ch' (aw_closed (audioIn c))) c)));;
  s ← get;
  (* Encode audio to base64 *)
  let encoded := EncodeToString audio in
  let msg := mkOutMedia (streamSID (cs_conn (sk_cs s))) encoded in
  let closed := closed (cs_conn (sk_cs s)) in
  if negb closed then
    err ← WriteJSON msg answer;
    match err with
    | Some _ => mret Return
    | None => mret Continue
    end
  else mret Continue.

(** One turn of the [for] loop: the [select] over [c.done] and
    [c.audioIn.ch]. When both can proceed Go picks one at random;
    [pick_done] is that pick. [answer] is what the socket would answer to a
    write in this turn. *)
Definition turn (pick_done : bool) (answer : option error) : M sockstate ctl := λ s,
  let c := cs_conn (sk_cs s) in
  let audio_case :=
    match Chan.recv (aw_ch (audioIn c)) with
    | Chan.Received audio ch' => Some (send_audio audio ch' answer s)
    | Chan.RecvClosed => Some (send_audio [] (aw_ch (audioIn c)) answer s)
    | Chan.RecvWouldBlock => None
    end in
  let done_case :=
    match Chan.recv (done c) with
    | Chan.Received _ d' => Some (Ret Return (on_cs (on_conn (set_done d')) s))
    | Chan.RecvClosed => Some (Ret Return s)
    | Chan.RecvWouldBlock => None
    end in
  match done_case, audio_case with
  | None, None => Blocked s
  | Some d, None => d
  | None, Some a => a
  | Some d, Some a => if pick_done then d else a
  end.

(** [func (c *Connection) writeLoop()], turn by turn, on the picks and
    socket answers of the turns; [Continue] means the loop is still
    running when they run out. *)
Fixpoint writeLoop (turns : list (bool * option error)) : M sockstate ctl :=
  match turns with
  | [] => mret Continue
  | (pick_done, answer) :: rest =>
      r ← turn pick_done answer;
      match r with
      | Continue => writeLoop rest
      | Return => mret Return
      end
  end.

End WriteLoop.

End SendLoop.

(** The frames of the chunks [q] for the stream [sid]. *)
Definition frames_of (EncodeToString : bytes → string) (sid : string)
    (q : list bytes) : list outMedia :=
  (λ a, mkOutMedia sid (EncodeToString a)) <$> q.

(** Turns in which every write succeeds. *)
Definition all_written (turns : list (bool * option error)) : Prop :=
  Forall (λ t, t.2 = None) turns.

(** The outbound queue of a connection. *)
Definition outbound (s : sockstate) : list bytes :=
  Chan.buf (aw_ch (audioIn (cs_conn (sk_cs s)))).

Definition set_outbound (q : list bytes) (s : sockstate) : sockstate :=
  on_cs (on_conn (λ c, set_audioIn
    (mkAudioWriter (Chan.set_buf (aw_ch (audioIn c)) q) (aw_closed (audioIn c))) c)) s.

Definition add_sent (l : list outMedia) (s : sockstate) : sockstate :=
  mkSock (sk_cs s) (sk_sent s ++ l).

(** ** States the receive loop can be in *)

(** A live connection with the provider's mutex free: the state between
    two turns of the loops. *)
Definition good (st : cstate) : Prop :=
  live (cs_conn st) = true ∧ mu (cs_prov st) = Unlocked.

Definition events_full (st : cstate) : Prop :=
  Chan.cap (events (cs_conn st)) ≤ length (Chan.buf (events (cs_conn st))).

(** The reads whose frame makes the loop send an event first thing. *)
Definition sends_event (Unmarshal : string → option mediaMessage) (r : wsRead) : bool :=
  match r with
  | ReadErr err => negb (IsCloseError err [CloseNormalClosure; CloseGoingAway])
  | ReadMsg data =>
      match Unmarshal data with
      | None => false
      | Some msg =>
          (msg_Event msg =? "connected")%string
          || (msg_Event msg =? "stop")%string
          || ((msg_Event msg =? "dtmf")%string
              && bool_decide (is_Some (msg_DTMF msg)))
      end
  end.

(** The audio a read adds to the inbound buffer, if the buffer has room:
    the decoded payload of a media frame that has a body and a payload. *)
Definition audio_of (Unmarshal : string → option mediaMessage)
    (DecodeString : string → option bytes) (r : wsRead) : option bytes :=
  match r with
  | ReadMsg data =>
      match Unmarshal data with
      | Some msg =>
          if (msg_Event msg =? "media")%string then
            match msg_Media msg with
            | Some media =>
                if (media_Payload media =? "")%string then None
                else DecodeString (media_Payload media)
            | None => None
            end
          else None
      | None => None
      end
  | ReadErr _ => None
  end.

(** The digit a read reports, if it is a DTMF frame with a body. *)
Definition digit_of (Unmarshal : string → option mediaMessage) (r : wsRead) : option string :=
  match r with
  | ReadMsg data =>
      match Unmarshal data with
      | Some msg =>
          if (msg_Event msg =? "dtmf")%string then dtmf_Digit <$> msg_DTMF msg
          else None
      | None => None
      end
  | ReadErr _ => None
  end.

(** Frames the [switch] knows but that lack what their case needs, and
    mark frames: a started frame without a start body, a media frame
    without a media body or with an empty payload, a DTMF frame without a
    body. *)
Definition hollow (Unmarshal : string → option mediaMessage) (data : string) : bool :=
  match Unmarshal data with
  | None => false
  | Some msg =>
      ((msg_Event msg =? "start")%string && negb (bool_decide (is_Some (msg_Start msg))))
      || ((msg_Event msg =? "media")%string
          && match msg_Media msg with
             | Some media => (media_Payload media =? "")%string
             | None => true
             end)
      || ((msg_Event msg =? "dtmf")%string && negb (bool_decide (is_Some (msg_DTMF msg))))
      || (msg_Event msg =? "mark")%string
  end.

(** The inbound queue and what it becomes when [audio] arrives. *)
Definition inbound (st : cstate) : list bytes :=
  Chan.buf (ar_ch (audioOut (cs_conn st))).

Definition deliver (audio : bytes) (r : audioReader) : audioReader :=
  if length (Chan.buf (ar_ch r)) <? Chan.cap (ar_ch r)
  then mkAudioReader (Chan.set_buf (ar_ch r) (Chan.buf (ar_ch r) ++ [audio])) (ar_buffer r)
  else r.

(** A connection whose send loop is at work: live and not flagged closed. *)
Definition sending (s : sockstate) : Prop :=
  live (cs_conn (sk_cs s)) = true ∧ closed (cs_conn (sk_cs s)) = false.

(** [c.AudioIn().Write(p)] by the application. *)
Definition app_Write (p : bytes) : M sockstate (nat * option error) :=
  zoom (λ s, audioIn (cs_conn (sk_cs s)))
       (λ w, on_cs (on_conn (set_audioIn w)))
       (audioWriter.Write p).

(** [c.AudioIn().Close()] by the application. *)
Definition app_CloseWriter : M sockstate (option error) :=
  zoom (λ s, audioIn (cs_conn (sk_cs s)))
       (λ w, on_cs (on_conn (set_audioIn w)))
       audioWriter.Close.

(** The frame of a chunk on the connection's current stream. *)
Definition frame_of (EncodeToString : bytes → string) (s : sockstate)
    (a : bytes) : outMedia :=
  mkOutMedia (streamSID (cs_conn (sk_cs s))) (EncodeToString a).

(** ** Registries in good order *)

(** Every registered listener refers to an open channel, and no channel
    is registered under two addresses. *)
Definition registry_ok (w : World) : Prop :=
  (∀ addr l, listeners (w_prov w) !! addr = Some l →
     ∃ ch, w_chans w !! l = Some ch ∧ Chan.closed ch = false)
  ∧ (∀ a1 a2 l, listeners (w_prov w) !! a1 = Some l →
       listeners (w_prov w) !! a2 = Some l → a1 = a2).

(** Every registered connection has been closed already. *)
Definition all_closed (w : World) : Prop :=
  ∀ sid c, connections (w_prov w) !! sid = Some c →
    ∃ conn, w_conns w !! c = Some conn ∧ closeOnce conn = true.

Definition registered (w : World) (l : chanptr) : Prop :=
  ∃ addr, listeners (w_prov w) !! addr = Some l.

(** [n] sockets accepted for one path, one after the other. *)
Definition accept_all (path : string) (n : nat) : M World (list connptr) :=
  forM (λ _ : unit, Provider.HandleWebSocket path) (replicate n tt).

(** ** More of the example peer *)

(** Standard base64 with padding, for the frames of the examples. *)
Definition b64_digit (n : N) : Ascii.ascii :=
  default (Ascii.ascii_of_nat 61)
    (String.get (N.to_nat n)
       "ABCDEFGHIJKLMNOPQRSTUVWXYZabcdefghijklmnopqrstuvwxyz0123456789+/").

Fixpoint peer_EncodeToString (l : bytes) : string :=
  match l with
  | [] => ""
  | [a] =>
      let n := (Byte.to_N a * 65536)%N in
      String (b64_digit (n / 262144)) (String (b64_digit (n / 4096 mod 64)) "==")
  | [a; b] =>
      let n := (Byte.to_N a * 65536 + Byte.to_N b * 256)%N in
      String (b64_digit (n / 262144)) (String (b64_digit (n / 4096 mod 64))
        (String (b64_digit (n / 64 mod 64)) "="))
  | a :: b :: c :: rest =>
      let n := (Byte.to_N a * 65536 + Byte.to_N b * 256 + Byte.to_N c)%N in
      String (b64_digit (n / 262144)) (String (b64_digit (n / 4096 mod 64))
        (String (b64_digit (n / 64 mod 64)) (String (b64_digit (n mod 64))
          (peer_EncodeToString rest))))
  end.

(** The accepted connection once 101 connected frames have arrived and no
    event was taken: the event channel holds 100 events and the loop waits
    in the send of the next. *)
Definition stalled : cstate :=
  final (Connection.readLoop peer_Unmarshal peer_DecodeString 0
           (replicate 101 (ReadMsg "{connected}")) accepted).

(** The accepted connection with a DTMF handler registered at its
    provider. *)
Definition handled : cstate := on_prov (set_dtmfHandler (Some 7)) accepted.

(** The accepted connection with its socket, nothing written yet, and
    the same after the application wrote three chunks. *)
Definition idle : sockstate := mkSock accepted [].

Definition loaded : sockstate :=
  final (forM app_Write [[x01; x02; x03]; [x04]; []] idle).

(** A provider with one listener, and the same with one socket accepted
    for another path. *)
Definition listening : World :=
  final (Provider.Listen "/media-stream" (Provider.New "AC1" "token")).

Definition unannounced : World :=
  final (Provider.HandleWebSocket "/elsewhere" listening).

(** * The REST client ([internal/client]) *)

From stdpp Require Import pretty.

Module client.

(** An [*http.Client]: one the caller supplied, or the one [New] makes
    with its timeout in seconds. *)
Inductive httpClient : Type :=
| GivenClient (ptr : nat)
| TimeoutClient (seconds : Z).

Record Config : Type := mkConfig {
  cfg_AccountSID : string;
  cfg_AuthToken : string;
  cfg_BaseURL : string;
  cfg_HTTPClient : option httpClient
}.

Record Client : Type := mkClient {
  c_accountSID : string;
  c_authToken : string;
  c_baseURL : string;
  c_httpClient : httpClient
}.

(** [func New(cfg *Config)], with [os.Getenv] as [env] and a nil [cfg] as
    [None]. *)
Definition New (env : string → string) (cfg : option Config) : Client + error :=
  let cfg := default (mkConfig "" "" "" None) cfg in
  let accountSID := cfg_AccountSID cfg in
  let accountSID :=
    if (accountSID =? "")%string then env "TWILIO_ACCOUNT_SID" else accountSID in
  if (accountSID =? "")%string then inr (OtherError "TWILIO_ACCOUNT_SID is required")
  else
    let authToken := cfg_AuthToken cfg in
    let authToken :=
      if (authToken =? "")%string then env "TWILIO_AUTH_TOKEN" else authToken in
    if (authToken =? "")%string then inr (OtherError "TWILIO_AUTH_TOKEN is required")
    else
      let baseURL := cfg_BaseURL cfg in
      let baseURL :=
        if (baseURL =? "")%string then "https://api.twilio.com/2010-04-01"
        else baseURL in
      let httpClient :=
        match cfg_HTTPClient cfg with
        | Some h => h
        | None => TimeoutClient 30
        end in
      inl (mkClient accountSID authToken baseURL httpClient).

(** [Call], the call resource of the API. *)
Record Call : Type := mkCall {
  SID : string;
  AccountSID : string;
  To : string;
  From : string;
  Status : string;
  Direction : string;
  Duration : string;
  StartTime : string;
  EndTime : string;
  Price : string;
  PriceUnit : string;
  AnsweredBy : string;
  CallerName : string;
  URI : string;
  DateCreated : string;
  DateUpdated : string
}.

Record MakeCallParams : Type := mkMakeCallParams {
  p_To : string;
  p_From : string;
  p_URL : string;                       (* TwiML URL *)
  p_Twiml : string;                     (* Inline TwiML *)
  p_StatusCallback : string;            (* Webhook for status updates *)
  p_StatusCallbackEvent : list string;  (* Events to receive *)
  p_MachineDetection : string;
  p_Timeout : Z;                        (* Ring timeout in seconds *)
  p_Record : bool;
  p_RecordingChannels : string;
  p_CustomParameters : gmap string string
}.

(** [url.Values] with its [Set] and [Add]. *)
Abbreviation Values := (gmap string (list string)).

Definition Set_ (key value : string) (data : Values) : Values :=
  <[key := [value]]> data.

Definition Add (key value : string) (data : Values) : Values :=
  <[key := default [] (data !! key) ++ [value]]> data.

Definition when (b : bool) (f : Values → Values) (data : Values) : Values :=
  if b then f data else data.

(** The endpoint and the form [MakeCall] hands to [c.post]. Go ranges
    over [CustomParameters] in no fixed order; [map_fold] takes one. *)
Definition MakeCall_request (c : Client) (params : MakeCallParams) : string * Values :=
  let endpoint := c_baseURL c +:+ "/Accounts/" +:+ c_accountSID c +:+ "/Calls.json" in
  let data : Values := ∅ in
  let data := Set_ "To" (p_To params) data in
  let data := Set_ "From" (p_From params) data in
  let data := when (negb (p_URL params =? "")%string) (Set_ "Url" (p_URL params)) data in
  let data := when (negb (p_Twiml params =? "")%string) (Set_ "Twiml" (p_Twiml params)) data in
  let data := when (negb (p_StatusCallback params =? "")%string)
                (Set_ "StatusCallback" (p_StatusCallback params)) data in
  let data := foldl (λ d event, Add "StatusCallbackEvent" event d) data
                (p_StatusCallbackEvent params) in
  let data := when (negb (p_MachineDetection params =? "")%string)
                (Set_ "MachineDetection" (p_MachineDetection params)) data in
  let data := when (0 <? p_Timeout params)%Z
                (Set_ "Timeout" (pretty (p_Timeout params))) data in
  let data := when (p_Record params) (Set_ "Record" "true") data in
  let data := when (negb (p_RecordingChannels params =? "")%string)
                (Set_ "RecordingChannels" (p_RecordingChannels params)) data in
  let data := map_fold (λ k v d, Set_ k v d) data (p_CustomParameters params) in
  (endpoint, data).

End client.

(** The names of the form fields [MakeCall] sets itself. *)
Definition call_fields : list string :=
  ["To"; "From"; "Url"; "Twiml"; "StatusCallback"; "StatusCallbackEvent";
   "MachineDetection"; "Timeout"; "Record"; "RecordingChannels"].

(** * The call system ([callsystem]) *)

(** Errors made with [fmt.Errorf]: a message, or a message wrapping a
    cause. *)
Inductive failure : Type :=
| Failed (msg : string)
| FailedBy (msg : string) (cause : error).

Abbreviation callptr := nat.

Module callsystem.

(** The status constants of the [callsystem] interface package, taken as
    six distinct values. *)
Inductive CallStatus : Type :=
| StatusRinging
| StatusAnswered
| StatusEnded
| StatusBusy
| StatusNoAnswer
| StatusFailed.

Inductive CallDirection : Type := Inbound | Outbound.

(** [func mapCallStatus(status string) callsystem.CallStatus] *)
Definition mapCallStatus (status : string) : CallStatus :=
  if (status =? "queued")%string || (status =? "ringing")%string then StatusRinging
  else if (status =? "in-progress")%string then StatusAnswered
  else if (status =? "completed")%string then StatusEnded
  else if (status =? "busy")%string then StatusBusy
  else if (status =? "no-answer")%string then StatusNoAnswer
  else if (status =? "failed")%string || (status =? "canceled")%string then StatusFailed
  else StatusRinging.

(** [func mapDirection(dir string) callsystem.CallDirection] *)
Definition mapDirection (dir : string) : CallDirection :=
  if (dir =? "inbound")%string then Inbound else Outbound.

Definition dq : string := String (Ascii.ascii_of_nat 34) "".
Definition nl : string := String (Ascii.ascii_of_nat 10) "".

(** [func buildMediaStreamTwiML(webhookURL string) string] *)
Definition buildMediaStreamTwiML (webhookURL : string) : string :=
  let streamURL := webhookURL in
  let streamURL :=
    if (streamURL =? "")%string then "wss://your-server.com/media-stream"
    else streamURL in
  "<?xml version=" +:+ dq +:+ "1.0" +:+ dq +:+ " encoding=" +:+ dq +:+ "UTF-8"
    +:+ dq +:+ "?>" +:+ nl
  +:+ "<Response>" +:+ nl
  +:+ "    <Connect>" +:+ nl
  +:+ "        <Stream url=" +:+ dq +:+ streamURL +:+ dq +:+ ">" +:+ nl
  +:+ "            <Parameter name=" +:+ dq +:+ "direction" +:+ dq +:+ " value="
    +:+ dq +:+ "both" +:+ dq +:+ "/>" +:+ nl
  +:+ "        </Stream>" +:+ nl
  +:+ "    </Connect>" +:+ nl
  +:+ "</Response>".

(** A [Call]; its start time and its agent session are left out. The
    transport is the media-stream connection [SetTransport] attached. *)
Record Call : Type := mkCall {
  call_id : string;
  call_direction : CallDirection;
  call_status : CallStatus;
  call_from : string;
  call_to : string;
  call_transport : option connptr
}.

Definition set_status (s : CallStatus) (c : Call) : Call :=
  mkCall (call_id c) (call_direction c) s (call_from c) (call_to c) (call_transport c).
Definition set_transport (t : option connptr) (c : Call) : Call :=
  mkCall (call_id c) (call_direction c) (call_status c) (call_from c) (call_to c) t.

(** The provider: the default from-number, the webhook URL of its
    configuration, the handler for incoming calls and the calls it tracks.
    The handler is code of the caller: the provider holds it by a name, and
    what it does when called is a parameter of [HandleIncomingWebhook]. *)
Record Provider : Type := mkProvider {
  defaultFrom : string;
  webhookURL : string;
  handler : option nat;
  calls : gmap string callptr
}.

Definition set_calls (x : gmap string callptr) (p : Provider) : Provider :=
  mkProvider (defaultFrom p) (webhookURL p) (handler p) x.
Definition set_handler (h : option nat) (p : Provider) : Provider :=
  mkProvider (defaultFrom p) (webhookURL p) h (calls p).

(** The provider with the [Call] objects its pointers refer to and the
    transport provider it owns. The provider's own mutex is taken and
    released within each method, and nothing called in between takes it;
    it is left out. *)
Record System : Type := mkSystem {
  sys_prov : Provider;
  sys_heap : gmap callptr Call;
  sys_world : World
}.

Definition on_sys_prov (f : Provider → Provider) (s : System) : System :=
  mkSystem (f (sys_prov s)) (sys_heap s) (sys_world s).
Definition set_heap (x : gmap callptr Call) (s : System) : System :=
  mkSystem (sys_prov s) x (sys_world s).
Definition set_world (w : World) (s : System) : System :=
  mkSystem (sys_prov s) (sys_heap s) w.

(** [func (p *Provider) OnIncomingCall(handler callsystem.CallHandler)] *)
Definition OnIncomingCall (h : nat) : M System unit :=
  modify (on_sys_prov (set_handler (Some h))).

(** [func (c *Call) Answer(ctx) error] *)
Definition Answer (c : callptr) : M System (option error) :=
  s ← get;
  modify (set_heap (alter (set_status StatusAnswered) c (sys_heap s)));;
  mret None.

(** [func (p *Provider) HandleIncomingWebhook(callSID, from, to string)].
    The handler is called with the provider's mutex released and may do
    anything to the call and to the provider before it returns: [run h]
    is what the handler named [h] does with the call it is given. *)
Definition HandleIncomingWebhook (run : nat → callptr → M System (option error))
    (callSID from to : string)
    : M System (option callptr * string * option error) :=
  s ← get;
  let call := fresh (dom (sys_heap s)) in
  modify (set_heap (<[call := mkCall callSID Inbound StatusRinging from to None]>
                      (sys_heap s)));;
  modify (on_sys_prov (λ p, set_calls (<[callSID := call]> (calls p)) p));;
  let handler := handler (sys_prov s) in
  (* Call the handler *)
  err ← match handler with
        | Some h => run h call
        | None => mret None
        end;
  match err with
  | Some err => mret (None, "", Some err)
  | None =>
      (* Return TwiML for Media Streams *)
      s' ← get;
      let twiml := buildMediaStreamTwiML (webhookURL (sys_prov s')) in
      mret (Some call, twiml, None)
  end.

(** [func (p *Provider) HandleStatusCallback(callSID, status string)] *)
Definition HandleStatusCallback (callSID status : string) : M System unit :=
  s ← get;
  match calls (sys_prov s) !! callSID with
  | Some call =>
      let st := mapCallStatus status in
      modify (set_heap (alter (set_status st) call (sys_heap s)));;
      match st with
      | StatusEnded =>
          modify (on_sys_prov (λ p, set_calls (delete callSID (calls p)) p))
      | _ => mret tt
      end
  | None => mret tt
  end.

(** [func (p *Provider) GetCall(ctx, callID string)], with the client's
    [GetCall] as [fetch]. *)
Definition GetCall (fetch : string → client.Call + error) (callID : string)
    : M System (callptr + failure) :=
  s ← get;
  (* Check local cache first *)
  match calls (sys_prov s) !! callID with
  | Some call => mret (inl call)
  | None =>
      (* Fetch from Twilio *)
      match fetch callID with
      | inr err => mret (inr (FailedBy "failed to get call" err))
      | inl twilioCall =>
          let call := fresh (dom (sys_heap s)) in
          modify (set_heap (<[call := mkCall (client.SID twilioCall)
                                        (mapDirection (client.Direction twilioCall))
                                        (mapCallStatus (client.Status twilioCall))
                                        (client.From twilioCall)
                                        (client.To twilioCall) None]>
                              (sys_heap s)));;
          mret (inl call)
      end
  end.

(** [func (p *Provider) ListCalls(ctx)]; the order is that of the map's
    iteration. *)
Definition ListCalls : M System (list callptr) :=
  s ← get;
  mret (map_to_list (calls (sys_prov s))).*2.

(** [func (c *Call) SetTransport(conn)] *)
Definition SetTransport (c : callptr) (conn : connptr) : M System unit :=
  s ← get;
  modify (set_heap (alter (set_transport (Some conn)) c (sys_heap s))).

(** [func (c *Call) Hangup(ctx) error], with the client's [HangupCall] as
    [hangup] (nil or its error). *)
Definition Hangup (hangup : string → option error) (c : callptr)
    : M System (option failure) :=
  s ← get;
  match sys_heap s !! c with
  | None => panic
  | Some call =>
      match hangup (call_id call) with
      | Some err => mret (Some (FailedBy "failed to hangup" err))
      | None =>
          modify (set_heap (alter (set_status StatusEnded) c (sys_heap s)));;
          match call_transport call with
          | Some conn =>
              zoom sys_world set_world (at_conn conn Connection.Close);;
              mret None
          | None => mret None
          end
      end
  end.

(** [for _, call := range p.calls { _ = call.Hangup(ctx) }] *)
Fixpoint hangup_all (hangup : string → option error) (cs : list callptr)
    : M System unit :=
  match cs with
  | [] => mret tt
  | c :: rest => Hangup hangup c;; hangup_all hangup rest
  end.

(** [func (p *Provider) Close() error]; [p.transport] is never nil in a
    provider made by [New]. *)
Definition Close (hangup : string → option error) : M System (option error) :=
  s ← get;
  (* Hangup all active calls *)
  hangup_all hangup (map_to_list (calls (sys_prov s))).*2;;
  modify (on_sys_prov (set_calls ∅));;
  zoom sys_world set_world Provider.Close.

End callsystem.

(** The tracked call of a stream id, if any. *)
Definition tracked_call (s : callsystem.System) (sid : string) : option callsystem.Call :=
  callsystem.calls (callsystem.sys_prov s) !! sid ≫= λ c, callsystem.sys_heap s !! c.

(** The state in which the handler of an incoming call is called: the
    call has its new object, inbound and ringing, and is tracked under its
    SID. *)
Definition ringing (callSID from to : string) (s : callsystem.System)
    : callsystem.System :=
  let call := fresh (dom (callsystem.sys_heap s)) in
  callsystem.on_sys_prov
    (λ p, callsystem.set_calls (<[callSID := call]> (callsystem.calls p)) p)
    (callsystem.set_heap
       (<[call := callsystem.mkCall callSID callsystem.Inbound
                    callsystem.StatusRinging from to None]>
          (callsystem.sys_heap s)) s).

(** Every tracked call has its object. *)
Definition calls_ok (s : callsystem.System) : Prop :=
  ∀ sid c, callsystem.calls (callsystem.sys_prov s) !! sid = Some c →
    is_Some (callsystem.sys_heap s !! c).

(** A call whose hang-up cannot close a transport connection: the request
    fails, or no transport is attached. *)
Definition harmless (hangup : string → option error) (s : callsystem.System)
    (c : callptr) : Prop :=
  ∃ call, callsystem.sys_heap s !! c = Some call
          ∧ (is_Some (hangup (callsystem.call_id call))
             ∨ callsystem.call_transport call = None).

(** * The transcription stream ([stt]) *)

Module stt.

Section Stream.

(** [stt.StreamEvent], which this package never builds. *)
Context {StreamEvent : Type}.

Record streamWriter : Type := mkStreamWriter {
  sw_eventCh : Chan.chan StreamEvent;
  sw_closed : bool
}.

(** The writer [TranscribeStream] returns together with its event
    channel. *)
Definition TranscribeStream : streamWriter :=
  mkStreamWriter (Chan.make StreamEvent 100) false.

(** [func (w *streamWriter) Write(p []byte) (n int, err error)] *)
Definition Write (p : bytes) : M streamWriter (nat * option error) := λ w,
  if sw_closed w then Ret (0, Some ErrClosedPipe) w
  else Ret (length p, None) w.

(** [func (w *streamWriter) Close() error] *)
Definition Close : M streamWriter (option error) := λ w,
  if negb (sw_closed w) then
    match Chan.close (sw_eventCh w) with
    | Some c' => Ret None (mkStreamWriter c' true)
    | None => Panicked (mkStreamWriter (sw_eventCh w) true)
    end
  else Ret None w.

End Stream.

End stt.

(** ** Examples for the call system *)

(** A call system whose transport is the provider with one live
    connection, tracking one call with that connection attached. *)
Definition one_call : callsystem.System :=
  callsystem.mkSystem
    (callsystem.mkProvider "+15551234567" "wss://example.test/media-stream" None
       {[ "CA1" := 0 ]})
    {[ 0 := callsystem.mkCall "CA1" callsystem.Inbound callsystem.StatusAnswered
              "+15550001111" "+15551234567" (Some 0) ]}
    live_world.

(** The API is unreachable: every hang-up request fails. *)
Definition unreachable (callSID : string) : option error :=
  Some (OtherError "dial tcp: i/o timeout").

Definition reachable (callSID : string) : option error := None.

(** The API knows every call: a call to the provider's number, in
    progress. *)
Definition remote_call (callSID : string) : client.Call :=
  client.mkCall callSID "AC1" "+15551234567" "+15550002222" "in-progress" "inbound"
    "" "" "" "" "" "" "" "" "" "".

Definition api_up (callSID : string) : client.Call + error :=
  inl (remote_call callSID).

(** The handler of the README: it answers every call. A second handler
    turns every call away and does nothing else. *)
Definition readme_handlers (h : nat) (call : callptr)
    : M callsystem.System (option error) :=
  match h with
  | 0 => callsystem.Answer call
  | _ => mret (Some (OtherError "line busy"))
  end.

(** [one_call] after [OnIncomingCall] set its handler. *)
Definition answering (h : nat) : callsystem.System :=
  final (callsystem.OnIncomingCall h one_call).

(** * The speech provider ([tts]) *)

Module tts.

(** A [tts.Voice] of the interface package, with the fields this package
    fills in. *)
Record Voice : Type := mkVoice {
  v_ID : string;
  v_Name : string;
  v_Language : string;
  v_Gender : string;
  v_Provider : string
}.

#[global] Instance Voice_eq_dec : EqDecision Voice.
Proof. solve_decision. Defined.

(** [func getTwilioVoices() []tts.Voice] *)
Definition getTwilioVoices : list Voice :=
  [
    mkVoice "alice" "Alice" "en-US" "female" "twilio";
    mkVoice "man" "Man" "en-US" "male" "twilio";
    mkVoice "woman" "Woman" "en-US" "female" "twilio";
    mkVoice "Polly.Joanna" "Joanna (Polly)" "en-US" "female" "twilio";
    mkVoice "Polly.Matthew" "Matthew (Polly)" "en-US" "male" "twilio";
    mkVoice "Polly.Amy" "Amy (Polly)" "en-GB" "female" "twilio";
    mkVoice "Polly.Brian" "Brian (Polly)" "en-GB" "male" "twilio";
    mkVoice "Polly.Ivy" "Ivy (Polly)" "en-US" "female" "twilio";
    mkVoice "Polly.Kendra" "Kendra (Polly)" "en-US" "female" "twilio";
    mkVoice "Polly.Kimberly" "Kimberly (Polly)" "en-US" "female" "twilio";
    mkVoice "Polly.Salli" "Salli (Polly)" "en-US" "female" "twilio";
    mkVoice "Polly.Joey" "Joey (Polly)" "en-US" "male" "twilio";
    mkVoice "Polly.Justin" "Justin (Polly)" "en-US" "male" "twilio";
    mkVoice "Google.en-US-Standard-A" "Google US Female A" "en-US" "female" "twilio";
    mkVoice "Google.en-US-Standard-B" "Google US Male B" "en-US" "male" "twilio";
    mkVoice "Google.en-US-Standard-C" "Google US Female C" "en-US" "female" "twilio";
    mkVoice "Google.en-US-Standard-D" "Google US Male D" "en-US" "male" "twilio";
    mkVoice "Google.en-US-Wavenet-A" "Google US Wavenet Female A" "en-US" "female" "twilio";
    mkVoice "Google.en-US-Wavenet-B" "Google US Wavenet Male B" "en-US" "male" "twilio";
    mkVoice "Polly.Penelope" "Penelope (Polly)" "es-US" "female" "twilio";
    mkVoice "Polly.Miguel" "Miguel (Polly)" "es-US" "male" "twilio";
    mkVoice "Polly.Celine" "Celine (Polly)" "fr-FR" "female" "twilio";
    mkVoice "Polly.Mathieu" "Mathieu (Polly)" "fr-FR" "male" "twilio";
    mkVoice "Polly.Marlene" "Marlene (Polly)" "de-DE" "female" "twilio";
    mkVoice "Polly.Hans" "Hans (Polly)" "de-DE" "male" "twilio"
  ].

(** A slice is the address of its backing array; no slice here is ever
    resliced or appended to. *)
Abbreviation sliceptr := nat.

Record options : Type := mkOptions {
  o_voice : string;
  o_language : string
}.

(** [func WithVoice(voice string) Option] *)
Definition WithVoice (voice : string) (o : options) : options :=
  mkOptions voice (o_language o).

(** [func WithLanguage(language string) Option] *)
Definition WithLanguage (language : string) (o : options) : options :=
  mkOptions (o_voice o) language.

(** The provider; its mutex is taken and released within [ListVoices]
    and nothing called in between takes it, so it is left out. A nil
    [voicesCache] is [None]. *)
Record Provider : Type := mkProvider {
  defaultVoice : string;
  defaultLanguage : string;
  voicesCache : option sliceptr
}.

Definition set_voicesCache (c : option sliceptr) (p : Provider) : Provider :=
  mkProvider (defaultVoice p) (defaultLanguage p) c.

(** The provider with the backing arrays of the slices it and its callers
    hold. *)
Record Store : Type := mkStore {
  st_prov : Provider;
  st_arrays : gmap sliceptr (list Voice)
}.

Definition on_prov (f : Provider → Provider) (s : Store) : Store :=
  mkStore (f (st_prov s)) (st_arrays s).
Definition set_arrays (x : gmap sliceptr (list Voice)) (s : Store) : Store :=
  mkStore (st_prov s) x.

(** [func New(opts ...Option)] *)
Definition New (opts : list (options → options)) : Provider :=
  let cfg := foldl (λ cfg opt, opt cfg) (mkOptions "alice" "en-US") opts in
  mkProvider (o_voice cfg) (o_language cfg) None.

(** [func (p *Provider) ListVoices(ctx)] *)
Definition ListVoices : M Store sliceptr :=
  s ← get;
  match voicesCache (st_prov s) with
  | Some cache =>
      match st_arrays s !! cache with
      | Some vs =>
          let cached := fresh (dom (st_arrays s)) in
          modify (set_arrays (<[cached := vs]> (st_arrays s)));;
          mret cached
      | None => panic
      end
  | None =>
      let voices := fresh (dom (st_arrays s)) in
      modify (set_arrays (<[voices := getTwilioVoices]> (st_arrays s)));;
      modify (on_prov (set_voicesCache (Some voices)));;
      mret voices
  end.

(** [func (p *Provider) GetVoice(ctx, voiceID string)]; the result points
    to a copy of the element, given here by value. *)
Definition GetVoice (voiceID : string) : M Store (Voice + error) :=
  voices ← ListVoices;
  s ← get;
  match st_arrays s !! voices with
  | Some vs =>
      match find (λ v, bool_decide (v_ID v = voiceID)) vs with
      | Some v => mret (inl v)
      | None => mret (inr (OtherError ("voice not found: " +:+ voiceID)))
      end
  | None => panic
  end.

(** A caller's [voices[i] = v] on a slice [ListVoices] returned. *)
Definition assign (voices : sliceptr) (i : nat) (v : Voice) : M Store unit :=
  s ← get;
  match st_arrays s !! voices with
  | Some vs =>
      if decide (i < length vs) then
        modify (set_arrays (<[voices := <[i := v]> vs]> (st_arrays s)))
      else panic
  | None => panic
  end.

End tts.

(** The voices a store's slice holds. *)
Definition voices_at (s : tts.Store) (a : tts.sliceptr) : option (list tts.Voice) :=
  tts.st_arrays s !! a.

(** The provider has not listed its voices yet. *)
Definition unlisted (s : tts.Store) : Prop :=
  tts.voicesCache (tts.st_prov s) = None.

(** The cache, once filled, holds the table as the package wrote it. *)
Definition pristine (s : tts.Store) : Prop :=
  match tts.voicesCache (tts.st_prov s) with
  | Some cache => voices_at s cache = Some tts.getTwilioVoices
  | None => True
  end.

(** A new provider with no slice handed out. *)
Definition new_voices : tts.Store := tts.mkStore (tts.New []) ∅.

(** * Properties *)

(** ** Channels *)

Lemma send_room {A} (q : list A) C cl x :
  cl = false → length q < C →
  Chan.send (Chan.mk q C cl) x = Chan.Sent (Chan.mk (q ++ [x]) C cl).
Proof.
  intros -> Hlt. unfold Chan.send; simpl.
  destruct (Nat.ltb_spec (length q) C); [done | lia].
Qed.

Lemma send_full {A} (q : list A) C x :
  C ≤ length q → Chan.send (Chan.mk q C false) x = Chan.SendWouldBlock.
Proof.
  intros Hge. unfold Chan.send; simpl.
  destruct (Nat.ltb_spec (length q) C); [lia | done].
Qed.

(** ** The outbound buffer *)

Lemma Write_room (q : list bytes) C p :
  length q < C →
  audioWriter.Write p (writer_with q C) = Ret (wrote p) (writer_with (q ++ [p]) C).
Proof.
  intros Hlt. unfold audioWriter.Write, writer_with; simpl.
  by rewrite send_room.
Qed.

Lemma Write_full (x : bytes) q C p :
  length (x :: q) = C →
  audioWriter.Write p (writer_with (x :: q) C) = Ret (wrote p) (writer_with (q ++ [p]) C).
Proof.
  intros Hlen. unfold audioWriter.Write, writer_with; simpl aw_closed; cbv iota.
  simpl aw_ch. rewrite send_full by (simpl in *; lia).
  unfold Chan.recv, Chan.set_buf; simpl.
  rewrite send_room; [done..|]. simpl in Hlen. lia.
Qed.

(** One write keeps the newest [C] chunks. *)
Lemma Write_window (q : list bytes) C p :
  0 < C → length q ≤ C →
  audioWriter.Write p (writer_with q C) =
  Ret (wrote p) (writer_with (drop (length (q ++ [p]) - C) (q ++ [p])) C).
Proof.
  intros HC Hq. destruct (decide (length q < C)) as [Hlt|Hge].
  - rewrite Write_room by done. rewrite length_app; simpl.
    by replace (length q + 1 - C) with 0 by lia.
  - destruct q as [|x q]; [simpl in *; lia|].
    rewrite Write_full by lia. rewrite length_app; simpl in *.
    by replace (S (length q + 1) - C) with 1 by lia.
Qed.

Lemma Write_all_window (l q : list bytes) C :
  0 < C → length q ≤ C →
  forM audioWriter.Write l (writer_with q C) =
  Ret (wrote <$> l) (writer_with (drop (length (q ++ l) - C) (q ++ l)) C).
Proof.
  intros HC. revert q. induction l as [|p l IH]; intros q Hq.
  - simpl. rewrite app_nil_r. unfold mret, M_ret.
    by replace (length q - C) with 0 by lia.
  - simpl. unfold mbind, M_bind. rewrite Write_window by done.
    rewrite IH by (rewrite length_drop; lia).
    unfold mret, M_ret. do 2 f_equal.
    rewrite (cons_middle p q l), app_assoc.
    generalize (q ++ [p]); intros q1.
    assert (Hk : drop (length q1 - C) q1 ++ l = drop (length q1 - C) (q1 ++ l))
      by (rewrite drop_app_le; [done | lia]).
    rewrite Hk, drop_drop, length_drop, length_app. f_equal. lia.
Qed.

(** C2: on a writer of capacity [C], writing [C+1] chunks leaves the chunks
    2..C+1 queued in order and the first one gone; each write returns its
    length and no error, none waits; a write at capacity evicts exactly the
    oldest queued chunk and appends the new one. *)
Theorem C2_outbound_evicts_oldest (C : nat) (first : bytes) (rest : list bytes) :
  0 < C → length rest = C →
  forM audioWriter.Write (first :: rest) (newAudioWriterCap C)
    = Ret (wrote <$> first :: rest) (writer_with rest C)
  ∧ (NoDup (first :: rest) → first ∉ rest)
  ∧ (∀ x q p, length (x :: q) = C →
       audioWriter.Write p (writer_with (x :: q) C)
         = Ret (wrote p) (writer_with (q ++ [p]) C)).
Proof.
  intros HC Hlen. split; [|split].
  - change (newAudioWriterCap C) with (writer_with [] C).
    rewrite Write_all_window by (simpl; lia). simpl app.
    do 2 f_equal. simpl length. rewrite Hlen.
    by replace (S C - C) with 1 by lia.
  - by intros [Hnotin _]%NoDup_cons.
  - intros x q p Hx. by apply Write_full.
Qed.

(** The writer [newAudioWriter] makes, with its capacity of 100, written
    101 chunks of distinct lengths, and then one more. *)
Lemma C2_witness :
  let first : bytes := [] in
  let rest := (λ n, replicate n x00) <$> seq 1 100 in
  forM audioWriter.Write (first :: rest) newAudioWriter
    = Ret (wrote <$> first :: rest) (writer_with rest 100)
  ∧ (first ∉ rest)
  ∧ audioWriter.Write [x01] (writer_with rest 100)
    = Ret (wrote [x01]) (writer_with (tail rest ++ [[x01]]) 100).
Proof.
  cbv zeta.
  destruct (C2_outbound_evicts_oldest 100 []
              ((λ n, replicate n x00) <$> seq 1 100)) as (H1 & H2 & H3);
    [lia | reflexivity |].
  split; [exact H1|]. split.
  - apply H2. apply (NoDup_fmap_1 length). exact (NoDup_seq 0 101).
  - exact (H3 [x00] ((λ n, replicate n x00) <$> seq 2 99) [x01] eq_refl).
Defined.

(** ** The inbound buffer *)

Lemma write_room (q : list bytes) C b d :
  length q < C →
  audioReader.write d (reader_with q C b) = Ret tt (reader_with (q ++ [d]) C b).
Proof.
  intros Hlt. unfold audioReader.write, reader_with; simpl.
  by rewrite send_room.
Qed.

Lemma write_full (q : list bytes) C b d :
  C ≤ length q →
  audioReader.write d (reader_with q C b) = Ret tt (reader_with q C b).
Proof.
  intros Hge. unfold audioReader.write, reader_with; simpl.
  by rewrite send_full.
Qed.

Lemma write_all (l q : list bytes) C b :
  forM audioReader.write l (reader_with q C b)
    = Ret ((λ _, tt) <$> l) (reader_with (q ++ take (C - length q) l) C b).
Proof.
  revert q. induction l as [|d l IH]; intros q; simpl.
  - by rewrite take_nil, app_nil_r.
  - unfold mbind, M_bind. destruct (decide (length q < C)) as [Hlt|Hge].
    + rewrite write_room by done. rewrite IH. unfold mret, M_ret.
      do 2 f_equal. rewrite length_app; simpl.
      replace (C - length q) with (S (C - (length q + 1))) by lia.
      simpl. by rewrite <- app_assoc.
    + rewrite write_full by lia. rewrite IH. unfold mret, M_ret.
      do 2 f_equal. by replace (C - length q) with 0 by lia.
Qed.

Lemma reads_whole (q : list bytes) C plen :
  Forall (λ d, length d ≤ plen) q →
  reads (replicate (length q) plen) (reader_with q C []) = (q, reader_with [] C []).
Proof.
  induction 1 as [|d q Hd _ IH]; [done|].
  simpl. unfold audioReader.Read, reader_with in *; simpl.
  rewrite Nat.min_r by done. rewrite Nat.ltb_irrefl, take_ge by done.
  unfold Chan.set_buf; simpl. by rewrite IH.
Qed.

(** C3: on a reader of capacity [C], delivering [C+1] chunks leaves the
    chunks 1..C queued in order and the last one gone; no delivery waits; a
    delivery at capacity leaves the queue and the partial buffer as they
    were; reading then returns the chunks 1..C in order. *)
Theorem C3_inbound_drops_newest (C : nat) (chunks : list bytes) (last : bytes) :
  length chunks = C →
  forM audioReader.write (chunks ++ [last]) (newAudioReaderCap C)
    = Ret ((λ _, tt) <$> chunks ++ [last]) (reader_with chunks C [])
  ∧ (∀ q b d, C ≤ length q →
       audioReader.write d (reader_with q C b) = Ret tt (reader_with q C b))
  ∧ (∀ plen, Forall (λ d, length d ≤ plen) chunks →
       reads (replicate C plen) (reader_with chunks C [])
         = (chunks, reader_with [] C [])).
Proof.
  intros Hlen. split; [|split].
  - change (newAudioReaderCap C) with (reader_with [] C []).
    rewrite write_all. simpl. rewrite Nat.sub_0_r.
    by rewrite take_app_length' by done.
  - intros q b d Hq. by apply write_full.
  - intros plen Hall. rewrite <- Hlen. by apply reads_whole.
Qed.

(** The reader [newAudioReader] makes, with its capacity of 100, delivered
    101 chunks of distinct lengths, and then read. *)
Lemma C3_witness :
  let chunks := (λ n, replicate n x00) <$> seq 0 100 in
  let last := replicate 100 x00 in
  forM audioReader.write (chunks ++ [last]) newAudioReader
    = Ret ((λ _, tt) <$> chunks ++ [last]) (reader_with chunks 100 [])
  ∧ audioReader.write last (reader_with chunks 100 [x07])
    = Ret tt (reader_with chunks 100 [x07])
  ∧ reads (replicate 100 128) (reader_with chunks 100 [])
    = (chunks, reader_with [] 100 []).
Proof.
  cbv zeta.
  destruct (C3_inbound_drops_newest 100 ((λ n, replicate n x00) <$> seq 0 100)
              (replicate 100 x00)) as (H1 & H2 & H3); [reflexivity|].
  split; [exact H1|]. split.
  - apply H2. simpl; lia.
  - apply H3. apply Forall_fmap, Forall_forall. intros n Hn.
    apply elem_of_seq in Hn. simpl. rewrite length_replicate. lia.
Defined.

(** What one [Read] returns is the front of what the reader owed, and the
    rest is still owed. *)
Lemma Read_pending (plen : nat) (r : audioReader) :
  match audioReader.Read plen r with
  | Ret (bs, _) r' => bs ++ pending r' = pending r
  | Blocked r' => r' = r
  | Panicked _ => False
  end.
Proof.
  unfold audioReader.Read, pending. destruct r as [[q C cl] b]; simpl.
  destruct (Nat.ltb_spec 0 (length b)) as [Hb|Hb].
  - simpl. by rewrite app_assoc, take_drop.
  - assert (b = []) as -> by (destruct b; [done | simpl in Hb; lia]).
    unfold Chan.recv; simpl. destruct q as [|d q]; simpl.
    + by destruct cl.
    + destruct (Nat.ltb_spec (plen `min` length d) (length d)) as [Hn|Hn]; simpl.
      * by rewrite app_assoc, take_drop.
      * by rewrite take_ge by lia.
Qed.

Lemma reads_pending (sizes : list nat) (r : audioReader) :
  concat (reads sizes r).1 ++ pending (reads sizes r).2 = pending r.
Proof.
  revert r. induction sizes as [|n sizes IH]; intros r; [done|].
  simpl. pose proof (Read_pending n r) as Hstep.
  destruct (audioReader.Read n r) as [[bs e] r'|r'|r']; simpl.
  - specialize (IH r'). destruct (reads sizes r') as [out r'']; simpl in *.
    by rewrite <- Hstep, <- IH, app_assoc.
  - by subst.
  - done.
Qed.

Lemma read_budget_0 (r : audioReader) :
  read_budget r = 0 → ar_buffer r = [] ∧ Chan.buf (ar_ch r) = [].
Proof.
  unfold read_budget. destruct r as [[q C cl] b]; simpl.
  destruct b; [|simpl; lia]. destruct q; [done | simpl; lia].
Qed.

(** A read with room for a byte makes progress, unless nothing is left. *)
Lemma Read_budget (plen : nat) (r : audioReader) :
  0 < plen →
  read_budget (final (audioReader.Read plen r)) < read_budget r
  ∨ read_budget r = 0 ∧ final (audioReader.Read plen r) = r.
Proof.
  intros Hp. unfold audioReader.Read, read_budget.
  destruct r as [[q C cl] b]; simpl.
  destruct (Nat.ltb_spec 0 (length b)) as [Hb|Hb]; simpl.
  - left. rewrite length_drop. lia.
  - assert (b = []) as -> by (destruct b; [done | simpl in Hb; lia]).
    unfold Chan.recv; simpl. destruct q as [|d q]; csimpl.
    + right. by destruct cl.
    + left. destruct (Nat.ltb_spec (plen `min` length d) (length d)); csimpl.
      * rewrite length_drop. lia.
      * lia.
Qed.

Lemma reads_drain (sizes : list nat) (r : audioReader) :
  Forall (λ n, 0 < n) sizes → read_budget r ≤ length sizes →
  read_budget (reads sizes r).2 = 0.
Proof.
  intros Hpos. revert r. induction Hpos as [|n sizes Hn _ IH]; intros r Hb.
  - simpl in *. lia.
  - simpl in *. pose proof (Read_budget n r Hn) as Hstep.
    destruct (audioReader.Read n r) as [[bs e] r'|r'|r'] eqn:HR; simpl in *.
    + assert (read_budget r' ≤ length sizes) as Hr'
        by (destruct Hstep as [?|[? ->]]; lia).
      specialize (IH r' Hr'). by destruct (reads sizes r').
    + destruct Hstep as [Hlt|[H0 ->]]; [|done].
      pose proof (Read_pending n r) as Hp. rewrite HR in Hp. subst. lia.
    + pose proof (Read_pending n r) as Hp. by rewrite HR in Hp.
Qed.

Lemma reads_all (sizes : list nat) (r : audioReader) :
  Forall (λ n, 0 < n) sizes → read_budget r ≤ length sizes →
  concat (reads sizes r).1 = pending r.
Proof.
  intros Hpos Hb. rewrite <- (reads_pending sizes r).
  destruct (read_budget_0 _ (reads_drain sizes r Hpos Hb)) as [Hbuf Hq].
  unfold pending at 1. by rewrite Hbuf, Hq, app_nil_r.
Qed.

(** C10: reads are byte-exact and keep the order whatever the sizes of the
    destinations: the bytes read so far followed by the bytes still owed are
    always the bytes owed at the start; a destination smaller than the next
    chunk gets the front of the chunk and the remainder is kept; a kept
    remainder is served before the queue is touched; and enqueued chunks,
    read with destinations that have room for a byte, come out as their
    concatenation once enough reads were made. *)
Theorem C10_reads_byte_exact :
  (∀ sizes r, concat (reads sizes r).1 ++ pending (reads sizes r).2 = pending r)
  ∧ (∀ plen d q C cl, plen < length d →
       audioReader.Read plen (mkAudioReader (Chan.mk (d :: q) C cl) [])
         = Ret (take plen d, None) (mkAudioReader (Chan.mk q C cl) (drop plen d)))
  ∧ (∀ plen x b ch,
       audioReader.Read plen (mkAudioReader ch (x :: b))
         = Ret (take plen (x :: b), None) (mkAudioReader ch (drop plen (x :: b))))
  ∧ (∀ C chunks sizes,
       length chunks ≤ C → Forall (λ n, 0 < n) sizes →
       sum_list (S ∘ length <$> chunks) ≤ length sizes →
       concat (reads sizes (final (forM audioReader.write chunks (newAudioReaderCap C)))).1
         = concat chunks).
Proof.
  split; [exact reads_pending|]. split; [|split].
  - intros plen d q C cl Hlt. unfold audioReader.Read, Chan.recv; simpl.
    rewrite Nat.min_l by lia.
    by destruct (Nat.ltb_spec plen (length d)); [|lia].
  - intros plen x b ch. unfold audioReader.Read.
    change (0 <? length (ar_buffer (mkAudioReader ch (x :: b)))) with true.
    cbv iota. simpl ar_buffer. simpl ar_ch.
    destruct (decide (plen ≤ length (x :: b))).
    + by rewrite Nat.min_l by done.
    + rewrite Nat.min_r by lia. by rewrite !(take_ge _ plen), !(drop_ge _ plen),
        firstn_all, drop_all by lia.
  - intros C chunks sizes Hlen Hpos Hsz.
    change (newAudioReaderCap C) with (reader_with [] C []).
    rewrite write_all; simpl. rewrite Nat.sub_0_r, take_ge by done.
    rewrite reads_all; [by unfold pending | done |].
    by unfold read_budget.
Qed.

Lemma C10_witness :
  concat (reads [2; 1; 5; 1; 3; 1; 1]
            (final (forM audioReader.write [[x01; x02; x03]; []; [x04]]
                      (newAudioReaderCap 100)))).1
    = concat [[x01; x02; x03]; []; [x04]]
  ∧ audioReader.Read 2 (mkAudioReader (Chan.mk [[x01; x02; x03]; [x04]] 100 false) [])
    = Ret ([x01; x02], None) (mkAudioReader (Chan.mk [[x04]] 100 false) [x03]).
Proof.
  split.
  - apply (proj2 (proj2 (proj2 C10_reads_byte_exact)) 100
             [[x01; x02; x03]; []; [x04]] [2; 1; 5; 1; 3; 1; 1]).
    + simpl; lia.
    + repeat (apply Forall_cons_2; [lia|]). apply Forall_nil_2.
    + simpl; lia.
  - apply (proj1 (proj2 C10_reads_byte_exact) 2 [x01; x02; x03]). simpl; lia.
Defined.

(** ** Closing a connection *)

Lemma live_inv (c : Connection) :
  live c = true →
  closeOnce c = false ∧ Chan.closed (done c) = false ∧ Chan.buf (done c) = []
  ∧ Chan.closed (events c) = false ∧ Chan.closed (ar_ch (audioOut c)) = false
  ∧ aw_closed (audioIn c) = Chan.closed (aw_ch (audioIn c)).
Proof.
  unfold live. rewrite !andb_true_iff, !negb_true_iff, !bool_decide_eq_true.
  tauto.
Qed.

Lemma Close_live (st : cstate) :
  live (cs_conn st) = true → mu (cs_prov st) = Unlocked →
  Connection.Close st = Ret None (torn_down st).
Proof.
  intros (Honce & Hdone & _ & Hev & Hout & Hin)%live_inv Hmu.
  destruct st as [[i sid cid ws [eq ec ecl] [[wq wc wcl] wclosed] [[rq rc rcl] rb]
                    [dq dc dcl] cl once] [acc tok m conns lst h] calls].
  simpl in *. subst.
  by destruct wcl.
Qed.

(** ** The receive loop, frame by frame *)

Ltac crack st :=
  destruct st as [[? ? ? ? [? ? ?] [[? ? ?] ?] [[? ? ?] ?] [? ? ?] ? ?]
                    [? ? ? ? ? hdl] ?].

Ltac use_ready H :=
  destruct H as ((? & ? & ? & ? & ? & ?)%live_inv & ? & ? & ?);
  simpl in *; subst.

Lemma ready_emitted evs K e st :
  ready evs K st → ready (evs ++ e) K (emitted e st).
Proof. intros (? & ? & <- & ?). by crack st. Qed.

Lemma ready_bound evs K this start st :
  ready evs K st → ready evs K (bound this start st).
Proof. intros (? & ? & <- & ?). by crack st. Qed.

Lemma ready_called evs K this digit st :
  ready evs K st → ready evs K (called this digit st).
Proof.
  intros (? & ? & <- & ?). unfold called. by destruct (dtmfHandler _).
Qed.

Lemma send_event_room evs K e st :
  ready evs K st → length evs < K →
  send_event e st = Ret tt (emitted [e] st).
Proof.
  intros H Hlt. crack st. use_ready H. unfold send_event; simpl.
  by rewrite send_room.
Qed.

Lemma send_event_closed e st :
  Chan.closed (events (cs_conn st)) = true → send_event e st = Panicked st.
Proof. intros H. unfold send_event, Chan.send. by rewrite H. Qed.

(** The close errors the loop takes for the end of the call are those of
    code 1000 (normal closure) and 1001 (going away). *)
Lemma IsCloseError_normal err :
  IsCloseError err [CloseNormalClosure; CloseGoingAway] = true
  ↔ ∃ text, err = CloseError 1000 text ∨ err = CloseError 1001 text.
Proof.
  destruct err as [| |code text|msg]; simpl.
  1,2,4: split; [done|]; by intros (? & [?|?]).
  unfold CloseNormalClosure, CloseGoingAway.
  rewrite orb_false_r, orb_true_iff, !Z.eqb_eq. split.
  - intros [->| ->]; exists text; tauto.
  - intros (? & [[= -> _]|[= -> _]]); tauto.
Qed.

Section Frames.

Context (Unmarshal : string → option mediaMessage).
Context (DecodeString : string → option bytes).
Context (this : connptr).

Local Abbreviation iteration := (Connection.iteration Unmarshal DecodeString this).
Local Abbreviation readLoop := (Connection.readLoop Unmarshal DecodeString this).

Lemma readLoop_cons evs K r rest st :
  ready evs K st →
  readLoop (r :: rest) st =
  match iteration r st with
  | Ret Continue st' => readLoop rest st'
  | Ret Return st' => (Connection.Close;; mret tt) st'
  | Blocked st' => Blocked st'
  | Panicked st' => Panicked st'
  end.
Proof. intros H. crack st. by use_ready H. Qed.

Lemma Close_ready evs K st :
  ready evs K st → (Connection.Close;; mret tt) st = Ret tt (torn_down st).
Proof.
  intros (Hl & Hmu & _). unfold mbind, M_bind.
  by rewrite Close_live.
Qed.

Lemma iteration_malformed data st :
  malformed Unmarshal DecodeString data = true →
  iteration (ReadMsg data) st = Ret Continue st.
Proof.
  unfold malformed, Connection.iteration. intros H.
  destruct (Unmarshal data) as [msg|]; [|done].
  unfold Connection.dispatch, known_event in *.
  destruct msg as [e sid start media mark stop dtmf]; simpl in *.
  repeat match goal with
         | |- context [String.eqb e ?s] =>
             destruct (String.eqb_spec e s) as [->|?]; simpl in H; try done
         end.
  destruct media as [media|]; [|done].
  apply andb_true_iff in H as [-> Hd]; simpl.
  destruct (DecodeString (media_Payload media)); [|done].
  apply negb_true_iff, bool_decide_eq_false in Hd. by destruct Hd.
Qed.

Lemma iteration_connected evs K data st :
  ready evs K st → length evs < K →
  frame_is Unmarshal "connected" data →
  iteration (ReadMsg data) st = Ret Continue (emitted [event EventConnected] st).
Proof.
  intros H Hlt (msg & HU & He). unfold Connection.iteration. rewrite HU.
  unfold Connection.dispatch. rewrite He; simpl.
  unfold mbind, M_bind. by erewrite send_event_room.
Qed.

Lemma iteration_start evs K data start st :
  ready evs K st → length evs < K →
  start_frame Unmarshal data start →
  iteration (ReadMsg data) st
    = Ret Continue (emitted [event EventAudioStarted] (bound this start st)).
Proof.
  intros H Hlt (msg & HU & He & Hs). unfold Connection.iteration. rewrite HU.
  unfold Connection.dispatch. rewrite He, Hs; simpl.
  crack st. use_ready H.
  unfold mbind, M_bind, send_event; simpl. by rewrite send_room.
Qed.

Lemma iteration_media evs K data st :
  ready evs K st → frame_is Unmarshal "media" data →
  ∃ st', iteration (ReadMsg data) st = Ret Continue st' ∧ ready evs K st'.
Proof.
  intros H (msg & HU & He). unfold Connection.iteration. rewrite HU.
  unfold Connection.dispatch. rewrite He; simpl.
  destruct (msg_Media msg) as [media|]; [|by eexists].
  destruct (negb _); [|by eexists].
  destruct (DecodeString _) as [audio|]; [|by eexists].
  pose proof H as H'. crack st. use_ready H.
  unfold mbind, M_bind, zoom, audioReader.write, Chan.send; simpl.
  destruct (_ <? _); eexists; (split; [done|]); done.
Qed.

Lemma iteration_dtmf evs K data digit st :
  ready evs K st → length evs < K →
  dtmf_frame Unmarshal data digit →
  iteration (ReadMsg data) st
    = Ret Continue
        (called this digit (emitted [mkEvent EventDTMF (Some digit) None] st)).
Proof.
  intros H Hlt (msg & HU & He & Hd). unfold Connection.iteration. rewrite HU.
  unfold Connection.dispatch. rewrite He, Hd; simpl.
  crack st. use_ready H.
  unfold mbind, M_bind, send_event, called; simpl. rewrite send_room by done.
  simpl. by destruct hdl.
Qed.

Lemma iteration_stop evs K data st :
  ready evs K st → length evs + 2 ≤ K →
  frame_is Unmarshal "stop" data →
  iteration (ReadMsg data) st
    = Ret Return (emitted [event EventAudioStopped; event EventDisconnected] st).
Proof.
  intros H Hlt (msg & HU & He). unfold Connection.iteration. rewrite HU.
  unfold Connection.dispatch. rewrite He; simpl.
  crack st. use_ready H.
  unfold mbind, M_bind, send_event; simpl. rewrite send_room by (done || lia).
  simpl. rewrite send_room by (done || rewrite length_app; simpl; lia).
  unfold emitted; simpl. by rewrite <- app_assoc.
Qed.

Lemma iteration_error evs K err st :
  ready evs K st → length evs < K →
  iteration (ReadErr err) st
    = Ret Return
        (if IsCloseError err [CloseNormalClosure; CloseGoingAway] then st
         else emitted [mkEvent EventError None (Some err)] st).
Proof.
  intros H Hlt. unfold Connection.iteration.
  destruct (IsCloseError _ _); simpl; [done|].
  unfold mbind, M_bind. by erewrite send_event_room.
Qed.

End Frames.

(** ** The receive loop on whole calls *)

Section Calls.

Context (Unmarshal : string → option mediaMessage).
Context (DecodeString : string → option bytes).
Context (this : connptr).

Local Abbreviation iteration := (Connection.iteration Unmarshal DecodeString this).
Local Abbreviation readLoop := (Connection.readLoop Unmarshal DecodeString this).

Lemma readLoop_malformed evs K bads rest st :
  ready evs K st →
  Forall (λ d, malformed Unmarshal DecodeString d = true) bads →
  readLoop ((ReadMsg <$> bads) ++ rest) st = readLoop rest st.
Proof.
  intros Hr. induction 1 as [|d bads Hd _ IH]; [done|].
  rewrite fmap_cons, <- app_comm_cons, (readLoop_cons _ _ _ evs K) by done.
  by rewrite iteration_malformed.
Qed.

Lemma readLoop_media evs K audio st :
  ready evs K st → Forall (frame_is Unmarshal "media") audio →
  ∃ st', ready evs K st'
         ∧ ∀ rest, readLoop ((ReadMsg <$> audio) ++ rest) st = readLoop rest st'.
Proof.
  intros Hr Hall. revert st Hr.
  induction Hall as [|d audio Hd _ IH]; intros st Hr; [by exists st|].
  destruct (iteration_media Unmarshal DecodeString this evs K d st Hr Hd)
    as (st1 & Hit & Hr1).
  destruct (IH st1 Hr1) as (st' & Hr' & Hrest).
  exists st'. split; [done|]. intros rest.
  rewrite fmap_cons, <- app_comm_cons, (readLoop_cons _ _ _ evs K) by done.
  by rewrite Hit.
Qed.

Lemma readLoop_stop evs K dstop rest st :
  ready evs K st → length evs + 2 ≤ K →
  frame_is Unmarshal "stop" dstop →
  readLoop (ReadMsg dstop :: rest) st
    = Ret tt (torn_down (emitted [event EventAudioStopped; event EventDisconnected] st)).
Proof.
  intros Hr HK Hstop.
  rewrite (readLoop_cons _ _ _ evs K) by done.
  rewrite (iteration_stop _ _ _ evs K) by done.
  by eapply Close_ready, ready_emitted.
Qed.

Lemma events_torn_down st :
  Chan.buf (events (cs_conn (torn_down st))) = Chan.buf (events (cs_conn st))
  ∧ Chan.closed (events (cs_conn (torn_down st))) = true.
Proof. done. Qed.

(** C1: the frames connected, started, any number of audio frames, DTMF,
    stopped make the loop put exactly Connected, AudioStarted, DTMF,
    AudioStopped, Disconnected on the event channel, in this order and with
    nothing for the audio frames, and return (closing the channel). *)
Theorem C1_event_order evs K st dconn dstart start audio ddtmf digit dstop rest :
  ready evs K st → length evs + 5 ≤ K →
  frame_is Unmarshal "connected" dconn →
  start_frame Unmarshal dstart start →
  Forall (frame_is Unmarshal "media") audio →
  dtmf_frame Unmarshal ddtmf digit →
  frame_is Unmarshal "stop" dstop →
  ∃ st',
    readLoop ((ReadMsg <$> dconn :: dstart :: audio ++ [ddtmf; dstop]) ++ rest) st
      = Ret tt st'
    ∧ Chan.buf (events (cs_conn st')) = evs ++ call_events digit
    ∧ Chan.closed (events (cs_conn st')) = true.
Proof.
  intros Hr HK Hconn Hstart Haudio Hdtmf Hstop.
  rewrite !fmap_cons, fmap_app, <- !app_comm_cons, <- app_assoc.
  rewrite (readLoop_cons _ _ _ evs K) by done.
  rewrite (iteration_connected _ _ _ evs K) by (done || lia).
  apply (ready_emitted _ _ [event EventConnected]) in Hr.
  rewrite (readLoop_cons _ _ _ _ K) by done.
  rewrite (iteration_start _ _ _ _ K _ start)
    by (done || rewrite length_app; simpl; lia).
  apply (ready_bound _ _ this start), (ready_emitted _ _ [event EventAudioStarted]) in Hr.
  destruct (readLoop_media _ _ _ _ Hr Haudio) as (st1 & Hr1 & ->).
  simpl fmap. rewrite <- !app_comm_cons. simpl app.
  rewrite (readLoop_cons _ _ _ _ K) by done.
  rewrite (iteration_dtmf _ _ _ _ K _ digit)
    by (done || rewrite !length_app; simpl; lia).
  apply (ready_emitted _ _ [mkEvent EventDTMF (Some digit) None]),
        (ready_called _ _ this digit) in Hr1.
  rewrite (readLoop_stop _ K) by (done || rewrite !length_app; simpl; lia).
  eexists. split; [done|].
  destruct (events_torn_down
    (emitted [event EventAudioStopped; event EventDisconnected]
       (called this digit (emitted [mkEvent EventDTMF (Some digit) None] st1))))
    as [-> ->].
  split; [|done].
  apply (ready_emitted _ _ [event EventAudioStopped; event EventDisconnected]) in Hr1.
  destruct Hr1 as (_ & _ & -> & _). by rewrite <- !app_assoc.
Qed.

(** C7: a read that [json.Unmarshal] rejects, one with an event name the
    loop does not know, and an audio frame whose payload does not decode
    leave the state as it was (so no event either) and the loop goes on;
    after any number of them a stopped frame still yields AudioStopped,
    Disconnected and the teardown. *)
Theorem C7_malformed_skipped :
  (∀ data st, malformed Unmarshal DecodeString data = true →
     iteration (ReadMsg data) st = Ret Continue st)
  ∧ (∀ bads dstop rest evs K st,
       Forall (λ d, malformed Unmarshal DecodeString d = true) bads →
       frame_is Unmarshal "stop" dstop →
       ready evs K st → length evs + 2 ≤ K →
       readLoop ((ReadMsg <$> bads) ++ ReadMsg dstop :: rest) st
         = Ret tt (torn_down
                     (emitted [event EventAudioStopped; event EventDisconnected] st))).
Proof.
  split.
  - intros data st. apply iteration_malformed.
  - intros bads dstop rest evs K st Hbad Hstop Hr HK.
    rewrite (readLoop_malformed evs K) by done.
    by apply (readLoop_stop evs K).
Qed.

(** C8: on a connection that is open, a failed read makes the loop put
    an Error event with the cause on the event channel exactly when the
    failure is not a close error of code 1000 (normal closure) or 1001
    (going away), and the loop returns through the teardown either way; a
    stopped frame ends it with AudioStopped and Disconnected and no Error
    event. The same does not hold once [Close] was called while the loop
    waits in [ReadMessage]: [Close] closes the event channel before it
    closes the socket, so the failed read that follows finds the channel
    closed, and unless the failure is such a close error the send of the
    Error event panics and no Error event is emitted. *)
Theorem C8_read_failure_after_close_panics evs K st err rest :
  ready evs K st → length evs < K →
  let normal := ∃ text, err = CloseError 1000 text ∨ err = CloseError 1001 text in
  (normal → readLoop (ReadErr err :: rest) st = Ret tt (torn_down st))
  ∧ (¬ normal →
       readLoop (ReadErr err :: rest) st
       = Ret tt (torn_down (emitted [mkEvent EventError None (Some err)] st)))
  ∧ (∀ dstop, length evs + 2 ≤ K → frame_is Unmarshal "stop" dstop →
       readLoop (ReadMsg dstop :: rest) st
       = Ret tt (torn_down
           (emitted [event EventAudioStopped; event EventDisconnected] st)))
  ∧ (∀ es, Chan.buf (events (cs_conn (torn_down (emitted es st)))) = evs ++ es)
  ∧ Connection.Close st = Ret None (torn_down st)
  ∧ Chan.buf (events (cs_conn (torn_down st))) = evs
  ∧ (normal →
       (Connection.Close;; iteration (ReadErr err)) st = Ret Return (torn_down st))
  ∧ (¬ normal →
       (Connection.Close;; iteration (ReadErr err)) st = Panicked (torn_down st)).
Proof.
  intros Hr HK. cbv zeta.
  pose proof (IsCloseError_normal err) as Hn.
  assert (Connection.Close st = Ret None (torn_down st)) as Hclose.
  { destruct Hr as (Hl & Hmu & _). by apply Close_live. }
  assert (¬ (∃ text, err = CloseError 1000 text ∨ err = CloseError 1001 text) →
          IsCloseError err [CloseNormalClosure; CloseGoingAway] = false) as Hab.
  { intros Hnot. destruct (IsCloseError _ _); [|done]. destruct Hnot. by apply Hn. }
  split; [|split; [|split; [|split; [|split; [|split; [|split]]]]]].
  - intros Hnorm%Hn. rewrite (readLoop_cons _ _ _ evs K) by done.
    rewrite (iteration_error _ _ _ evs K) by done. rewrite Hnorm.
    by eapply Close_ready.
  - intros Hf%Hab. rewrite (readLoop_cons _ _ _ evs K) by done.
    rewrite (iteration_error _ _ _ evs K) by done. rewrite Hf.
    by eapply Close_ready, ready_emitted.
  - intros dstop HK2 Hstop. by apply (readLoop_stop evs K).
  - intros es. apply (ready_emitted _ _ es) in Hr.
    by destruct Hr as (_ & _ & <- & _).
  - done.
  - by destruct Hr as (_ & _ & <- & _).
  - intros Hnorm%Hn. unfold mbind, M_bind. rewrite Hclose.
    unfold Connection.iteration. by rewrite Hnorm.
  - intros Hf%Hab. unfold mbind at 1, M_bind at 1. rewrite Hclose.
    unfold Connection.iteration. rewrite Hf; simpl.
    unfold mbind, M_bind. by rewrite send_event_closed.
Qed.

End Calls.

(** ** Identity *)

Lemma keeps_ret {A} (a : A) : keeps_ids (mret a).
Proof. by intros st. Qed.

Lemma keeps_bind {A B} (m : M cstate A) (f : A → M cstate B) :
  keeps_ids m → (∀ a, keeps_ids (f a)) → keeps_ids (m ≫= f).
Proof.
  intros Hm Hf st. specialize (Hm st). unfold mbind, M_bind.
  destruct (m st) as [a st'| |]; simpl in *; [|done..].
  by rewrite Hf.
Qed.

Lemma keeps_modify (f : cstate → cstate) :
  (∀ st, ids (f st) = ids st) → keeps_ids (modify f).
Proof. intros Hf st. apply Hf. Qed.

Lemma keeps_get : keeps_ids get.
Proof. by intros st. Qed.

Lemma keeps_send_event e : keeps_ids (send_event e).
Proof. intros st. unfold send_event. by destruct (Chan.send _ _). Qed.

Lemma keeps_with_mu op wait : keeps_ids (with_mu op wait).
Proof. intros st. unfold with_mu. by destruct (op _), wait. Qed.

Lemma keeps_close_chan {A} (proj : Connection → Chan.chan A) upd :
  (∀ ch c, (streamSID (upd ch c), callSID (upd ch c)) = (streamSID c, callSID c)) →
  keeps_ids (close_chan proj upd).
Proof.
  intros Hupd st. unfold close_chan. destruct (Chan.close _); [|done].
  apply Hupd.
Qed.

Lemma keeps_zoom {T A} (proj : cstate → T) (upd : T → Connection → Connection)
    (m : M T A) :
  (∀ t c, (streamSID (upd t c), callSID (upd t c)) = (streamSID c, callSID c)) →
  keeps_ids (zoom proj (λ t, on_conn (upd t)) m).
Proof.
  intros Hupd st. unfold zoom. destruct (m _); apply Hupd.
Qed.

Ltac keeps :=
  repeat first
    [ apply keeps_ret | apply keeps_get | apply keeps_send_event
    | apply keeps_with_mu
    | apply keeps_bind; [|intros ?]
    | apply keeps_modify; by intros [[] ? ?]
    | apply keeps_close_chan; by intros ? []
    | apply keeps_zoom; by intros ? []
    | match goal with
      | |- keeps_ids (if ?b then _ else _) => destruct b
      | |- keeps_ids (match ?o with _ => _ end) => destruct o
      end ].

Lemma keeps_Close : keeps_ids Connection.Close.
Proof.
  unfold Connection.Close, Connection.teardown.
  apply keeps_bind; [keeps|]. intros st.
  destruct (closeOnce _); keeps.
Qed.

Lemma ids_iteration Unmarshal DecodeString this r st :
  ids (final (Connection.iteration Unmarshal DecodeString this r st))
  = match start_body Unmarshal r with
    | Some start => (start_StreamSID start, start_CallSID start)
    | None => ids st
    end.
Proof.
  destruct r as [data|err]; simpl.
  - destruct (Unmarshal data) as [msg|]; [|done].
    unfold Connection.dispatch.
    destruct (String.eqb_spec (msg_Event msg) "connected") as [->|_].
    { simpl. revert st. change (keeps_ids
        (send_event (event EventConnected);; mret Continue)). keeps. }
    destruct (String.eqb_spec (msg_Event msg) "start") as [_|_].
    { destruct (msg_Start msg) as [start|]; [|done].
      unfold mbind at 1, M_bind at 1. unfold modify at 1.
      match goal with |- ids (final (?m ?s)) = _ =>
        transitivity (ids s); [|by destruct st as [[] ? ?]];
        generalize s end.
      match goal with |- ∀ s, ids (final (?m s)) = _ =>
        change (keeps_ids m) end.
      keeps. }
    revert st.
    match goal with |- ∀ s, ids (final (?m s)) = _ => change (keeps_ids m) end.
    keeps.
  - revert st.
    match goal with |- ∀ s, ids (final (?m s)) = _ => change (keeps_ids m) end.
    destruct (negb _); keeps.
Qed.

(** C4, as the code has it: a new connection has both ids empty; a started
    frame that carries a start body sets both ids to the values of that
    frame, whatever they were before, and no other read changes them, nor
    does closing the connection. The ids are those of the latest started
    frame, not of the first. *)
Theorem C4_ids_follow_started_frames :
  (streamSID newConnection = "" ∧ callSID newConnection = "")
  ∧ (∀ Unmarshal DecodeString this r st,
       ids (final (Connection.iteration Unmarshal DecodeString this r st))
       = match start_body Unmarshal r with
         | Some start => (start_StreamSID start, start_CallSID start)
         | None => ids st
         end)
  ∧ (∀ st, ids (final (Connection.Close st)) = ids st).
Proof.
  split; [done|]. split; [apply ids_iteration | apply keeps_Close].
Qed.

(** C4 as claimed fails: a second started frame with other ids replaces
    the ids the first one bound. *)
Lemma C4_second_start_rebinds :
  let step := Connection.iteration peer_Unmarshal peer_DecodeString 0 in
  let st1 := final (step (ReadMsg "{start MZ1 CA1}") accepted) in
  let st2 := final (step (ReadMsg "{start MZ2 CA2}") st1) in
  ids accepted = ("", "") ∧ ids st1 = ("MZ1", "CA1") ∧ ids st2 = ("MZ2", "CA2")
  ∧ ¬ identity_write_once.
Proof.
  repeat split; try reflexivity.
  intros Hclaim.
  pose (step := Connection.iteration peer_Unmarshal peer_DecodeString 0).
  pose (st1 := final (step (ReadMsg "{start MZ1 CA1}") accepted)).
  pose (st2 := final (step (ReadMsg "{start MZ2 CA2}") st1)).
  assert (ids st2 = ("MZ1", "CA1")) as Hids.
  { apply (Hclaim peer_Unmarshal peer_DecodeString 0
             "{start MZ1 CA1}" "{start MZ2 CA2}"
             (mkStartMessage "MZ1" "AC1" "CA1" ["inbound"] no_format [])
             (mkStartMessage "MZ2" "AC1" "CA2" ["inbound"] no_format [])
             accepted st1 st2).
    - eexists. by repeat split.
    - eexists. by repeat split.
    - by vm_compute.
    - by vm_compute. }
  vm_compute in Hids. discriminate Hids.
Qed.

(** ** Closing, again and after *)

Lemma Close_spent (st : cstate) :
  closeOnce (cs_conn st) = true → Connection.Close st = Ret None st.
Proof.
  intros H. unfold Connection.Close, mbind, M_bind, get; simpl. by rewrite H.
Qed.




Lemma Read_closed (plen : nat) (r : audioReader) :
  Chan.closed (ar_ch r) = true →
  ∃ res r', audioReader.Read plen r = Ret res r'
            ∧ Chan.closed (ar_ch r') = true.
Proof.
  intros Hcl. unfold audioReader.Read, Chan.recv.
  destruct r as [[q C cl] b]; simpl in *; subst.
  destruct (0 <? length b); [by eexists _, _|].
  destruct q; by eexists _, _.
Qed.

Lemma reads_closed (sizes : list nat) (r : audioReader) :
  Chan.closed (ar_ch r) = true →
  length (reads sizes r).1 = length sizes
  ∧ Chan.closed (ar_ch (reads sizes r).2) = true.
Proof.
  revert r. induction sizes as [|n sizes IH]; intros r Hcl; [done|].
  simpl. destruct (Read_closed n r Hcl) as ([bs e] & r' & -> & Hcl').
  specialize (IH r' Hcl'). destruct (reads sizes r'); simpl in *.
  destruct IH as [-> ?]. done.
Qed.

Lemma Read_EOF (plen : nat) (r : audioReader) :
  Chan.closed (ar_ch r) = true → read_budget r = 0 →
  audioReader.Read plen r = Ret ([], Some EOF) r.
Proof.
  intros Hcl [Hb Hq]%read_budget_0. unfold audioReader.Read, Chan.recv.
  by rewrite Hb, Hq, Hcl.
Qed.

(** C6: once a connection is closed, every write to its outbound buffer
    returns 0 and [io.ErrClosedPipe]; no read from its inbound buffer waits,
    and when the reads have taken what was buffered (at once, if nothing
    was) every read returns [io.EOF]. *)
Theorem C6_use_after_close (st : cstate) :
  live (cs_conn st) = true → mu (cs_prov st) = Unlocked →
  let c := cs_conn (final (Connection.Close st)) in
  (∀ p, audioWriter.Write p (audioIn c) = Ret (0, Some ErrClosedPipe) (audioIn c))
  ∧ (∀ sizes, length (reads sizes (audioOut c)).1 = length sizes)
  ∧ (∀ sizes plen,
       Forall (λ n, 0 < n) sizes → read_budget (audioOut c) ≤ length sizes →
       audioReader.Read plen (reads sizes (audioOut c)).2
         = Ret ([], Some EOF) (reads sizes (audioOut c)).2)
  ∧ (ar_buffer (audioOut (cs_conn st)) = [] →
     Chan.buf (ar_ch (audioOut (cs_conn st))) = [] →
     ∀ plen, audioReader.Read plen (audioOut c) = Ret ([], Some EOF) (audioOut c)).
Proof.
  intros Hlive Hmu. rewrite Close_live by done. simpl.
  set (r := mkAudioReader _ _).
  assert (Chan.closed (ar_ch r) = true) as Hcl by done.
  split; [done|]. split; [|split].
  - intros sizes. by apply reads_closed.
  - intros sizes plen Hpos Hb. apply Read_EOF.
    + by apply reads_closed.
    + by apply reads_drain.
  - intros Hb Hq plen. apply Read_EOF; [done|].
    unfold read_budget. subst r; simpl. by rewrite Hb, Hq.
Qed.

(** ** Closing the provider *)

Lemma Close_blocks_when_locked (conn : Connection) (p : Provider) calls :
  live conn = true → mu p = WLocked →
  ∃ st', Connection.Close (mkCstate conn p calls) = Blocked st'.
Proof.
  intros (Honce & Hdone & _ & Hev & Hout & Hin)%live_inv Hmu.
  destruct conn as [i sid cid ws [eq ec ecl] [[wq wc wcl] wclosed]
                      [[rq rc rcl] rb] [dq dc dcl] cl once].
  destruct p as [acc tok m conns lst h].
  simpl in *. subst. destruct wcl; by eexists.
Qed.

Lemma close_connections_blocks (keys : list string) (w : World) (sid : string) :
  mu (w_prov w) = WLocked → tracked_ok w →
  (∀ k, k ∈ keys → is_Some (connections (w_prov w) !! k)) →
  sid ∈ keys → tracks_live w sid →
  ∃ w', Provider.close_connections keys w = Blocked w'.
Proof.
  intros Hmu Hok. induction keys as [|k keys IH]; intros Hkeys Hin Hlive.
  { by apply elem_of_nil in Hin. }
  simpl. unfold mbind at 1, M_bind at 1, get at 1.
  destruct (Hkeys k) as [c Hc]; [left|]. rewrite Hc.
  destruct (Hok k c Hc) as (conn & Hconn & [Hl|Hspent]).
  - unfold mbind, M_bind, at_conn, zoom. rewrite Hconn.
    destruct (Close_blocks_when_locked conn (w_prov w) (w_calls w) Hl Hmu)
      as (st' & ->). by eexists.
  - unfold mbind, M_bind, at_conn, zoom. rewrite Hconn.
    rewrite Close_spent by done. simpl.
    rewrite (insert_id _ _ _ Hconn).
    replace (mkWorld (w_prov w) (w_conns w) (w_chans w) (w_calls w)) with w
      by by destruct w.
    apply IH; [| |done].
    + intros k' Hk'. apply Hkeys. by right.
    + apply elem_of_cons in Hin as [->|Hin]; [|done].
      destruct Hlive as (c' & conn' & Hc' & Hconn' & Hl').
      rewrite Hc in Hc'. injection Hc' as <-. rewrite Hconn in Hconn'.
      injection Hconn' as <-. apply live_inv in Hl' as (Hf & _). congruence.
Qed.

(** [Provider.Close] holds the provider's mutex while it calls
    [Connection.Close], which takes the same mutex before it deregisters:
    with a live connection registered the call never returns. *)
Lemma Provider_Close_blocks (w : World) (sid : string) :
  mu (w_prov w) = Unlocked → tracked_ok w → tracks_live w sid →
  ∃ w', Provider.Close w = Blocked w'.
Proof.
  intros Hmu Hok Hlive. unfold Provider.Close.
  unfold mbind at 1, M_bind at 1, world_mu at 1. rewrite Hmu; simpl.
  unfold mbind at 1, M_bind at 1, get at 1.
  unfold mbind at 1, M_bind at 1.
  set (w1 := set_prov (set_mu WLocked) w).
  destruct (close_connections_blocks
              (map_to_list (connections (w_prov w1))).*1 w1 sid)
    as (w' & Hb).
  - by destruct w as [[] ? ? ?].
  - intros s c Hs. destruct w as [[] ? ? ?]. by apply (Hok s c).
  - intros k [[k' c] [-> Hkc]]%list_elem_of_fmap.
    apply elem_of_map_to_list in Hkc. by eexists.
  - destruct Hlive as (c & conn & Hc & _). apply list_elem_of_fmap.
    exists (sid, c). split; [done|]. apply elem_of_map_to_list.
    by destruct w as [[] ? ? ?].
  - destruct Hlive as (c & conn & Hc & Hconn & Hl). exists c, conn.
    by destruct w as [[] ? ? ?].
  - rewrite Hb. by eexists.
Qed.

Lemma Provider_Close_empty (w : World) :
  mu (w_prov w) = Unlocked → connections (w_prov w) = ∅ →
  listeners (w_prov w) = ∅ →
  Provider.Close w = Ret None w.
Proof.
  destruct w as [[acc tok m conns lst h] cs chs calls]; simpl.
  intros -> -> ->. unfold Provider.Close, mbind, M_bind; simpl.
  by rewrite !map_to_list_empty.
Qed.

(** With no connection registered the provider closes its listener's
    channel, empties its maps and returns; closing it again changes
    nothing. *)
Example Provider_Close_listening :
  let w := final (Provider.Listen "/media-stream" (Provider.New "AC1" "token")) in
  let w' := final (Provider.Close w) in
  returned (Provider.Close w) = true
  ∧ (Chan.closed <$> w_chans w' !! 0) = Some true
  ∧ connections (w_prov w') = ∅ ∧ listeners (w_prov w') = ∅
  ∧ Provider.Close w' = Ret None w'.
Proof.
  cbv zeta. split; [by vm_compute|]. split; [by vm_compute|].
  split; [by vm_compute|]. split; [by vm_compute|].
  apply Provider_Close_empty; by vm_compute.
Qed.

(** Once its connection has been closed by its own [Close], the same
    provider closes: the registry is empty by then. *)
Example Provider_Close_after_connection_closed :
  let w := final (at_conn 0 Connection.Close live_world) in
  let w' := final (Provider.Close w) in
  connections (w_prov w) = ∅
  ∧ Provider.Close w = Ret None w'
  ∧ (Chan.closed <$> w_chans w' !! 0) = Some true
  ∧ listeners (w_prov w') = ∅ ∧ mu (w_prov w') = Unlocked.
Proof.
  cbv zeta. split; [by vm_compute|]. split; [by vm_compute|].
  split; [by vm_compute|]. split; by vm_compute.
Qed.

(** C9: the registry's close is meant to tear down every tracked
    connection, close every listener queue and leave both maps empty. Run on
    a provider that tracks one live connection, [Provider.Close] takes the
    provider's mutex, calls the connection's [Close], and that call waits
    for the same mutex: the call never returns, the registry keeps its
    entry, the listener's channel stays open and the mutex stays held. *)
Theorem C9_registry_close_blocks_on_live_connection :
  mu (w_prov live_world) = Unlocked
  ∧ connections (w_prov live_world) !! "MZ1" = Some 0
  ∧ (live <$> w_conns live_world !! 0) = Some true
  ∧ ∃ w, Provider.Close live_world = Blocked w
         ∧ mu (w_prov w) = WLocked
         ∧ connections (w_prov w) !! "MZ1" = Some 0
         ∧ listeners (w_prov w) !! "/media-stream" = Some 0
         ∧ (Chan.closed <$> w_chans w !! 0) = Some false.
Proof.
  split; [by vm_compute|]. split; [by vm_compute|]. split; [by vm_compute|].
  eexists. split; [vm_compute; reflexivity|].
  split; [by vm_compute|]. split; [by vm_compute|].
  split; by vm_compute.
Qed.

(** ** The properties on the example peer *)

Lemma accepted_ready : ready [] 100 accepted.
Proof. by repeat split. Qed.

Lemma C1_witness :
  ∃ st',
    Connection.readLoop peer_Unmarshal peer_DecodeString 0
      ((ReadMsg <$> "{connected}" :: "{start MZ1 CA1}"
                    :: ["{media AQID}"; "{media !!!}"; "{media AQID}"]
                    ++ ["{dtmf 5}"; "{stop}"]) ++ []) accepted
      = Ret tt st'
    ∧ Chan.buf (events (cs_conn st')) = [] ++ call_events "5"
    ∧ Chan.closed (events (cs_conn st')) = true.
Proof.
  apply (C1_event_order peer_Unmarshal peer_DecodeString 0 [] 100 accepted
           "{connected}" "{start MZ1 CA1}"
           (mkStartMessage "MZ1" "AC1" "CA1" ["inbound"] no_format [])
           ["{media AQID}"; "{media !!!}"; "{media AQID}"]
           "{dtmf 5}" "5" "{stop}" []).
  - exact accepted_ready.
  - simpl; lia.
  - eexists; split; reflexivity.
  - eexists; repeat split; reflexivity.
  - repeat (apply Forall_cons_2; [eexists; split; reflexivity|]).
    apply Forall_nil_2.
  - eexists; repeat split; reflexivity.
  - eexists; split; reflexivity.
Defined.

Lemma C7_witness :
  Connection.iteration peer_Unmarshal peer_DecodeString 0
    (ReadMsg "{media !!!}") accepted = Ret Continue accepted
  ∧ Connection.readLoop peer_Unmarshal peer_DecodeString 0
      ((ReadMsg <$> ["]not json["; "{ping}"; "{media !!!}"])
       ++ ReadMsg "{stop}" :: []) accepted
    = Ret tt (torn_down
                (emitted [event EventAudioStopped; event EventDisconnected]
                   accepted)).
Proof.
  split.
  - apply (proj1 (C7_malformed_skipped peer_Unmarshal peer_DecodeString 0)).
    reflexivity.
  - apply (proj2 (C7_malformed_skipped peer_Unmarshal peer_DecodeString 0)
             ["]not json["; "{ping}"; "{media !!!}"] "{stop}" [] [] 100 accepted).
    + repeat (apply Forall_cons_2; [reflexivity|]). apply Forall_nil_2.
    + eexists; split; reflexivity.
    + exact accepted_ready.
    + simpl; lia.
Defined.

Lemma C8_witness :
  let gone := OtherError "use of closed network connection" in
  let bye := CloseError 1000 "" in
  Connection.readLoop peer_Unmarshal peer_DecodeString 0 [ReadErr gone] accepted
    = Ret tt (torn_down (emitted [mkEvent EventError None (Some gone)] accepted))
  ∧ Connection.readLoop peer_Unmarshal peer_DecodeString 0 [ReadErr bye] accepted
    = Ret tt (torn_down accepted)
  ∧ Connection.readLoop peer_Unmarshal peer_DecodeString 0 [ReadMsg "{stop}"] accepted
    = Ret tt (torn_down
        (emitted [event EventAudioStopped; event EventDisconnected] accepted))
  ∧ (Connection.Close;;
     Connection.iteration peer_Unmarshal peer_DecodeString 0 (ReadErr gone)) accepted
    = Panicked (torn_down accepted)
  ∧ Chan.buf (events (cs_conn (torn_down accepted))) = []
  ∧ (Connection.Close;;
     Connection.iteration peer_Unmarshal peer_DecodeString 0 (ReadErr bye)) accepted
    = Ret Return (torn_down accepted).
Proof.
  cbv zeta.
  destruct (C8_read_failure_after_close_panics peer_Unmarshal peer_DecodeString 0
              [] 100 accepted (OtherError "use of closed network connection") [])
    as (_ & Hev & Hstop & _ & _ & Hbuf & _ & Hpanic);
    [exact accepted_ready | simpl; lia |].
  destruct (C8_read_failure_after_close_panics peer_Unmarshal peer_DecodeString 0
              [] 100 accepted (CloseError 1000 "") [])
    as (Hquiet & _ & _ & _ & _ & _ & Hret & _);
    [exact accepted_ready | simpl; lia |].
  assert (¬ ∃ text, OtherError "use of closed network connection" = CloseError 1000 text
                    ∨ OtherError "use of closed network connection"
                      = CloseError 1001 text) as Hgone
    by (intros (? & [?|?]); discriminate).
  assert (∃ text, CloseError 1000 "" = CloseError 1000 text
                  ∨ CloseError 1000 "" = CloseError 1001 text) as Hbye
    by (exists ""; left; reflexivity).
  split; [exact (Hev Hgone)|]. split; [exact (Hquiet Hbye)|].
  split; [apply (Hstop "{stop}"); [simpl; lia|eexists; split; reflexivity]|].
  split; [exact (Hpanic Hgone)|]. split; [exact Hbuf|]. exact (Hret Hbye).
Defined.

(** A connection closed with three bytes of audio still buffered: writes
    fail, the reads take the three bytes and then report the end. *)
Lemma C6_witness :
  let c := cs_conn (final (Connection.Close listened)) in
  audioWriter.Write [x01; x02] (audioIn c) = Ret (0, Some ErrClosedPipe) (audioIn c)
  ∧ length (reads [2; 2; 2; 2] (audioOut c)).1 = 4
  ∧ audioReader.Read 2 (reads [2; 2; 2; 2] (audioOut c)).2
    = Ret ([], Some EOF) (reads [2; 2; 2; 2] (audioOut c)).2
  ∧ audioReader.Read 2 (audioOut (cs_conn (final (Connection.Close accepted))))
    = Ret ([], Some EOF) (audioOut (cs_conn (final (Connection.Close accepted)))).
Proof.
  cbv zeta.
  destruct (C6_use_after_close listened) as (H1 & H2 & H3 & _);
    [reflexivity | reflexivity |].
  destruct (C6_use_after_close accepted) as (_ & _ & _ & H4);
    [reflexivity | reflexivity |].
  split; [exact (H1 [x01; x02])|]. split; [exact (H2 [2; 2; 2; 2])|].
  split.
  - apply (H3 [2; 2; 2; 2] 2).
    + repeat (apply Forall_cons_2; [lia|]). apply Forall_nil_2.
    + vm_compute; lia.
  - apply (H4 eq_refl eq_refl 2).
Defined.

(** * Further properties of the transport *)

(** ** The receive loop on arbitrary input *)

Lemma good_ready st :
  good st ↔
  ready (Chan.buf (events (cs_conn st))) (Chan.cap (events (cs_conn st))) st.
Proof. unfold good, ready. tauto. Qed.

Lemma send_event_full e st :
  good st → events_full st → send_event e st = Blocked st.
Proof.
  intros [Hl Hmu] Hfull. crack st. apply live_inv in Hl.
  unfold events_full in Hfull. simpl in *. destruct Hl as (? & ? & ? & ? & ? & ?).
  subst. unfold send_event; simpl. by rewrite send_full.
Qed.

Lemma send_event_good e st :
  good st →
  match send_event e st with
  | Ret _ st' => st' = emitted [e] st ∧ good st' ∧ ¬ events_full st
  | Blocked st' => st' = st ∧ events_full st
  | Panicked _ => False
  end.
Proof.
  intros Hg. destruct (decide (events_full st)) as [Hfull|Hroom].
  - by rewrite send_event_full.
  - unfold events_full in Hroom.
    erewrite send_event_room; [|by apply good_ready|lia].
    split; [done|]. split; [|done].
    apply good_ready in Hg. apply (ready_emitted _ _ [e]) in Hg.
    by destruct Hg as (? & ? & _).
Qed.

Lemma good_bound this start st : good st → good (bound this start st).
Proof. intros [? ?]. by crack st. Qed.

Lemma good_called this digit st : good st → good (called this digit st).
Proof. intros [? ?]. unfold called. by destruct (dtmfHandler _). Qed.

Lemma good_audioOut r st :
  good st → Chan.closed (ar_ch r) = false →
  good (on_conn (set_audioOut r) st).
Proof.
  intros [Hl ?] Hr. crack st. split; [|done].
  apply live_inv in Hl. simpl in *. destruct Hl as (? & ? & ? & ? & ? & ?). subst.
  unfold live; simpl. rewrite Hr. simpl. by rewrite bool_decide_eq_true_2.
Qed.

Lemma write_deliver audio r :
  Chan.closed (ar_ch r) = false →
  audioReader.write audio r = Ret tt (deliver audio r)
  ∧ Chan.closed (ar_ch (deliver audio r)) = false.
Proof.
  intros Hcl. unfold audioReader.write, deliver, Chan.send. rewrite Hcl.
  destruct r as [[q C cl] b]; simpl in *. by destruct (_ <? _).
Qed.

Section Safety.

Context (Unmarshal : string → option mediaMessage).
Context (DecodeString : string → option bytes).
Context (this : connptr).

Local Abbreviation iteration := (Connection.iteration Unmarshal DecodeString this).
Local Abbreviation readLoop := (Connection.readLoop Unmarshal DecodeString this).

Lemma iteration_good r st :
  good st →
  match iteration r st with
  | Ret _ st' => good st'
  | Blocked st' => good st' ∧ events_full st'
  | Panicked _ => False
  end.
Proof.
  intros Hg. destruct r as [data|err]; simpl.
  - destruct (Unmarshal data) as [msg|]; [|done].
    unfold Connection.dispatch.
    destruct (msg_Event msg =? "connected")%string.
    { unfold mbind, M_bind. pose proof (send_event_good (event EventConnected) st Hg) as H.
      destruct (send_event _ st); simpl; [tauto| |done]. by destruct H as [-> ?]. }
    destruct (msg_Event msg =? "start")%string.
    { destruct (msg_Start msg) as [start|]; [|done].
      pose proof (good_bound this start st Hg) as Hb.
      pose proof (send_event_good (event EventAudioStarted) _ Hb) as H.
      assert ((modify (on_conn (set_ids (start_StreamSID start) (start_CallSID start)));;
               provider_Lock;;
               modify (λ st, on_prov (λ p, set_connections
                  (<[streamSID (cs_conn st) := this]> (connections p)) p) st);;
               provider_Unlock;;
               send_event (event EventAudioStarted);; mret Continue) st
              = (send_event (event EventAudioStarted);; mret Continue) (bound this start st))
        as ->.
      { destruct Hg as [_ Hmu]. crack st. simpl in Hmu. by subst. }
      unfold mbind, M_bind.
      destruct (send_event _ _); simpl; [tauto| |done]. by destruct H as [-> ?]. }
    destruct (msg_Event msg =? "media")%string.
    { destruct (msg_Media msg) as [media|]; [|done].
      destruct (negb _); [|done].
      destruct (DecodeString _) as [audio|]; [|done].
      assert (Chan.closed (ar_ch (audioOut (cs_conn st))) = false) as Hcl.
      { destruct Hg as [Hl _]. apply live_inv in Hl. tauto. }
      destruct (write_deliver audio _ Hcl) as [Hw Hcl'].
      unfold mbind, M_bind, zoom. rewrite Hw. simpl. by apply good_audioOut. }
    destruct (msg_Event msg =? "dtmf")%string.
    { destruct (msg_DTMF msg) as [dtmf|]; [|done].
      pose proof (send_event_good (mkEvent EventDTMF (Some (dtmf_Digit dtmf)) None) st Hg) as H.
      unfold mbind at 1, M_bind at 1.
      destruct (send_event _ st) as [[] st1|st1|]; [| |done].
      - destruct H as (-> & Hg1 & _).
        pose proof (good_called this (dtmf_Digit dtmf) _ Hg1) as Hc.
        destruct Hg1 as [_ Hmu]. unfold called in Hc.
        remember (emitted _ st) as st1. clear Heqst1. crack st1. simpl in *. subst.
        unfold mbind, M_bind; simpl. by destruct hdl.
      - by destruct H as [-> ?]. }
    destruct (msg_Event msg =? "stop")%string.
    { pose proof (send_event_good (event EventAudioStopped) st Hg) as H.
      unfold mbind at 1, M_bind at 1.
      destruct (send_event _ st) as [[] st1|st1|]; [| |done].
      - destruct H as (-> & Hg1 & _).
        pose proof (send_event_good (event EventDisconnected) _ Hg1) as H.
        unfold mbind, M_bind.
        destruct (send_event _ (emitted _ st)); simpl; [tauto| |done].
        by destruct H as [-> ?].
      - by destruct H as [-> ?]. }
    by destruct (msg_Event msg =? "mark")%string.
  - destruct (negb _); simpl; [|done].
    unfold mbind, M_bind.
    pose proof (send_event_good (mkEvent EventError None (Some err)) st Hg) as H.
    destruct (send_event _ st); simpl; [tauto| |done]. by destruct H as [-> ?].
Qed.

End Safety.

Section Loop.

Context (Unmarshal : string → option mediaMessage).
Context (DecodeString : string → option bytes).
Context (this : connptr).

Local Abbreviation iteration := (Connection.iteration Unmarshal DecodeString this).
Local Abbreviation readLoop := (Connection.readLoop Unmarshal DecodeString this).

Lemma readLoop_spent script st :
  closeOnce (cs_conn st) = true →
  Chan.closed (done (cs_conn st)) = true → Chan.buf (done (cs_conn st)) = [] →
  readLoop script st = Ret tt st.
Proof.
  intros Honce Hcl Hbuf.
  assert (Chan.recv (done (cs_conn st)) = Chan.RecvClosed) as Hrecv
    by (unfold Chan.recv; by rewrite Hbuf, Hcl).
  destruct script; simpl; rewrite Hrecv; unfold mbind, M_bind;
    by rewrite Close_spent.
Qed.

Lemma readLoop_torn_down script st :
  good st → readLoop script (torn_down st) = Ret tt (torn_down st).
Proof.
  intros [Hl _]. apply live_inv in Hl as (_ & _ & Hbuf & _).
  by apply readLoop_spent.
Qed.

Lemma readLoop_alone script st :
  good st →
  match readLoop script st with
  | Ret _ st' =>
      (∃ st0, good st0 ∧ st' = torn_down st0)
      ∧ closeOnce (cs_conn st') = true
      ∧ connections (cs_prov st') !! streamSID (cs_conn st') = None
      ∧ mu (cs_prov st') = Unlocked
      ∧ ∀ script', readLoop script' st' = Ret tt st'
  | Blocked st' => good st'
  | Panicked _ => False
  end.
Proof.
  revert st. induction script as [|r script IH]; intros st Hg.
  - rewrite good_ready in Hg. pose proof Hg as Hr.
    crack st. use_ready Hg. simpl.
    by apply good_ready in Hr.
  - rewrite (readLoop_cons _ _ _ _ _ _ _ _ (proj1 (good_ready st) Hg)).
    pose proof (iteration_good Unmarshal DecodeString this r st Hg) as Hit.
    destruct (iteration r st) as [[] st1|st1|st1]; [by apply IH| |tauto|done].
    unfold mbind, M_bind. destruct Hit as [Hl Hmu].
    rewrite Close_live by done. simpl.
    split; [by exists st1|]. split; [done|].
    split; [apply lookup_delete_eq|]. split; [by crack st1|].
    intros script'. by apply (readLoop_torn_down script' st1).
Qed.

(** A turn of the loop whose read arrives after [Close] ran. *)
Lemma iteration_after_Close r st :
  good st →
  (Connection.Close;; iteration r) st
  = if sends_event Unmarshal r
       || bool_decide (is_Some (audio_of Unmarshal DecodeString r))
    then Panicked (torn_down st)
    else match start_body Unmarshal r with
         | Some start => Panicked (bound this start (torn_down st))
         | None =>
             Ret (match r with ReadErr _ => Return | ReadMsg _ => Continue end)
                 (torn_down st)
         end.
Proof.
  intros [Hl Hmu]. unfold mbind at 1, M_bind at 1. rewrite Close_live by done.
  destruct r as [data|err]; simpl.
  2:{ destruct (IsCloseError _ _); simpl; [done|].
      unfold mbind, M_bind. by rewrite send_event_closed. }
  destruct (Unmarshal data) as [msg|]; [|done].
  unfold Connection.dispatch.
  destruct msg as [e sid start media mark stop dtmf]; simpl.
  repeat match goal with
         | |- context [String.eqb e ?s] =>
             destruct (String.eqb_spec e s) as [->|?]; simpl
         end.
  - unfold mbind, M_bind. by rewrite send_event_closed.
  - destruct start as [start|]; [|done].
    crack st. simpl in Hmu. subst.
    unfold mbind, M_bind, send_event; simpl. done.
  - destruct media as [media|]; [|done].
    destruct (media_Payload media =? "")%string; simpl; [done|].
    destruct (DecodeString _) as [audio|]; simpl; [|done].
    crack st. by unfold mbind, M_bind, zoom.
  - destruct dtmf as [dtmf|]; simpl; [|done].
    unfold mbind, M_bind. by rewrite send_event_closed.
  - unfold mbind, M_bind. by rewrite send_event_closed.
  - done.
  - done.
Qed.

(** X1: run with no other goroutine closing the connection, the receive
    loop of a live connection never panics, whatever the socket delivers.
    It either waits, with the connection still live (the socket is silent
    or the event channel is full), or returns with the connection torn
    down: closed, deregistered under its stream id, the provider's mutex
    free; run again after it returned, it returns at once and changes
    nothing. Beside another goroutine it does panic: when [Close] is
    called while the loop waits in [ReadMessage] (the application may do
    so, and [Call.Hangup] and [Provider.Close] do), the turn that follows
    finds the channels closed and panics on every read that makes it send
    an event or deliver audio: a failed read other than a normal closure, a
    connected, DTMF or stopped frame, an audio frame, and a started frame
    after it bound and registered the closed connection again. Only a
    normal-closure error and the frames the loop skips let it return. *)
Theorem X1_readLoop_panics_only_beside_Close script r st :
  good st →
  match readLoop script st with
  | Ret _ st' =>
      (∃ st0, good st0 ∧ st' = torn_down st0)
      ∧ closeOnce (cs_conn st') = true
      ∧ connections (cs_prov st') !! streamSID (cs_conn st') = None
      ∧ mu (cs_prov st') = Unlocked
      ∧ ∀ script', readLoop script' st' = Ret tt st'
  | Blocked st' => good st'
  | Panicked _ => False
  end
  ∧ (Connection.Close;; iteration r) st
    = (if sends_event Unmarshal r
          || bool_decide (is_Some (audio_of Unmarshal DecodeString r))
       then Panicked (torn_down st)
       else match start_body Unmarshal r with
            | Some start => Panicked (bound this start (torn_down st))
            | None =>
                Ret (match r with ReadErr _ => Return | ReadMsg _ => Continue end)
                    (torn_down st)
            end)
  ∧ readLoop script (torn_down st) = Ret tt (torn_down st).
Proof.
  intros Hg. split; [by apply readLoop_alone|].
  split; [by apply iteration_after_Close|]. by apply readLoop_torn_down.
Qed.


(** X2: frames whose case finds nothing to do are skipped without any
    effect: a started frame with no start body, a media frame with no media
    body or an empty payload, a DTMF frame with no body, and every mark
    frame leave the state as it was and the loop goes on. *)
Theorem X2_hollow_frames_ignored data st :
  hollow Unmarshal data = true →
  iteration (ReadMsg data) st = Ret Continue st.
Proof.
  unfold hollow, Connection.iteration. intros H.
  destruct (Unmarshal data) as [msg|]; [|done].
  unfold Connection.dispatch.
  destruct msg as [e sid start media mark stop dtmf]; simpl in *.
  repeat match goal with
         | |- context [String.eqb e ?s] =>
             destruct (String.eqb_spec e s) as [->|?]; simpl in H; try done
         end.
  - destruct start; [exfalso|done]. rewrite !orb_false_r in H.
    apply negb_true_iff, bool_decide_eq_false in H. apply H. by eexists.
  - destruct media as [media|]; [|done]. rewrite !orb_false_r in H.
    by rewrite H.
  - destruct dtmf; [exfalso|done]. rewrite !orb_false_r in H.
    apply negb_true_iff, bool_decide_eq_false in H. apply H. by eexists.
Qed.

Lemma iteration_audio r st :
  good st →
  match audio_of Unmarshal DecodeString r with
  | Some audio =>
      iteration r st
      = Ret Continue (on_conn (set_audioOut (deliver audio (audioOut (cs_conn st)))) st)
  | None => audioOut (cs_conn (final (iteration r st))) = audioOut (cs_conn st)
  end.
Proof.
  intros Hg. destruct r as [data|err]; simpl.
  2:{ destruct (negb _); simpl; [|done]. unfold mbind, M_bind, send_event.
      by destruct (Chan.send _ _). }
  destruct (Unmarshal data) as [msg|]; [|done].
  unfold Connection.dispatch.
  destruct (String.eqb_spec (msg_Event msg) "connected") as [He|_].
  { rewrite He; simpl. unfold mbind, M_bind, send_event.
    by destruct (Chan.send _ _). }
  destruct (String.eqb_spec (msg_Event msg) "start") as [He|_].
  { rewrite He; simpl. destruct (msg_Start msg); [|done].
    destruct Hg as [_ Hmu]. crack st. simpl in Hmu. subst.
    unfold mbind, M_bind, send_event; simpl.
    by destruct (Chan.send _ _). }
  destruct (String.eqb_spec (msg_Event msg) "media") as [_|_].
  { destruct (msg_Media msg) as [media|]; [|done].
    destruct (media_Payload media =? "")%string; simpl; [done|].
    destruct (DecodeString _) as [audio|]; [|done].
    assert (Chan.closed (ar_ch (audioOut (cs_conn st))) = false) as Hcl.
    { destruct Hg as [Hl _]. apply live_inv in Hl. tauto. }
    destruct (write_deliver audio _ Hcl) as [Hw _].
    unfold mbind, M_bind, zoom. by rewrite Hw. }
  destruct (String.eqb_spec (msg_Event msg) "dtmf") as [_|_].
  { destruct (msg_DTMF msg); [|done].
    destruct Hg as [_ Hmu]. crack st. simpl in Hmu. subst.
    unfold mbind, M_bind, send_event, get; simpl.
    destruct (Chan.send _ _); simpl; [|done..].
    by destruct hdl. }
  destruct (String.eqb_spec (msg_Event msg) "stop") as [_|_].
  { crack st. unfold mbind, M_bind, send_event; simpl.
    destruct (Chan.send _ _) as [ch'| |]; simpl; [|done..].
    by destruct (Chan.send ch' _). }
  by destruct (msg_Event msg =? "mark")%string.
Qed.

(** X3: a media frame with a decodable payload hands its audio to the
    inbound buffer and does nothing else; the buffer takes it when it has
    room and drops it otherwise. Any other read leaves the inbound buffer
    alone. *)
Theorem X3_media_delivers_audio r st :
  good st →
  match audio_of Unmarshal DecodeString r with
  | Some audio =>
      iteration r st
      = Ret Continue (on_conn (set_audioOut (deliver audio (audioOut (cs_conn st)))) st)
  | None => audioOut (cs_conn (final (iteration r st))) = audioOut (cs_conn st)
  end.
Proof. apply iteration_audio. Qed.


End Loop.

Lemma X1_witness :
  match Connection.readLoop peer_Unmarshal peer_DecodeString 0
          [ReadMsg "{connected}"; ReadMsg "]not json["; ReadMsg "{start MZ1 CA1}";
           ReadMsg "{stop}"; ReadMsg "{ping}"] accepted with
  | Ret _ st' =>
      (∃ st0, good st0 ∧ st' = torn_down st0)
      ∧ closeOnce (cs_conn st') = true
      ∧ connections (cs_prov st') !! streamSID (cs_conn st') = None
      ∧ mu (cs_prov st') = Unlocked
      ∧ ∀ script',
          Connection.readLoop peer_Unmarshal peer_DecodeString 0 script' st'
          = Ret tt st'
  | Blocked st' => good st'
  | Panicked _ => False
  end
  ∧ (Connection.Close;;
     Connection.iteration peer_Unmarshal peer_DecodeString 0 (ReadMsg "{media AQID}"))
      accepted
    = Panicked (torn_down accepted)
  ∧ (Connection.Close;;
     Connection.iteration peer_Unmarshal peer_DecodeString 0 (ReadMsg "{ping}"))
      accepted
    = Ret Continue (torn_down accepted).
Proof.
  destruct (X1_readLoop_panics_only_beside_Close peer_Unmarshal peer_DecodeString 0
              [ReadMsg "{connected}"; ReadMsg "]not json["; ReadMsg "{start MZ1 CA1}";
               ReadMsg "{stop}"; ReadMsg "{ping}"] (ReadMsg "{media AQID}") accepted)
    as (Halone & Hmedia & _); [split; reflexivity|].
  destruct (X1_readLoop_panics_only_beside_Close peer_Unmarshal peer_DecodeString 0
              [] (ReadMsg "{ping}") accepted)
    as (_ & Hping & _); [split; reflexivity|].
  split; [exact Halone|]. split; [exact Hmedia|exact Hping].
Defined.

Lemma X3_witness :
  Connection.iteration peer_Unmarshal peer_DecodeString 0
    (ReadMsg "{media AQID}") accepted
  = Ret Continue
      (on_conn (set_audioOut (deliver [x01; x02; x03] (audioOut (cs_conn accepted))))
         accepted)
  ∧ audioOut (cs_conn (final (Connection.iteration peer_Unmarshal peer_DecodeString 0
                                (ReadMsg "{dtmf 5}") accepted)))
    = audioOut (cs_conn accepted).
Proof.
  split.
  - apply (X3_media_delivers_audio peer_Unmarshal peer_DecodeString 0 (ReadMsg "{media AQID}") accepted).
    split; reflexivity.
  - apply (X3_media_delivers_audio peer_Unmarshal peer_DecodeString 0 (ReadMsg "{dtmf 5}") accepted).
    split; reflexivity.
Defined.

(** ** Audio in, events and the handler *)

Lemma deliver_all (audios : list bytes) (r : audioReader) :
  let r' := foldl (λ r a, deliver a r) r audios in
  Chan.buf (ar_ch r')
  = Chan.buf (ar_ch r) ++ take (Chan.cap (ar_ch r) - length (Chan.buf (ar_ch r))) audios
  ∧ Chan.cap (ar_ch r') = Chan.cap (ar_ch r)
  ∧ Chan.closed (ar_ch r') = Chan.closed (ar_ch r)
  ∧ ar_buffer r' = ar_buffer r.
Proof.
  revert r. induction audios as [|a audios IH]; intros r; simpl.
  - by rewrite take_nil, app_nil_r.
  - destruct (IH (deliver a r)) as (Hb & Hc & Hcl & Hbuf).
    rewrite Hb, Hc, Hcl, Hbuf. unfold deliver.
    destruct r as [[q C cl] b]; simpl.
    destruct (Nat.ltb_spec (length q) C); simpl.
    + rewrite length_app; simpl.
      replace (C - length q) with (S (C - (length q + 1))) by lia.
      simpl. by rewrite <- app_assoc.
    + by replace (C - length q) with 0 by lia.
Qed.

Section Audio.

Context (Unmarshal : string → option mediaMessage).
Context (DecodeString : string → option bytes).
Context (this : connptr).

Local Abbreviation iteration := (Connection.iteration Unmarshal DecodeString this).
Local Abbreviation readLoop := (Connection.readLoop Unmarshal DecodeString this).

Lemma readLoop_audio rs audios st :
  good st →
  Forall2 (λ r a, audio_of Unmarshal DecodeString r = Some a) rs audios →
  let st' := on_conn (set_audioOut
               (foldl (λ r a, deliver a r) (audioOut (cs_conn st)) audios)) st in
  good st' ∧ ∀ rest, readLoop (rs ++ rest) st = readLoop rest st'.
Proof.
  intros Hg Hall. revert st Hg.
  induction Hall as [|r a rs audios Ha _ IH]; intros st Hg; cbn [foldl].
  - split; [by crack st|]. intros rest. by crack st.
  - pose proof (iteration_audio Unmarshal DecodeString this r st Hg) as Hit.
    rewrite Ha in Hit.
    pose proof (iteration_good Unmarshal DecodeString this r st Hg) as Hg1.
    rewrite Hit in Hg1.
    destruct (IH _ Hg1) as [Hg' Hrest].
    split.
    + by crack st.
    + intros rest. rewrite <- app_comm_cons.
      rewrite (readLoop_cons _ _ _ _ _ _ _ _ (proj1 (good_ready st) Hg)), Hit.
      rewrite Hrest. by crack st.
Qed.

(** X4: audio frames reach the application in order and byte for byte.
    After media frames with decodable payloads the inbound queue holds what
    it held, followed by as many of the decoded chunks as it had room for
    (the later ones are dropped); no event is queued for them; and reads
    with destinations of at least one byte then return, in enough reads,
    exactly the bytes that were pending followed by those chunks. *)
Theorem X4_audio_frames_reach_reader rs audios st :
  good st →
  Forall2 (λ r a, audio_of Unmarshal DecodeString r = Some a) rs audios →
  ∃ st',
    (∀ rest, readLoop (rs ++ rest) st = readLoop rest st')
    ∧ good st'
    ∧ events (cs_conn st') = events (cs_conn st)
    ∧ inbound st'
      = inbound st
        ++ take (Chan.cap (ar_ch (audioOut (cs_conn st))) - length (inbound st)) audios
    ∧ ∀ sizes,
        Forall (λ n, 0 < n) sizes →
        read_budget (audioOut (cs_conn st')) ≤ length sizes →
        concat (reads sizes (audioOut (cs_conn st'))).1
        = pending (audioOut (cs_conn st))
          ++ concat (take (Chan.cap (ar_ch (audioOut (cs_conn st)))
                           - length (inbound st)) audios).
Proof.
  intros Hg Hall.
  destruct (readLoop_audio rs audios st Hg Hall) as [Hg' Hrest].
  eexists. split; [exact Hrest|]. split; [exact Hg'|].
  destruct (deliver_all audios (audioOut (cs_conn st))) as (Hb & Hc & Hcl & Hbuf).
  split; [by crack st|]. split; [by crack st|].
  intros sizes Hpos Hbudget. rewrite reads_all by done.
  unfold pending. crack st. simpl in *. rewrite Hb, Hbuf.
  by rewrite concat_app, app_assoc.
Qed.

Lemma calls_iteration r st :
  good st → ¬ events_full st →
  cs_calls (final (iteration r st))
  = cs_calls st
    ++ match digit_of Unmarshal r, dtmfHandler (cs_prov st) with
       | Some digit, Some f => [(f, this, digit)]
       | _, _ => []
       end.
Proof.
  intros Hg Hroom.
  assert (∀ e, send_event e st = Ret tt (emitted [e] st)) as Hsend.
  { intros e. eapply send_event_room; [by apply good_ready|].
    unfold events_full in Hroom. lia. }
  destruct r as [data|err]; simpl.
  2:{ destruct (negb _); simpl; [|by rewrite app_nil_r].
      unfold mbind, M_bind. rewrite Hsend. simpl. by rewrite app_nil_r. }
  destruct (Unmarshal data) as [msg|]; [|by rewrite app_nil_r].
  unfold Connection.dispatch.
  destruct (String.eqb_spec (msg_Event msg) "connected") as [He|_].
  { rewrite He; simpl. unfold mbind, M_bind. rewrite Hsend. simpl.
    by rewrite app_nil_r. }
  destruct (String.eqb_spec (msg_Event msg) "start") as [He|_].
  { rewrite He; simpl. destruct (msg_Start msg); [|by rewrite app_nil_r].
    destruct Hg as [_ Hmu]. crack st. simpl in Hmu. subst.
    unfold mbind, M_bind, send_event; simpl.
    destruct (Chan.send _ _); simpl; by rewrite app_nil_r. }
  destruct (String.eqb_spec (msg_Event msg) "media") as [He|_].
  { rewrite He; simpl. destruct (msg_Media msg) as [media|]; [|by rewrite app_nil_r].
    destruct (negb _); [|by rewrite app_nil_r].
    destruct (DecodeString _) as [audio|]; [|by rewrite app_nil_r].
    assert (Chan.closed (ar_ch (audioOut (cs_conn st))) = false) as Hcl.
    { destruct Hg as [Hl _]. apply live_inv in Hl. tauto. }
    destruct (write_deliver audio _ Hcl) as [Hw _].
    unfold mbind, M_bind, zoom. rewrite Hw. simpl. by rewrite app_nil_r. }
  destruct (String.eqb_spec (msg_Event msg) "dtmf") as [_|_].
  { destruct (msg_DTMF msg) as [dtmf|]; simpl; [|by rewrite app_nil_r].
    unfold mbind at 1, M_bind at 1. rewrite Hsend.
    destruct Hg as [_ Hmu]. crack st. simpl in Hmu. subst.
    unfold mbind, M_bind, get; simpl.
    destruct hdl; simpl; [done|by rewrite app_nil_r]. }
  destruct (String.eqb_spec (msg_Event msg) "stop") as [He|_].
  { unfold mbind at 1, M_bind at 1. rewrite Hsend.
    unfold mbind, M_bind, send_event.
    destruct (Chan.send _ _); simpl; by rewrite app_nil_r. }
  destruct (msg_Event msg =? "mark")%string; simpl; by rewrite app_nil_r.
Qed.

(** X5: a DTMF frame with a body makes the loop call the registered
    handler exactly once, with this connection and the frame's digit, and
    the DTMF event is queued as well; with no handler registered, and on
    every other read, no handler is called. *)
Theorem X5_dtmf_handler_called_once r st :
  good st → ¬ events_full st →
  cs_calls (final (iteration r st))
  = cs_calls st
    ++ match digit_of Unmarshal r, dtmfHandler (cs_prov st) with
       | Some digit, Some f => [(f, this, digit)]
       | _, _ => []
       end
  ∧ (∀ digit, digit_of Unmarshal r = Some digit →
       Chan.buf (events (cs_conn (final (iteration r st))))
       = Chan.buf (events (cs_conn st)) ++ [mkEvent EventDTMF (Some digit) None]).
Proof.
  intros Hg Hroom. split; [by apply calls_iteration|].
  intros digit Hd. destruct r as [data|err]; [|done]. simpl in *.
  destruct (Unmarshal data) as [msg|] eqn:HU; [|done].
  destruct (String.eqb_spec (msg_Event msg) "dtmf") as [He|_]; [|done].
  destruct (msg_DTMF msg) as [[digit']|] eqn:HD; [|done].
  injection Hd as ->.
  pose proof (iteration_dtmf Unmarshal DecodeString this
                (Chan.buf (events (cs_conn st))) (Chan.cap (events (cs_conn st)))
                data digit st) as Hit.
  unfold Connection.iteration in Hit. rewrite HU in Hit.
  rewrite Hit.
  - unfold called. destruct (dtmfHandler _); by crack st.
  - by apply good_ready.
  - unfold events_full in Hroom. lia.
  - by exists msg.
Qed.

(** X6: [Close] deregisters the connection under the stream id it has at
    that moment only. After two started frames with different stream ids
    the entry made for the first id is still in the registry when the loop
    has returned and the connection is closed. *)
Theorem X6_rebound_connection_leaves_stale_entry d1 d2 s1 s2 r rest st :
  good st →
  length (Chan.buf (events (cs_conn st))) + 4 ≤ Chan.cap (events (cs_conn st)) →
  start_frame Unmarshal d1 s1 → start_frame Unmarshal d2 s2 →
  start_StreamSID s1 ≠ start_StreamSID s2 →
  r = ReadErr (CloseError CloseNormalClosure "") ∨ (∃ d, r = ReadMsg d ∧ frame_is Unmarshal "stop" d) →
  ∃ st', readLoop (ReadMsg d1 :: ReadMsg d2 :: r :: rest) st = Ret tt st'
    ∧ closeOnce (cs_conn st') = true
    ∧ connections (cs_prov st') !! start_StreamSID s1 = Some this
    ∧ connections (cs_prov st') !! start_StreamSID s2 = None.
Proof.
  intros Hg HK H1 H2 Hne Hr.
  apply good_ready in Hg.
  set (evs := Chan.buf (events (cs_conn st))) in *.
  set (K := Chan.cap (events (cs_conn st))) in *.
  rewrite (readLoop_cons _ _ _ evs K) by done.
  rewrite (iteration_start _ _ _ evs K _ s1) by (done || lia).
  apply (ready_bound _ _ this s1), (ready_emitted _ _ [event EventAudioStarted]) in Hg.
  rewrite (readLoop_cons _ _ _ _ K) by done.
  rewrite (iteration_start _ _ _ _ K _ s2)
    by (done || rewrite length_app; simpl; lia).
  apply (ready_bound _ _ this s2), (ready_emitted _ _ [event EventAudioStarted]) in Hg.
  assert (∀ st2, ready ((evs ++ [event EventAudioStarted]) ++ [event EventAudioStarted]) K st2 →
    streamSID (cs_conn st2) = start_StreamSID s2 →
    connections (cs_prov st2) !! start_StreamSID s1 = Some this →
    ∃ st', readLoop (r :: rest) st2 = Ret tt st'
      ∧ closeOnce (cs_conn st') = true
      ∧ connections (cs_prov st') !! start_StreamSID s1 = Some this
      ∧ connections (cs_prov st') !! start_StreamSID s2 = None) as Hend.
  { intros st2 Hr2 Hsid Hreg. destruct Hr as [->|(d & -> & Hstop)].
    - rewrite (readLoop_cons _ _ _ _ K) by done.
      rewrite (iteration_error _ _ _ _ K) by (done || rewrite !length_app; simpl; lia).
      simpl. erewrite Close_ready by done.
      eexists. split; [done|]. split; [done|]. simpl. rewrite Hsid.
      split; [by rewrite lookup_delete_ne|apply lookup_delete_eq].
    - erewrite readLoop_stop;
        [|exact Hr2|rewrite !length_app; simpl; lia|done].
      eexists. split; [done|]. split; [done|].
      replace (streamSID (cs_conn (torn_down
                 (emitted [event EventAudioStopped; event EventDisconnected] st2))))
        with (start_StreamSID s2) by (by crack st2).
      assert (connections (cs_prov (torn_down
                (emitted [event EventAudioStopped; event EventDisconnected] st2)))
              = delete (start_StreamSID s2) (connections (cs_prov st2))) as ->
        by (crack st2; simpl in *; by subst).
      split; [by rewrite lookup_delete_ne|apply lookup_delete_eq]. }
  apply Hend; [done|by crack st|].
  crack st. simpl. rewrite lookup_insert_ne by done. apply lookup_insert_eq.
Qed.

(** X7: the loop sends its events with blocking sends. While the event
    channel is full, a read that has an event to announce (a connected,
    stopped or DTMF frame, an abnormal read failure) stops the loop in that
    send with the state untouched; in particular a stopped frame or a
    socket error does not close the connection until a consumer takes an
    event. A started frame waits as well, its ids already bound and
    registered. *)
Theorem X7_full_event_channel_stalls_loop r rest st :
  good st → events_full st →
  (sends_event Unmarshal r = true → readLoop (r :: rest) st = Blocked st)
  ∧ (∀ start, start_body Unmarshal r = Some start →
       readLoop (r :: rest) st = Blocked (bound this start st)).
Proof.
  intros Hg Hfull.
  rewrite (readLoop_cons _ _ _ _ _ _ _ _ (proj1 (good_ready st) Hg)).
  split.
  - intros Hs. destruct r as [data|err]; simpl in *.
    + destruct (Unmarshal data) as [msg|]; [|done].
      unfold Connection.dispatch.
      destruct (String.eqb_spec (msg_Event msg) "connected") as [He|_].
      { unfold mbind, M_bind. by rewrite send_event_full. }
      destruct (String.eqb_spec (msg_Event msg) "start") as [He|_].
      { by rewrite He in Hs. }
      destruct (String.eqb_spec (msg_Event msg) "media") as [He|_].
      { by rewrite He in Hs. }
      destruct (String.eqb_spec (msg_Event msg) "dtmf") as [He|_].
      { rewrite He in Hs. simpl in Hs.
        destruct (msg_DTMF msg); [|done].
        unfold mbind, M_bind. by rewrite send_event_full. }
      destruct (String.eqb_spec (msg_Event msg) "stop") as [He|_]; [|done].
      unfold mbind, M_bind. by rewrite send_event_full.
    + rewrite Hs. simpl. unfold mbind, M_bind. by rewrite send_event_full.
  - intros start Hs. destruct r as [data|err]; [|done]. simpl in *.
    destruct (Unmarshal data) as [msg|]; [|done].
    unfold Connection.dispatch.
    destruct (String.eqb_spec (msg_Event msg) "connected") as [He|_].
    { by rewrite He in Hs. }
    destruct (String.eqb_spec (msg_Event msg) "start") as [He|_]; [|done].
    rewrite Hs.
    assert ((modify (on_conn (set_ids (start_StreamSID start) (start_CallSID start)));;
             provider_Lock;;
             modify (λ st, on_prov (λ p, set_connections
                (<[streamSID (cs_conn st) := this]> (connections p)) p) st);;
             provider_Unlock;;
             send_event (event EventAudioStarted);; mret Continue) st
            = (send_event (event EventAudioStarted);; mret Continue) (bound this start st))
      as ->.
    { destruct Hg as [_ Hmu]. crack st. simpl in Hmu. by subst. }
    unfold mbind, M_bind.
    rewrite send_event_full; [done|by apply good_bound|by crack st].
Qed.

End Audio.

(** ** The send loop *)

Ltac crack_sock s :=
  let st := fresh "st" in let sent := fresh "sent" in
  destruct s as [st sent]; crack st.

Section Send.

Context (EncodeToString : bytes → string).

Local Abbreviation turn := (SendLoop.turn EncodeToString).
Local Abbreviation writeLoop := (SendLoop.writeLoop EncodeToString).
Local Abbreviation frames := (frames_of EncodeToString).

Lemma sending_set_outbound q s : sending s → sending (set_outbound q s).
Proof.
  intros [Hl Hc]. crack_sock s. split; [|done].
  apply live_inv in Hl. simpl in *. destruct Hl as (? & ? & ? & ? & ? & ?). subst.
  unfold live; simpl. by rewrite bool_decide_eq_true_2.
Qed.

Lemma sending_add_sent l s : sending s → sending (add_sent l s).
Proof. by intros [? ?]. Qed.

Lemma turn_chunk pick answer a q s :
  sending s → outbound s = a :: q →
  turn pick answer s
  = match answer with
    | None => Ret Continue (add_sent [frame_of EncodeToString s a] (set_outbound q s))
    | Some _ => Ret Return (set_outbound q s)
    end.
Proof.
  intros [Hl Hc] Hq. crack_sock s. apply live_inv in Hl.
  unfold outbound in Hq. simpl in *. destruct Hl as (? & ? & ? & ? & ? & ?). subst.
  unfold SendLoop.turn; simpl. by destruct answer.
Qed.

Lemma turn_wait pick answer s :
  sending s → outbound s = [] → aw_closed (audioIn (cs_conn (sk_cs s))) = false →
  turn pick answer s = Blocked s.
Proof.
  intros [Hl Hc] Hq Hw. crack_sock s. apply live_inv in Hl.
  unfold outbound in Hq. simpl in *. destruct Hl as (? & ? & ? & ? & ? & ?). by subst.
Qed.

Lemma turn_nil pick answer s :
  sending s → outbound s = [] → aw_closed (audioIn (cs_conn (sk_cs s))) = true →
  turn pick answer s
  = match answer with
    | None => Ret Continue (add_sent [frame_of EncodeToString s []] s)
    | Some _ => Ret Return s
    end.
Proof.
  intros [Hl Hc] Hq Hw. crack_sock s. apply live_inv in Hl.
  unfold outbound in Hq. simpl in *. destruct Hl as (? & ? & ? & ? & ? & ?). subst.
  unfold SendLoop.turn; simpl. by destruct answer.
Qed.

Lemma add_sent_add_sent l1 l2 s : add_sent l2 (add_sent l1 s) = add_sent (l1 ++ l2) s.
Proof. unfold add_sent; simpl. by rewrite app_assoc. Qed.

Lemma writeLoop_chunks turns s :
  sending s → all_written turns → length turns ≤ length (outbound s) →
  writeLoop turns s
  = Ret Continue
      (add_sent (frames (streamSID (cs_conn (sk_cs s))) (take (length turns) (outbound s)))
         (set_outbound (drop (length turns) (outbound s)) s)).
Proof.
  intros Hs Hall. revert s Hs.
  induction Hall as [|[pick answer] turns Hok _ IH]; intros s Hs Hlen.
  - simpl. unfold mret, M_ret. f_equal. crack_sock s.
    unfold add_sent, set_outbound, frames_of; simpl. by rewrite app_nil_r.
  - simpl in Hok. subst answer.
    destruct (outbound s) as [|a q] eqn:Hq; [simpl in Hlen; lia|].
    cbn [SendLoop.writeLoop]. unfold mbind, M_bind.
    rewrite (turn_chunk pick None a q) by done.
    rewrite IH.
    + f_equal. crack_sock s. unfold outbound in Hq. simpl in *. subst.
      unfold add_sent, set_outbound, frames_of, frame_of; simpl.
      by rewrite <- app_assoc.
    + by apply sending_add_sent, sending_set_outbound.
    + crack_sock s. unfold outbound in *. simpl in *. subst. simpl in Hlen. lia.
Qed.

Lemma writeLoop_app t1 t2 s :
  writeLoop (t1 ++ t2) s
  = (r ← writeLoop t1; match r with
                       | Continue => writeLoop t2
                       | Return => mret Return
                       end) s.
Proof.
  revert s. induction t1 as [|[p a] t1 IH]; intros s.
  - simpl. by unfold mbind, M_bind, mret, M_ret.
  - simpl. unfold mbind, M_bind in *. destruct (turn p a s) as [[] s1| |]; [|done..].
    apply IH.
Qed.

Lemma writeLoop_queue turns s :
  sending s → aw_closed (audioIn (cs_conn (sk_cs s))) = false →
  all_written turns →
  writeLoop turns s
  = (if length (outbound s) <? length turns then Blocked else Ret Continue)
      (add_sent (frames (streamSID (cs_conn (sk_cs s)))
                   (take (length turns) (outbound s)))
         (set_outbound (drop (length turns) (outbound s)) s)).
Proof.
  intros Hs Hopen Hall.
  destruct (Nat.ltb_spec (length (outbound s)) (length turns)) as [Hlt|Hge];
    [|by apply writeLoop_chunks].
  rewrite <- (take_drop (length (outbound s)) turns) in Hall |- *.
  apply Forall_app in Hall as [Hall1 Hall2].
  assert (length (take (length (outbound s)) turns) = length (outbound s)) as Hlen1
    by (rewrite length_take; lia).
  destruct (drop (length (outbound s)) turns) as [|[pick answer] rest] eqn:Hrest.
  { apply (f_equal length) in Hrest. rewrite length_drop in Hrest. simpl in Hrest. lia. }
  rewrite length_app, Hlen1. simpl length.
  rewrite (take_ge (outbound s)), (drop_ge (outbound s)) by lia.
  generalize dependent (take (length (outbound s)) turns). intros turns1 Hall1 Hlen1.
  clear Hrest Hlt.
  rewrite writeLoop_app. unfold mbind at 1, M_bind at 1.
  rewrite writeLoop_chunks by (done || lia).
  rewrite Hlen1, firstn_all, drop_all.
  cbn [SendLoop.writeLoop]. unfold mbind, M_bind.
  rewrite turn_wait; [done| | |].
  - by apply sending_add_sent, sending_set_outbound.
  - by crack_sock s.
  - by crack_sock s.
Qed.

(** X8: the send loop writes one media frame per queued chunk, in queue
    order, each with the connection's stream id and the encoded chunk, as
    long as the socket takes them; when the queue is empty and the writer
    open it waits for the next chunk. *)
Theorem X8_writeLoop_sends_queue_in_order turns s :
  sending s → aw_closed (audioIn (cs_conn (sk_cs s))) = false →
  all_written turns →
  writeLoop turns s
  = (if length (outbound s) <? length turns then Blocked else Ret Continue)
      (add_sent (frames (streamSID (cs_conn (sk_cs s)))
                   (take (length turns) (outbound s)))
         (set_outbound (drop (length turns) (outbound s)) s)).
Proof. apply writeLoop_queue. Qed.

(** X9: a failed socket write ends the send loop and nothing else. The
    frames before it were written, the chunk of the failed write is lost,
    later chunks stay queued, and the connection is left as live as it was:
    the loop does not close it. *)
Theorem X9_write_failure_ends_loop_only oks pick err rest a s :
  sending s → all_written oks →
  outbound s !! length oks = Some a →
  let s' := add_sent (frames (streamSID (cs_conn (sk_cs s)))
                        (take (length oks) (outbound s)))
              (set_outbound (drop (S (length oks)) (outbound s)) s) in
  writeLoop (oks ++ (pick, Some err) :: rest) s = Ret Return s'
  ∧ sending s'
  ∧ closeOnce (cs_conn (sk_cs s')) = false
  ∧ cs_prov (sk_cs s') = cs_prov (sk_cs s).
Proof.
  intros Hs Hall Ha. cbv zeta.
  assert (length oks < length (outbound s)) as Hlt by by eapply lookup_lt_Some.
  split; [|split; [by apply sending_add_sent, sending_set_outbound|split]].
  - revert s Hs Ha Hlt. induction Hall as [|[p ans] oks Hok _ IH]; intros s Hs Ha Hlt.
    + simpl in *. destruct (outbound s) as [|a' q] eqn:Hq; [done|].
      injection Ha as ->. unfold mbind, M_bind.
      rewrite (turn_chunk pick (Some err) a q) by done.
      unfold mret, M_ret. f_equal. crack_sock s. unfold add_sent; simpl.
      by rewrite app_nil_r.
    + simpl in Hok. subst ans.
      destruct (outbound s) as [|a' q] eqn:Hq; [done|].
      simpl in Ha, Hlt. rewrite <- app_comm_cons.
      cbn [SendLoop.writeLoop]. unfold mbind at 1, M_bind at 1.
      rewrite (turn_chunk p None a' q) by done.
      assert (outbound (add_sent [frame_of EncodeToString s a'] (set_outbound q s)) = q)
        as Hq' by (by crack_sock s).
      rewrite IH.
      * f_equal. rewrite Hq'. crack_sock s. unfold outbound in Hq. simpl in *. subst.
        unfold add_sent, set_outbound, frames_of, frame_of; simpl.
        by rewrite <- app_assoc.
      * by apply sending_add_sent, sending_set_outbound.
      * by rewrite Hq'.
      * rewrite Hq'. lia.
  - destruct Hs as [Hl _]. apply live_inv in Hl as (? & _). by crack_sock s.
  - by crack_sock s.
Qed.

Lemma turn_closed_flag pick answer s :
  closed (cs_conn (sk_cs s)) = true →
  sk_sent (final (turn pick answer s)) = sk_sent s
  ∧ closed (cs_conn (sk_cs (final (turn pick answer s)))) = true.
Proof.
  intros Hc.
  destruct s as [[[i sid cid ws ev [[wq wc wcl] wclosed] rd [dq dc dcl] cl once]
                    p calls] sent].
  simpl in Hc. subst.
  unfold SendLoop.turn, Chan.recv; simpl.
  destruct dq, dcl, wq, wcl, pick; by simpl.
Qed.

(** X10: once the connection is flagged closed the send loop writes
    nothing more to the socket, whatever is still queued and whichever
    branch its select takes: audio queued at close time is discarded. *)
Theorem X10_writeLoop_silent_after_close turns s :
  closed (cs_conn (sk_cs s)) = true →
  sk_sent (final (writeLoop turns s)) = sk_sent s.
Proof.
  revert s. induction turns as [|[pick answer] turns IH]; intros s Hc; [done|].
  cbn [SendLoop.writeLoop]. unfold mbind, M_bind.
  destruct (turn_closed_flag pick answer s Hc) as [Hsent Hflag].
  destruct (turn pick answer s) as [[] s1|s1|s1]; simpl in *; try done.
  by rewrite IH.
Qed.

Lemma writeLoop_nil turns s :
  sending s → outbound s = [] → aw_closed (audioIn (cs_conn (sk_cs s))) = true →
  all_written turns →
  writeLoop turns s
  = Ret Continue
      (add_sent (replicate (length turns) (frame_of EncodeToString s [])) s).
Proof.
  intros Hs Hq Hw Hall. revert s Hs Hq Hw.
  induction Hall as [|[pick answer] turns Hok _ IH]; intros s Hs Hq Hw.
  - simpl. unfold mret, M_ret, add_sent. f_equal. destruct s; simpl.
    by rewrite app_nil_r.
  - simpl in Hok. subst answer. cbn [SendLoop.writeLoop]. unfold mbind, M_bind.
    rewrite (turn_nil pick None) by done.
    rewrite IH by (done || by apply sending_add_sent).
    f_equal. unfold add_sent, frame_of; simpl. by rewrite <- app_assoc.
Qed.


Lemma forM_zoom {S T A B} (proj : S → T) (upd : T → S → S) (m : A → M T B) l s :
  (∀ t s, proj (upd t s) = t) →
  (∀ t t' s, upd t' (upd t s) = upd t' s) →
  upd (proj s) s = s →
  forM (λ x, zoom proj upd (m x)) l s = zoom proj upd (forM m l) s.
Proof.
  intros Hget Hput. revert s. induction l as [|x l IH]; intros s Hid.
  - simpl. unfold zoom, mret, M_ret. by rewrite Hid.
  - simpl. unfold mbind, M_bind, zoom in *.
    destruct (m x (proj s)) as [y t|t|t]; [|done..].
    rewrite IH by by rewrite Hget, Hput.
    rewrite Hget. destruct (forM m l t) as [ys t'|t'|t']; simpl; by rewrite Hput.
Qed.

Lemma app_Write_all l s :
  sending s → aw_closed (audioIn (cs_conn (sk_cs s))) = false →
  0 < Chan.cap (aw_ch (audioIn (cs_conn (sk_cs s)))) →
  length (outbound s) ≤ Chan.cap (aw_ch (audioIn (cs_conn (sk_cs s)))) →
  forM app_Write l s
  = Ret (wrote <$> l)
      (set_outbound (drop (length (outbound s ++ l)
                           - Chan.cap (aw_ch (audioIn (cs_conn (sk_cs s)))))
                       (outbound s ++ l)) s).
Proof.
  intros [Hl Hc] Hopen HC Hlen. unfold app_Write.
  rewrite (forM_zoom (λ s, audioIn (cs_conn (sk_cs s)))
             (λ w, on_cs (on_conn (set_audioIn w))) audioWriter.Write).
  - apply live_inv in Hl. crack_sock s. unfold outbound in *. simpl in *.
    destruct Hl as (? & ? & ? & ? & ? & ?). subst. unfold zoom; simpl.
    match goal with |- context [forM _ _ ?w] =>
      change w with (writer_with buf0 cap0) end.
    by rewrite Write_all_window.
  - intros t s0. by crack_sock s0.
  - intros t t' s0. by crack_sock s0.
  - by crack_sock s.
Qed.

(** X11: if the application closes the writer it got from [AudioIn]
    while the connection stays open, the send loop first writes what was
    queued and from then on never waits: every further turn receives nil
    from the closed channel and writes a media frame with the encoding of
    no bytes. *)
Theorem X11_closed_writer_makes_loop_spin turns s :
  sending s → aw_closed (audioIn (cs_conn (sk_cs s))) = false →
  all_written turns →
  ∃ s',
    (app_CloseWriter;; writeLoop turns) s = Ret Continue s'
    ∧ sk_sent s'
      = sk_sent s
        ++ frames (streamSID (cs_conn (sk_cs s))) (take (length turns) (outbound s))
        ++ replicate (length turns - length (outbound s))
             (mkOutMedia (streamSID (cs_conn (sk_cs s))) (EncodeToString []))
    ∧ outbound s' = drop (length turns) (outbound s).
Proof.
  intros [Hl Hc] Hopen Hall.
  set (sc := on_cs (on_conn (set_audioIn
               (mkAudioWriter (closed_chan (aw_ch (audioIn (cs_conn (sk_cs s))))) true))) s).
  assert (app_CloseWriter s = Ret None sc) as Hclose.
  { apply live_inv in Hl. subst sc. crack_sock s. simpl in *.
    destruct Hl as (? & ? & ? & ? & ? & ?). by subst. }
  assert (sending sc ∧ outbound sc = outbound s
          ∧ aw_closed (audioIn (cs_conn (sk_cs sc))) = true
          ∧ streamSID (cs_conn (sk_cs sc)) = streamSID (cs_conn (sk_cs s))
          ∧ sk_sent sc = sk_sent s) as (Hs & Hq & Hw & Hsid & Hsent).
  { apply live_inv in Hl. subst sc. crack_sock s. simpl in *.
    destruct Hl as (? & ? & ? & ? & ? & ?). subst. by repeat split. }
  unfold mbind at 1, M_bind at 1. rewrite Hclose.
  rewrite <- Hq, <- Hsid, <- Hsent. clearbody sc. clear Hclose Hq Hsid Hsent Hl Hc Hopen s.
  pose proof Hall as Hall'.
  rewrite <- (take_drop (length (outbound sc)) turns) in Hall'.
  apply Forall_app in Hall' as [Hall1 Hall2].
  assert (writeLoop turns sc
          = writeLoop (take (length (outbound sc)) turns
                       ++ drop (length (outbound sc)) turns) sc) as ->
    by by rewrite take_drop.
  rewrite writeLoop_app. unfold mbind, M_bind.
  rewrite writeLoop_chunks by (done || rewrite length_take; lia).
  set (s1 := add_sent _ _).
  assert (sending s1 ∧ outbound s1 = drop (length turns) (outbound sc)
          ∧ aw_closed (audioIn (cs_conn (sk_cs s1))) = true
          ∧ streamSID (cs_conn (sk_cs s1)) = streamSID (cs_conn (sk_cs sc)))
    as (Hs1 & Hq1 & Hw1 & Hsid1).
  { subst s1. split; [by apply sending_add_sent, sending_set_outbound|].
    rewrite length_take.
    assert (drop (length (outbound sc) `min` length turns) (outbound sc)
            = drop (length turns) (outbound sc)) as ->.
    { destruct (decide (length (outbound sc) ≤ length turns)).
      - rewrite Nat.min_l by done. by rewrite drop_all, drop_ge.
      - by rewrite Nat.min_r by lia. }
    by crack_sock sc. }
  destruct (decide (length (outbound sc) ≤ length turns)) as [Hle|Hgt].
  - rewrite writeLoop_nil; [|done|by rewrite Hq1, drop_ge|done|done].
    eexists. split; [done|]. split.
    + subst s1. unfold add_sent, frame_of; simpl.
      rewrite length_drop, length_take, Nat.min_l by done.
      rewrite <- app_assoc. f_equal. f_equal.
      by rewrite firstn_all, take_ge.
    + by rewrite <- Hq1.
  - rewrite (drop_ge turns) by lia. simpl. unfold mret, M_ret.
    eexists. split; [done|]. split; [|done].
    subst s1. unfold add_sent; simpl.
    replace (length turns - length (outbound sc)) with 0 by lia.
    simpl. rewrite app_nil_r, length_take, Nat.min_r by lia. done.
Qed.

(** X12: what the application writes is what the socket gets, newest
    first to survive: after any number of writes to an idle open
    connection the send loop, given turns enough, writes the frames of the
    last [C] chunks written (all of them if they were at most [C], the
    writer's capacity), in the order written, and then waits. *)
Theorem X12_written_chunks_are_sent l turns s :
  sending s → aw_closed (audioIn (cs_conn (sk_cs s))) = false →
  outbound s = [] →
  0 < Chan.cap (aw_ch (audioIn (cs_conn (sk_cs s)))) →
  all_written turns →
  length l `min` Chan.cap (aw_ch (audioIn (cs_conn (sk_cs s)))) < length turns →
  (forM app_Write l;; writeLoop turns) s
  = Blocked
      (add_sent (frames (streamSID (cs_conn (sk_cs s)))
                   (drop (length l - Chan.cap (aw_ch (audioIn (cs_conn (sk_cs s))))) l))
         s).
Proof.
  intros Hs Hopen Hq HC Hall Hlen.
  unfold mbind, M_bind. rewrite app_Write_all by (done || rewrite Hq; simpl; lia).
  rewrite Hq. simpl app.
  set (C := Chan.cap _) in *. set (q := drop (length l - C) l).
  assert (length q < length turns) as Hq' by (subst q; rewrite length_drop; lia).
  rewrite writeLoop_queue;
    [|by apply sending_set_outbound|by crack_sock s|done].
  assert (outbound (set_outbound q s) = q) as -> by by crack_sock s.
  destruct (Nat.ltb_spec (length q) (length turns)); [|lia].
  rewrite take_ge, drop_ge by lia. f_equal.
  crack_sock s. unfold outbound in Hq. simpl in *. by subst.
Qed.

End Send.

(** X13: [audioWriter.Close] is guarded by the writer's flag: it keeps
    the chunks still queued, a second call is a no-op, and writes after it
    fail with [io.ErrClosedPipe] and queue nothing. [audioReader.close] has
    no guard: called on a reader that is already closed it panics. *)
Theorem X13_writer_close_guarded_reader_close_not (w : audioWriter) (r : audioReader) :
  aw_closed w = Chan.closed (aw_ch w) →
  let w' := mkAudioWriter (closed_chan (aw_ch w)) true in
  audioWriter.Close w = Ret None w'
  ∧ audioWriter.Close w' = Ret None w'
  ∧ (∀ p, audioWriter.Write p w' = Ret (0, Some ErrClosedPipe) w')
  ∧ (∀ r', audioReader.close r = Ret tt r' → audioReader.close r' = Panicked r').
Proof.
  intros Hw. destruct w as [[q C cl] flag]. simpl in *. subst.
  split; [by destruct cl|]. split; [done|]. split; [done|].
  intros r'. unfold audioReader.close, Chan.close.
  destruct r as [[rq rC rcl] rb]; simpl.
  destruct rcl; [done|]. by intros [= <-].
Qed.

(** ** Listening, accepting and closing the provider *)

Lemma world_eta w : mkWorld (w_prov w) (w_conns w) (w_chans w) (w_calls w) = w.
Proof. by destruct w. Qed.

Lemma fresh_conn (w : World) : w_conns w !! fresh (dom (w_conns w)) = None.
Proof. apply not_elem_of_dom, is_fresh. Qed.

Lemma fresh_chan (w : World) : w_chans w !! fresh (dom (w_chans w)) = None.
Proof. apply not_elem_of_dom, is_fresh. Qed.

Lemma Listen_spec addr w :
  mu (w_prov w) = Unlocked →
  Provider.Listen addr w
  = Ret (fresh (dom (w_chans w)))
      (mkWorld (set_listeners (<[addr := fresh (dom (w_chans w))]> (listeners (w_prov w)))
                  (w_prov w))
         (w_conns w)
         (<[fresh (dom (w_chans w)) := Chan.make connptr 10]> (w_chans w))
         (w_calls w)).
Proof.
  intros Hmu. destruct w as [[acc tok m conns lst h] cs chs calls].
  simpl in Hmu. subst. done.
Qed.

Lemma HandleWebSocket_spec path w :
  mu (w_prov w) = Unlocked → registry_ok w →
  let c := fresh (dom (w_conns w)) in
  Provider.HandleWebSocket path w
  = Ret c
      (mkWorld (w_prov w) (<[c := newConnection]> (w_conns w))
         (match listeners (w_prov w) !! path with
          | Some l =>
              match w_chans w !! l with
              | Some ch =>
                  if length (Chan.buf ch) <? Chan.cap ch
                  then <[l := Chan.set_buf ch (Chan.buf ch ++ [c])]> (w_chans w)
                  else w_chans w
              | None => w_chans w
              end
          | None => w_chans w
          end)
         (w_calls w)).
Proof.
  intros Hmu [Hok _]. cbv zeta.
  destruct w as [[acc tok m conns lst h] cs chs calls].
  simpl in *. subst. unfold Provider.HandleWebSocket, mbind, M_bind; simpl.
  destruct (lst !! path) as [l|] eqn:Hl; simpl; [|done].
  destruct (Hok path l Hl) as (ch & Hch & Hcl). rewrite Hch.
  unfold Chan.send. rewrite Hcl. by destruct (_ <? _).
Qed.

(** X14: a listener gets what is accepted on its path. After
    [Listen(addr)] the next socket accepted for [addr] is a new connection
    (in the state [HandleWebSocket] builds it in) and its pointer is the one
    element queued on the channel [Listen] returned; neither call waits. *)
Theorem X14_listener_receives_accepted_connection addr w :
  mu (w_prov w) = Unlocked → registry_ok w →
  ∃ ch c w',
    (ch ← Provider.Listen addr; c ← Provider.HandleWebSocket addr; mret (ch, c)) w
      = Ret (ch, c) w'
    ∧ w_chans w !! ch = None ∧ w_conns w !! c = None
    ∧ listeners (w_prov w') !! addr = Some ch
    ∧ w_chans w' !! ch = Some (Chan.mk [c] 10 false)
    ∧ w_conns w' !! c = Some newConnection
    ∧ registry_ok w'.
Proof.
  intros Hmu [Hok Hinj].
  unfold mbind at 1, M_bind at 1. rewrite Listen_spec by done.
  set (ch := fresh (dom (w_chans w))).
  assert (w_chans w !! ch = None) as Hfresh by apply fresh_chan.
  set (w1 := mkWorld _ _ _ _).
  assert (registry_ok w1) as Hok1.
  { split.
    - intros a l Hl. subst w1. destruct w as [[] ? ? ?]. simpl in *.
      destruct (decide (a = addr)) as [->|Hne].
      + rewrite lookup_insert_eq in Hl. injection Hl as <-.
        rewrite lookup_insert_eq. by eexists.
      + rewrite lookup_insert_ne in Hl by done.
        destruct (Hok a l Hl) as (c0 & Hc0 & ?).
        rewrite lookup_insert_ne by congruence. by eexists.
    - intros a1 a2 l H1 H2. subst w1. destruct w as [[] ? ? ?]. simpl in *.
      destruct (decide (a1 = addr)) as [->|Hne1], (decide (a2 = addr)) as [->|Hne2];
        try done.
      + rewrite lookup_insert_eq in H1. rewrite lookup_insert_ne in H2 by done.
        injection H1 as <-. destruct (Hok a2 ch H2) as (? & ? & _). congruence.
      + rewrite lookup_insert_eq in H2. rewrite lookup_insert_ne in H1 by done.
        injection H2 as <-. destruct (Hok a1 ch H1) as (? & ? & _). congruence.
      + rewrite lookup_insert_ne in H1, H2 by done. by eapply Hinj. }
  unfold mbind, M_bind.
  rewrite HandleWebSocket_spec; [|by subst w1; destruct w as [[] ? ? ?]|done].
  assert (listeners (w_prov w1) !! addr = Some ch) as ->
    by (subst w1; destruct w as [[] ? ? ?]; simpl; apply lookup_insert_eq).
  assert (w_chans w1 !! ch = Some (Chan.make connptr 10)) as ->
    by (subst w1; simpl; apply lookup_insert_eq).
  simpl. eexists ch, _, _. split; [done|]. split; [done|].
  split; [subst w1; apply fresh_conn|].
  split; [subst w1; destruct w as [[] ? ? ?]; simpl; apply lookup_insert_eq|].
  split; [apply lookup_insert_eq|]. split; [apply lookup_insert_eq|].
  destruct Hok1 as [Hok1 Hinj1]. split; [|done].
  intros a l Hl. simpl in *.
  destruct (decide (l = ch)) as [->|Hne].
  - rewrite lookup_insert_eq. by eexists.
  - rewrite lookup_insert_ne by done. by apply (Hok1 a l).
Qed.

Lemma HandleWebSocket_ok path w :
  mu (w_prov w) = Unlocked → registry_ok w →
  ∃ c w',
    Provider.HandleWebSocket path w = Ret c w'
    ∧ w_conns w !! c = None
    ∧ w_conns w' = <[c := newConnection]> (w_conns w)
    ∧ w_prov w' = w_prov w
    ∧ registry_ok w'
    ∧ (listeners (w_prov w) !! path = None → w_chans w' = w_chans w)
    ∧ (∀ l ch, listeners (w_prov w) !! path = Some l → w_chans w !! l = Some ch →
         w_chans w'
         = if length (Chan.buf ch) <? Chan.cap ch
           then <[l := Chan.set_buf ch (Chan.buf ch ++ [c])]> (w_chans w)
           else w_chans w).
Proof.
  intros Hmu Hreg. rewrite HandleWebSocket_spec by done.
  eexists _, _. split; [done|]. split; [apply fresh_conn|].
  split; [done|]. split; [done|]. split; [|split].
  - destruct Hreg as [Hok Hinj]. split; [|done]. intros a l Hl. simpl in *.
    destruct (Hok a l Hl) as (ch & Hch & Hcl).
    destruct (listeners (w_prov w) !! path) as [l'|] eqn:Hl'; [|by eexists].
    destruct (w_chans w !! l') as [ch'|] eqn:Hch'; [|by eexists].
    destruct (_ <? _); [|by eexists].
    destruct (decide (l = l')) as [->|Hne].
    + rewrite lookup_insert_eq. eexists. split; [done|].
      rewrite Hch in Hch'. by injection Hch' as <-.
    + rewrite lookup_insert_ne by done. by eexists.
  - simpl. by intros ->.
  - simpl. by intros l ch -> ->.
Qed.

(** X15: accepting a socket never waits and never fails on a free
    provider. The new connection is created (and can run its loops)
    whether or not anybody listens; it is announced on the listener's
    channel exactly when the path has a listener whose channel has room,
    and silently not announced otherwise. *)
Theorem X15_accept_never_waits path w :
  mu (w_prov w) = Unlocked → registry_ok w →
  ∃ c w',
    Provider.HandleWebSocket path w = Ret c w'
    ∧ w_conns w !! c = None
    ∧ w_conns w' = <[c := newConnection]> (w_conns w)
    ∧ w_prov w' = w_prov w
    ∧ registry_ok w'
    ∧ (listeners (w_prov w) !! path = None → w_chans w' = w_chans w)
    ∧ (∀ l ch, listeners (w_prov w) !! path = Some l → w_chans w !! l = Some ch →
         w_chans w'
         = if length (Chan.buf ch) <? Chan.cap ch
           then <[l := Chan.set_buf ch (Chan.buf ch ++ [c])]> (w_chans w)
           else w_chans w).
Proof. apply HandleWebSocket_ok. Qed.

Lemma accept_all_spec path n : ∀ w l ch,
  mu (w_prov w) = Unlocked → registry_ok w →
  listeners (w_prov w) !! path = Some l → w_chans w !! l = Some ch →
  ∃ cs w',
    accept_all path n w = Ret cs w'
    ∧ length cs = n
    ∧ w_chans w' !! l
      = Some (Chan.set_buf ch
                (Chan.buf ch ++ take (Chan.cap ch - length (Chan.buf ch)) cs))
    ∧ (∀ c, c ∈ cs → w_conns w !! c = None ∧ w_conns w' !! c = Some newConnection)
    ∧ (∀ c x, w_conns w !! c = Some x → w_conns w' !! c = Some x)
    ∧ w_prov w' = w_prov w.
Proof.
  induction n as [|n IH]; intros w l ch Hmu Hreg Hl Hch.
  - exists [], w. split; [done|]. split; [done|].
    split; [|by split; [intros ? ?%elem_of_nil|]].
    rewrite take_nil, app_nil_r. by destruct ch.
  - destruct (HandleWebSocket_ok path w Hmu Hreg)
      as (c & w1 & Hacc & Hfresh & Hconns & Hprov & Hreg1 & _ & Hchans).
    specialize (Hchans l ch Hl Hch).
    set (ch1 := if length (Chan.buf ch) <? Chan.cap ch
                then Chan.set_buf ch (Chan.buf ch ++ [c]) else ch).
    assert (w_chans w1 !! l = Some ch1) as Hch1.
    { rewrite Hchans. subst ch1. destruct (_ <? _); [apply lookup_insert_eq|done]. }
    destruct (IH w1 l ch1) as (cs & w' & Hrest & Hlen & Hq & Hnew & Hold & Hprov');
      [by rewrite Hprov|done|by rewrite Hprov|done|].
    exists (c :: cs), w'. unfold accept_all in *. simpl.
    unfold mbind, M_bind. rewrite Hacc, Hrest. unfold mret, M_ret.
    split; [done|]. split; [simpl; by rewrite Hlen|].
    split; [|split; [|split]].
    + rewrite Hq. f_equal. subst ch1. destruct ch as [q C cl]; simpl.
      destruct (Nat.ltb_spec (length q) C); simpl.
      * unfold Chan.set_buf; simpl. f_equal. rewrite length_app; simpl.
        replace (C - length q) with (S (C - (length q + 1))) by lia.
        simpl. by rewrite <- app_assoc.
      * by replace (C - length q) with 0 by lia.
    + intros c0 [->|Hin]%elem_of_cons.
      * split; [done|]. apply Hold. rewrite Hconns. apply lookup_insert_eq.
      * destruct (Hnew c0 Hin) as [Hn1 Hn2]. split; [|done].
        rewrite Hconns in Hn1. apply lookup_insert_None in Hn1. tauto.
    + intros c0 x Hc0. apply Hold. rewrite Hconns.
      rewrite lookup_insert_ne; [done|]. intros ->. congruence.
    + by rewrite Hprov', Hprov.
Qed.

(** X16: announcements to a listener are first come, first kept. Of [n]
    sockets accepted for a path while nobody takes connections from its
    listener, the channel holds the first ones in order up to its capacity
    (10 for a channel made by [Listen]); the later connections are created
    all the same but are not announced. *)
Theorem X16_listener_queue_keeps_first path n w l ch :
  mu (w_prov w) = Unlocked → registry_ok w →
  listeners (w_prov w) !! path = Some l → w_chans w !! l = Some ch →
  ∃ cs w',
    accept_all path n w = Ret cs w'
    ∧ length cs = n
    ∧ (Chan.buf <$> w_chans w' !! l)
      = Some (Chan.buf ch ++ take (Chan.cap ch - length (Chan.buf ch)) cs)
    ∧ (∀ c, c ∈ cs → w_conns w !! c = None ∧ w_conns w' !! c = Some newConnection).
Proof.
  intros Hmu Hreg Hl Hch.
  destruct (accept_all_spec path n w l ch Hmu Hreg Hl Hch)
    as (cs & w' & Hacc & Hlen & Hq & Hnew & _).
  exists cs, w'. split; [done|]. split; [done|]. split; [|done].
  by rewrite Hq.
Qed.

Lemma close_connections_spent (keys : list string) (w : World) :
  all_closed w →
  (∀ k, k ∈ keys → is_Some (connections (w_prov w) !! k)) →
  Provider.close_connections keys w = Ret tt w.
Proof.
  intros Hall. induction keys as [|k keys IH]; intros Hkeys; [done|].
  simpl. unfold mbind at 1, M_bind at 1, get at 1.
  destruct (Hkeys k) as [c Hc]; [left|]. rewrite Hc.
  destruct (Hall k c Hc) as (conn & Hconn & Hspent).
  unfold mbind, M_bind, at_conn, zoom. rewrite Hconn.
  rewrite Close_spent by done. simpl.
  rewrite (insert_id _ _ _ Hconn), world_eta.
  apply IH. intros k' Hk'. apply Hkeys. by right.
Qed.

Lemma close_listeners_ok (ls : list chanptr) : ∀ w,
  NoDup ls →
  (∀ l, l ∈ ls → ∃ ch, w_chans w !! l = Some ch ∧ Chan.closed ch = false) →
  ∃ chans',
    Provider.close_listeners ls w = Ret tt (set_chans chans' w)
    ∧ ∀ l, chans' !! l
           = if decide (l ∈ ls) then closed_chan <$> w_chans w !! l
             else w_chans w !! l.
Proof.
  induction ls as [|l0 ls IH]; intros w Hnd Hall.
  - exists (w_chans w). split; [by destruct w|].
    intros l. by rewrite decide_False by apply not_elem_of_nil.
  - apply NoDup_cons in Hnd as [Hnotin Hnd].
    destruct (Hall l0) as (ch & Hch & Hcl); [left|].
    simpl. unfold mbind at 1, M_bind at 1, get at 1.
    rewrite Hch. simpl. unfold Chan.close. rewrite Hcl.
    unfold mbind, M_bind, modify.
    set (w1 := set_chans _ w).
    destruct (IH w1 Hnd) as (chans' & Hrun & Hlook).
    { intros l Hl. subst w1. simpl.
      rewrite lookup_insert_ne by (intros ->; done).
      apply Hall. by right. }
    exists chans'. split; [rewrite Hrun; by destruct w|].
    intros l. rewrite Hlook. subst w1. simpl.
    destruct (decide (l = l0)) as [->|Hne].
    + rewrite decide_False by done. rewrite decide_True by left.
      by rewrite lookup_insert_eq, Hch.
    + rewrite lookup_insert_ne by done.
      destruct (decide (l ∈ ls)) as [Hin|Hout].
      * by rewrite decide_True by by right.
      * rewrite decide_False; [done|]. by intros [?|?]%elem_of_cons.
Qed.

(** X17: when no registered connection is still open, [Provider.Close]
    returns nil with the mutex released, both maps empty and every
    registered listener channel closed (its queued connections still
    there to be received); it touches no connection and no channel that is
    not registered; and called again it returns nil and changes nothing. *)
Theorem X17_registry_close_without_open_connections w :
  mu (w_prov w) = Unlocked → registry_ok w → all_closed w →
  ∃ w',
    Provider.Close w = Ret None w'
    ∧ connections (w_prov w') = ∅ ∧ listeners (w_prov w') = ∅
    ∧ mu (w_prov w') = Unlocked
    ∧ w_conns w' = w_conns w
    ∧ (∀ l, registered w l → w_chans w' !! l = closed_chan <$> w_chans w !! l)
    ∧ (∀ l, ¬ registered w l → w_chans w' !! l = w_chans w !! l)
    ∧ Provider.Close w' = Ret None w'.
Proof.
  intros Hmu [Hok Hinj] Hall. unfold Provider.Close.
  unfold mbind at 1, M_bind at 1, world_mu at 1. rewrite Hmu; simpl.
  unfold mbind at 1, M_bind at 1, get at 1.
  set (w1 := set_prov (set_mu WLocked) w).
  assert (connections (w_prov w1) = connections (w_prov w)
          ∧ listeners (w_prov w1) = listeners (w_prov w)
          ∧ w_conns w1 = w_conns w ∧ w_chans w1 = w_chans w) as (Hc1 & Hl1 & Hcs1 & Hch1)
    by (subst w1; by destruct w as [[] ? ? ?]).
  unfold mbind at 1, M_bind at 1.
  rewrite close_connections_spent.
  2:{ intros sid c Hs. rewrite Hc1 in Hs. rewrite Hcs1. exact (Hall sid c Hs). }
  2:{ intros k [[k' c] [-> Hkc]]%list_elem_of_fmap.
      apply elem_of_map_to_list in Hkc. by eexists. }
  unfold mbind at 1, M_bind at 1.
  destruct (close_listeners_ok (map_to_list (listeners (w_prov w1))).*2 w1)
    as (chans' & Hrun & Hlook).
  { apply NoDup_fmap_2_strong; [|apply NoDup_map_to_list].
    intros [a1 l1] [a2 l2] H1%elem_of_map_to_list H2%elem_of_map_to_list Heq.
    simpl in Heq. subst l2. rewrite Hl1 in H1, H2.
    by rewrite (Hinj a1 a2 l1 H1 H2). }
  { intros l [[a l'] [-> Hal]]%list_elem_of_fmap.
    apply elem_of_map_to_list in Hal. rewrite Hl1 in Hal. rewrite Hch1.
    by apply (Hok a). }
  rewrite Hrun. unfold mbind, M_bind, modify, world_mu; simpl.
  eexists. split; [done|].
  split; [by destruct w as [[] ? ? ?]|]. split; [by destruct w as [[] ? ? ?]|].
  split; [by destruct w as [[] ? ? ?]|]. split; [by destruct w as [[] ? ? ?]|].
  assert (∀ l, l ∈ (map_to_list (listeners (w_prov w1))).*2 ↔ registered w l) as Hreg.
  { intros l. rewrite Hl1. split.
    - intros [[a l'] [-> Hal]]%list_elem_of_fmap.
      apply elem_of_map_to_list in Hal. by exists a.
    - intros [a Ha]. apply list_elem_of_fmap. exists (a, l). split; [done|].
      by apply elem_of_map_to_list. }
  split; [|split].
  - intros l Hl. simpl. rewrite Hlook, decide_True by by apply Hreg.
    by rewrite Hch1.
  - intros l Hl. simpl. rewrite Hlook, decide_False by by rewrite Hreg.
    by rewrite Hch1.
  - destruct w as [[acc tok m conns lst h] cs chs calls]. simpl in *.
    unfold mbind, M_bind; simpl. by rewrite !map_to_list_empty.
Qed.

(** X18: [Listen] on an address that already has a listener replaces it.
    The second call returns another channel and only that one is
    registered from then on; the first channel is open and empty, no
    address refers to it any more, so no accepted connection will ever be
    announced on it. *)
Theorem X18_second_listen_replaces_first addr w :
  mu (w_prov w) = Unlocked → registry_ok w →
  ∃ ch1 ch2 w',
    (ch1 ← Provider.Listen addr; ch2 ← Provider.Listen addr; mret (ch1, ch2)) w
      = Ret (ch1, ch2) w'
    ∧ ch1 ≠ ch2
    ∧ listeners (w_prov w') !! addr = Some ch2
    ∧ ¬ registered w' ch1
    ∧ w_chans w' !! ch1 = Some (Chan.make connptr 10)
    ∧ w_chans w' !! ch2 = Some (Chan.make connptr 10)
    ∧ registry_ok w'.
Proof.
  intros Hmu [Hok Hinj].
  unfold mbind at 1, M_bind at 1. rewrite Listen_spec by done.
  set (ch1 := fresh (dom (w_chans w))).
  assert (w_chans w !! ch1 = None) as Hf1 by apply fresh_chan.
  set (w1 := mkWorld _ _ _ _).
  unfold mbind, M_bind. rewrite Listen_spec by (subst w1; by destruct w as [[] ? ? ?]).
  set (ch2 := fresh (dom (w_chans w1))).
  assert (w_chans w1 !! ch2 = None) as Hf2 by apply fresh_chan.
  assert (ch1 ≠ ch2) as Hne.
  { intros Heq. rewrite <- Heq in Hf2. subst w1. simpl in Hf2.
    by rewrite lookup_insert_eq in Hf2. }
  assert (w_chans w !! ch2 = None) as Hf2'.
  { subst w1. simpl in Hf2. by rewrite lookup_insert_ne in Hf2. }
  assert (∀ a, listeners (w_prov w) !! a ≠ Some ch1) as Hno1.
  { intros a Ha. destruct (Hok a ch1 Ha) as (? & ? & _). congruence. }
  assert (∀ a, listeners (w_prov w) !! a ≠ Some ch2) as Hno2.
  { intros a Ha. destruct (Hok a ch2 Ha) as (? & ? & _). congruence. }
  simpl. eexists ch1, ch2, _. split; [done|]. split; [done|].
  subst w1. destruct w as [[acc tok m conns lst h] cs chs calls]. simpl in *.
  rewrite insert_insert_eq.
  split; [apply lookup_insert_eq|]. split; [|split; [|split; [|split]]].
  - intros [a Ha]. simpl in Ha. destruct (decide (a = addr)) as [->|Hna].
    + rewrite lookup_insert_eq in Ha. congruence.
    + rewrite lookup_insert_ne in Ha by done. by apply (Hno1 a).
  - rewrite lookup_insert_ne by done. apply lookup_insert_eq.
  - apply lookup_insert_eq.
  - intros a l Hl. simpl in *. destruct (decide (a = addr)) as [->|Hna].
    + rewrite lookup_insert_eq in Hl. injection Hl as <-.
      rewrite lookup_insert_eq. by eexists.
    + rewrite lookup_insert_ne in Hl by done.
      destruct (Hok a l Hl) as (c0 & Hc0 & ?).
      rewrite !lookup_insert_ne by congruence. by eexists.
  - intros a1 a2 l H1 H2. simpl in *.
    destruct (decide (a1 = addr)) as [->|Hne1], (decide (a2 = addr)) as [->|Hne2];
      try done.
    + rewrite lookup_insert_eq in H1. rewrite lookup_insert_ne in H2 by done.
      injection H1 as <-. by destruct (Hno2 a2).
    + rewrite lookup_insert_eq in H2. rewrite lookup_insert_ne in H1 by done.
      injection H2 as <-. by destruct (Hno2 a1).
    + rewrite lookup_insert_ne in H1, H2 by done. by eapply Hinj.
Qed.

Lemma readLoop_silent Unmarshal DecodeString this evs K st :
  ready evs K st →
  Connection.readLoop Unmarshal DecodeString this [] st = Blocked st.
Proof. intros H. crack st. by use_ready H. Qed.

(** X19: once its started frame is processed a connection can be found
    by its stream id: the registry maps the id of the frame to this
    connection, whose [ID] and [CallSID] now return the ids of the frame,
    and the loop goes on to wait for the next read. *)
Theorem X19_connection_reachable_by_stream_id Unmarshal DecodeString c conn d start w :
  mu (w_prov w) = Unlocked → w_conns w !! c = Some conn → live conn = true →
  length (Chan.buf (events conn)) < Chan.cap (events conn) →
  start_frame Unmarshal d start →
  ∃ w' conn',
    run_readLoop Unmarshal DecodeString c [ReadMsg d] w = Blocked w'
    ∧ connections (w_prov w') !! start_StreamSID start = Some c
    ∧ w_conns w' !! c = Some conn'
    ∧ Connection.ID conn' = start_StreamSID start
    ∧ Connection.CallSID conn' = start_CallSID start
    ∧ live conn' = true.
Proof.
  intros Hmu Hc Hl Hroom Hstart.
  unfold run_readLoop, at_conn, zoom. rewrite Hc.
  set (st := mkCstate conn (w_prov w) (w_calls w)).
  assert (ready (Chan.buf (events conn)) (Chan.cap (events conn)) st) as Hr
    by by repeat split.
  rewrite (readLoop_cons _ _ _ _ _ _ _ _ Hr).
  rewrite (iteration_start _ _ _ _ _ _ start _ Hr) by done.
  apply (ready_bound _ _ c start), (ready_emitted _ _ [event EventAudioStarted]) in Hr.
  set (st1 := emitted _ _) in *.
  rewrite (readLoop_silent _ _ _ _ _ _ Hr).
  eexists _, _. split; [done|]. simpl.
  split; [apply lookup_insert_eq|]. split; [apply lookup_insert_eq|].
  split; [done|]. split; [done|]. by destruct Hr as (? & _).
Qed.

(** ** The further properties on the example peer *)

Lemma New_registry_ok sid token : registry_ok (Provider.New sid token).
Proof. split; intros *; simpl; by rewrite lookup_empty. Qed.

Lemma Listen_registry_ok addr w :
  mu (w_prov w) = Unlocked → registry_ok w →
  registry_ok (final (Provider.Listen addr w)).
Proof.
  intros Hmu [Hok Hinj]. rewrite Listen_spec by done. simpl.
  set (ch := fresh (dom (w_chans w))).
  assert (w_chans w !! ch = None) as Hfresh by apply fresh_chan.
  split.
  - intros a l Hl. destruct w as [[] ? ? ?]. simpl in *.
    destruct (decide (a = addr)) as [->|Hne].
    + rewrite lookup_insert_eq in Hl. injection Hl as <-.
      rewrite lookup_insert_eq. by eexists.
    + rewrite lookup_insert_ne in Hl by done.
      destruct (Hok a l Hl) as (c0 & Hc0 & ?).
      rewrite lookup_insert_ne by congruence. by eexists.
  - intros a1 a2 l H1 H2. destruct w as [[] ? ? ?]. simpl in *.
    destruct (decide (a1 = addr)) as [->|Hne1], (decide (a2 = addr)) as [->|Hne2];
      try done.
    + rewrite lookup_insert_eq in H1. rewrite lookup_insert_ne in H2 by done.
      injection H1 as <-. destruct (Hok a2 ch H2) as (? & ? & _). congruence.
    + rewrite lookup_insert_eq in H2. rewrite lookup_insert_ne in H1 by done.
      injection H2 as <-. destruct (Hok a1 ch H1) as (? & ? & _). congruence.
    + rewrite lookup_insert_ne in H1, H2 by done. by eapply Hinj.
Qed.

Lemma listening_registry_ok : registry_ok listening.
Proof. apply Listen_registry_ok; [done|apply New_registry_ok]. Qed.

Lemma stalled_good : good stalled ∧ events_full stalled.
Proof. split; [split; by vm_compute|]. unfold events_full. vm_compute. lia. Qed.

Lemma loaded_sending : sending loaded.
Proof. split; by vm_compute. Qed.

Example peer_EncodeToString_decodes :
  peer_EncodeToString [x01; x02; x03] = "AQID"
  ∧ peer_DecodeString (peer_EncodeToString [x01; x02; x03]) = Some [x01; x02; x03]
  ∧ peer_EncodeToString [x4d; x61] = "TWE=" ∧ peer_EncodeToString [x4d] = "TQ==".
Proof. by vm_compute. Qed.

Lemma X2_witness :
  Connection.iteration peer_Unmarshal peer_DecodeString 0 (ReadMsg "{mark m}") accepted
  = Ret Continue accepted.
Proof.
  apply (X2_hollow_frames_ignored peer_Unmarshal peer_DecodeString 0 "{mark m}" accepted).
  reflexivity.
Defined.

Lemma X4_witness :
  ∃ st',
    (∀ rest,
       Connection.readLoop peer_Unmarshal peer_DecodeString 0
         ([ReadMsg "{media AQID}"; ReadMsg "{media AQID}"] ++ rest) accepted
       = Connection.readLoop peer_Unmarshal peer_DecodeString 0 rest st')
    ∧ good st'
    ∧ events (cs_conn st') = events (cs_conn accepted)
    ∧ inbound st'
      = inbound accepted
        ++ take (Chan.cap (ar_ch (audioOut (cs_conn accepted))) - length (inbound accepted))
             [[x01; x02; x03]; [x01; x02; x03]]
    ∧ ∀ sizes,
        Forall (λ n, 0 < n) sizes →
        read_budget (audioOut (cs_conn st')) ≤ length sizes →
        concat (reads sizes (audioOut (cs_conn st'))).1
        = pending (audioOut (cs_conn accepted))
          ++ concat (take (Chan.cap (ar_ch (audioOut (cs_conn accepted)))
                           - length (inbound accepted))
                       [[x01; x02; x03]; [x01; x02; x03]]).
Proof.
  apply (X4_audio_frames_reach_reader peer_Unmarshal peer_DecodeString 0
           [ReadMsg "{media AQID}"; ReadMsg "{media AQID}"]
           [[x01; x02; x03]; [x01; x02; x03]] accepted).
  - split; reflexivity.
  - repeat (apply Forall2_cons_2; [reflexivity|]). apply Forall2_nil_2.
Defined.

Lemma X5_witness :
  let st' := final (Connection.iteration peer_Unmarshal peer_DecodeString 0
                      (ReadMsg "{dtmf 5}") handled) in
  cs_calls st' = [(7, 0, "5")]
  ∧ Chan.buf (events (cs_conn st')) = [mkEvent EventDTMF (Some "5") None].
Proof.
  cbv zeta.
  destruct (X5_dtmf_handler_called_once peer_Unmarshal peer_DecodeString 0
              (ReadMsg "{dtmf 5}") handled) as [H1 H2].
  - split; reflexivity.
  - unfold events_full. simpl. lia.
  - split; [exact H1|]. exact (H2 "5" eq_refl).
Defined.

Lemma X6_witness :
  ∃ st',
    Connection.readLoop peer_Unmarshal peer_DecodeString 0
      [ReadMsg "{start MZ1 CA1}"; ReadMsg "{start MZ2 CA2}"; ReadMsg "{stop}"] accepted
    = Ret tt st'
    ∧ closeOnce (cs_conn st') = true
    ∧ connections (cs_prov st') !! "MZ1" = Some 0
    ∧ connections (cs_prov st') !! "MZ2" = None.
Proof.
  apply (X6_rebound_connection_leaves_stale_entry peer_Unmarshal peer_DecodeString 0
           "{start MZ1 CA1}" "{start MZ2 CA2}"
           (mkStartMessage "MZ1" "AC1" "CA1" ["inbound"] no_format [])
           (mkStartMessage "MZ2" "AC1" "CA2" ["inbound"] no_format [])
           (ReadMsg "{stop}") [] accepted).
  - split; reflexivity.
  - simpl; lia.
  - eexists; repeat split; reflexivity.
  - eexists; repeat split; reflexivity.
  - discriminate.
  - right. exists "{stop}". split; [reflexivity|]. eexists; split; reflexivity.
Defined.

Lemma X7_witness :
  Connection.readLoop peer_Unmarshal peer_DecodeString 0 [ReadMsg "{stop}"] stalled
  = Blocked stalled
  ∧ Connection.readLoop peer_Unmarshal peer_DecodeString 0
      [ReadMsg "{start MZ1 CA1}"] stalled
    = Blocked (bound 0 (mkStartMessage "MZ1" "AC1" "CA1" ["inbound"] no_format [])
                 stalled).
Proof.
  destruct (X7_full_event_channel_stalls_loop peer_Unmarshal peer_DecodeString 0
              (ReadMsg "{stop}") [] stalled (proj1 stalled_good) (proj2 stalled_good))
    as [H1 _].
  destruct (X7_full_event_channel_stalls_loop peer_Unmarshal peer_DecodeString 0
              (ReadMsg "{start MZ1 CA1}") [] stalled
              (proj1 stalled_good) (proj2 stalled_good))
    as [_ H2].
  split; [exact (H1 eq_refl)|]. exact (H2 _ eq_refl).
Defined.

Lemma X8_witness :
  SendLoop.writeLoop peer_EncodeToString
    [(false, None); (true, None); (false, None); (false, None)] loaded
  = Blocked
      (add_sent [mkOutMedia "" "AQID"; mkOutMedia "" "BA=="; mkOutMedia "" ""]
         (set_outbound [] loaded)).
Proof.
  apply (X8_writeLoop_sends_queue_in_order peer_EncodeToString
           [(false, None); (true, None); (false, None); (false, None)] loaded).
  - exact loaded_sending.
  - reflexivity.
  - repeat (apply Forall_cons_2; [reflexivity|]). apply Forall_nil_2.
Defined.

Lemma X9_witness :
  let s' := add_sent [mkOutMedia "" "AQID"] (set_outbound [[]] loaded) in
  SendLoop.writeLoop peer_EncodeToString
    ([(false, None)] ++ (false, Some (OtherError "broken pipe")) :: [(false, None)])
    loaded
  = Ret Return s'
  ∧ sending s'
  ∧ closeOnce (cs_conn (sk_cs s')) = false
  ∧ cs_prov (sk_cs s') = cs_prov (sk_cs loaded).
Proof.
  apply (X9_write_failure_ends_loop_only peer_EncodeToString [(false, None)] false
           (OtherError "broken pipe") [(false, None)] [x04] loaded).
  - exact loaded_sending.
  - repeat (apply Forall_cons_2; [reflexivity|]). apply Forall_nil_2.
  - reflexivity.
Defined.

Lemma X10_witness :
  sk_sent (final (SendLoop.writeLoop peer_EncodeToString
                    [(false, None); (false, None); (true, None)]
                    (on_cs torn_down loaded)))
  = [].
Proof.
  apply (X10_writeLoop_silent_after_close peer_EncodeToString
           [(false, None); (false, None); (true, None)] (on_cs torn_down loaded)).
  reflexivity.
Defined.

Lemma X11_witness :
  ∃ s',
    (app_CloseWriter;;
     SendLoop.writeLoop peer_EncodeToString
       [(false, None); (false, None); (false, None); (false, None); (false, None)])
      loaded
    = Ret Continue s'
    ∧ sk_sent s'
      = [] ++ frames_of peer_EncodeToString "" (take 5 (outbound loaded))
        ++ replicate (5 - length (outbound loaded)) (mkOutMedia "" (peer_EncodeToString []))
    ∧ outbound s' = drop 5 (outbound loaded).
Proof.
  apply (X11_closed_writer_makes_loop_spin peer_EncodeToString
           [(false, None); (false, None); (false, None); (false, None); (false, None)]
           loaded).
  - exact loaded_sending.
  - reflexivity.
  - repeat (apply Forall_cons_2; [reflexivity|]). apply Forall_nil_2.
Defined.

Lemma X12_witness :
  let l := (λ n, replicate n x00) <$> seq 0 102 in
  let turns := replicate 101 (false, None) in
  (forM app_Write l;; SendLoop.writeLoop peer_EncodeToString turns) idle
  = Blocked
      (add_sent (frames_of peer_EncodeToString "" (drop (length l - 100) l)) idle).
Proof.
  apply (X12_written_chunks_are_sent peer_EncodeToString
           ((λ n, replicate n x00) <$> seq 0 102) (replicate 101 (false, None)) idle).
  - split; reflexivity.
  - reflexivity.
  - reflexivity.
  - simpl; lia.
  - apply Forall_replicate. reflexivity.
  - vm_compute; lia.
Defined.

Lemma X13_witness :
  let w' := mkAudioWriter (closed_chan (aw_ch newAudioWriter)) true in
  audioWriter.Close newAudioWriter = Ret None w'
  ∧ audioWriter.Close w' = Ret None w'
  ∧ (∀ p, audioWriter.Write p w' = Ret (0, Some ErrClosedPipe) w')
  ∧ (∀ r', audioReader.close newAudioReader = Ret tt r' →
       audioReader.close r' = Panicked r').
Proof.
  apply (X13_writer_close_guarded_reader_close_not newAudioWriter newAudioReader).
  reflexivity.
Defined.

Lemma X14_witness :
  ∃ ch c w',
    (ch ← Provider.Listen "/media-stream";
     c ← Provider.HandleWebSocket "/media-stream"; mret (ch, c))
      (Provider.New "AC1" "token")
      = Ret (ch, c) w'
    ∧ w_chans (Provider.New "AC1" "token") !! ch = None
    ∧ w_conns (Provider.New "AC1" "token") !! c = None
    ∧ listeners (w_prov w') !! "/media-stream" = Some ch
    ∧ w_chans w' !! ch = Some (Chan.mk [c] 10 false)
    ∧ w_conns w' !! c = Some newConnection
    ∧ registry_ok w'.
Proof.
  apply (X14_listener_receives_accepted_connection "/media-stream"
           (Provider.New "AC1" "token")).
  - reflexivity.
  - apply New_registry_ok.
Defined.

Lemma X15_witness :
  ∃ c w',
    Provider.HandleWebSocket "/elsewhere" listening = Ret c w'
    ∧ w_conns listening !! c = None
    ∧ w_conns w' = <[c := newConnection]> (w_conns listening)
    ∧ w_prov w' = w_prov listening
    ∧ registry_ok w'
    ∧ w_chans w' = w_chans listening.
Proof.
  destruct (X15_accept_never_waits "/elsewhere" listening)
    as (c & w' & H1 & H2 & H3 & H4 & H5 & H6 & _).
  - reflexivity.
  - apply listening_registry_ok.
  - exists c, w'. repeat (split; [assumption|]). apply H6. reflexivity.
Defined.

Lemma X16_witness :
  ∃ cs w',
    accept_all "/media-stream" 12 listening = Ret cs w'
    ∧ length cs = 12
    ∧ (Chan.buf <$> w_chans w' !! 0) = Some ([] ++ take (10 - 0) cs)
    ∧ (∀ c, c ∈ cs → w_conns listening !! c = None
                     ∧ w_conns w' !! c = Some newConnection).
Proof.
  apply (X16_listener_queue_keeps_first "/media-stream" 12 listening 0
           (Chan.make connptr 10)).
  - reflexivity.
  - apply listening_registry_ok.
  - reflexivity.
  - reflexivity.
Defined.

Lemma X17_witness :
  ∃ w',
    Provider.Close unannounced = Ret None w'
    ∧ connections (w_prov w') = ∅ ∧ listeners (w_prov w') = ∅
    ∧ mu (w_prov w') = Unlocked
    ∧ w_conns w' = w_conns unannounced
    ∧ (∀ l, registered unannounced l →
         w_chans w' !! l = closed_chan <$> w_chans unannounced !! l)
    ∧ (∀ l, ¬ registered unannounced l → w_chans w' !! l = w_chans unannounced !! l)
    ∧ Provider.Close w' = Ret None w'.
Proof.
  apply (X17_registry_close_without_open_connections unannounced).
  - reflexivity.
  - destruct (HandleWebSocket_ok "/elsewhere" listening eq_refl
                listening_registry_ok) as (c & w' & H1 & _ & _ & _ & H5 & _).
    unfold unannounced. by rewrite H1.
  - assert (connections (w_prov unannounced) = ∅) as Hc by by vm_compute.
    intros sid c H. rewrite Hc in H. by rewrite lookup_empty in H.
Defined.

Lemma X18_witness :
  ∃ ch1 ch2 w',
    (ch1 ← Provider.Listen "/media-stream";
     ch2 ← Provider.Listen "/media-stream"; mret (ch1, ch2))
      (Provider.New "AC1" "token")
      = Ret (ch1, ch2) w'
    ∧ ch1 ≠ ch2
    ∧ listeners (w_prov w') !! "/media-stream" = Some ch2
    ∧ ¬ registered w' ch1
    ∧ w_chans w' !! ch1 = Some (Chan.make connptr 10)
    ∧ w_chans w' !! ch2 = Some (Chan.make connptr 10)
    ∧ registry_ok w'.
Proof.
  apply (X18_second_listen_replaces_first "/media-stream" (Provider.New "AC1" "token")).
  - reflexivity.
  - apply New_registry_ok.
Defined.

Lemma X19_witness :
  ∃ w' conn',
    run_readLoop peer_Unmarshal peer_DecodeString 0 [ReadMsg "{start MZ1 CA1}"]
      unannounced
    = Blocked w'
    ∧ connections (w_prov w') !! "MZ1" = Some 0
    ∧ w_conns w' !! 0 = Some conn'
    ∧ Connection.ID conn' = "MZ1"
    ∧ Connection.CallSID conn' = "CA1"
    ∧ live conn' = true.
Proof.
  apply (X19_connection_reachable_by_stream_id peer_Unmarshal peer_DecodeString 0
           newConnection "{start MZ1 CA1}"
           (mkStartMessage "MZ1" "AC1" "CA1" ["inbound"] no_format []) unannounced).
  - reflexivity.
  - reflexivity.
  - reflexivity.
  - simpl; lia.
  - eexists; repeat split; reflexivity.
Defined.

(** * Properties of the REST client and the call system *)

(** X20: [client.New] resolves the credentials from the configuration
    first and the environment second. It fails exactly when the account
    SID or the auth token is empty in both, naming the SID when both are
    missing; a client it returns never has an empty SID, token or base
    URL, a value given in the configuration always wins over the
    environment, and a nil configuration is the empty one. *)
Theorem X20_client_New_resolves_credentials env cfg :
  client.New env None = client.New env (Some (client.mkConfig "" "" "" None))
  ∧ ((∃ e, client.New env (Some cfg) = inr e)
     ↔ (client.cfg_AccountSID cfg = "" ∧ env "TWILIO_ACCOUNT_SID" = "")
       ∨ (client.cfg_AuthToken cfg = "" ∧ env "TWILIO_AUTH_TOKEN" = ""))
  ∧ (client.cfg_AccountSID cfg = "" → env "TWILIO_ACCOUNT_SID" = "" →
       client.New env (Some cfg) = inr (OtherError "TWILIO_ACCOUNT_SID is required"))
  ∧ (∀ c, client.New env (Some cfg) = inl c →
       client.c_accountSID c ≠ "" ∧ client.c_authToken c ≠ ""
       ∧ client.c_baseURL c ≠ ""
       ∧ client.c_accountSID c
         = (if decide (client.cfg_AccountSID cfg = "")
            then env "TWILIO_ACCOUNT_SID" else client.cfg_AccountSID cfg)
       ∧ client.c_authToken c
         = (if decide (client.cfg_AuthToken cfg = "")
            then env "TWILIO_AUTH_TOKEN" else client.cfg_AuthToken cfg)
       ∧ client.c_baseURL c
         = (if decide (client.cfg_BaseURL cfg = "")
            then "https://api.twilio.com/2010-04-01" else client.cfg_BaseURL cfg)).
Proof.
  split; [done|].
  destruct cfg as [sid tok base http]. unfold client.New; simpl.
  split; [|split].
  - destruct (String.eqb_spec sid "") as [->|Hs];
      [destruct (String.eqb_spec (env "TWILIO_ACCOUNT_SID") "") as [Hes|Hes]|
       destruct (String.eqb_spec sid "") as [?|_]; [done|]];
      try (split; [by intros _; left|by eexists]).
    + destruct (String.eqb_spec tok "") as [->|Ht];
        [destruct (String.eqb_spec (env "TWILIO_AUTH_TOKEN") "") as [Het|Het]|
         destruct (String.eqb_spec tok "") as [?|_]; [done|]].
      * split; [by intros _; right|by eexists].
      * split; [by intros [e ?]|]. intros [[_ ?]|[_ ?]]; done.
      * split; [by intros [e ?]|]. intros [[_ ?]|[? _]]; done.
    + destruct (String.eqb_spec tok "") as [->|Ht];
        [destruct (String.eqb_spec (env "TWILIO_AUTH_TOKEN") "") as [Het|Het]|
         destruct (String.eqb_spec tok "") as [?|_]; [done|]].
      * split; [by intros _; right|by eexists].
      * split; [by intros [e ?]|]. intros [[? _]|[_ ?]]; done.
      * split; [by intros [e ?]|]. intros [[? _]|[? _]]; done.
  - intros -> ->. done.
  - intros c.
    destruct (String.eqb_spec sid "") as [->|Hs]; simpl.
    + destruct (String.eqb_spec (env "TWILIO_ACCOUNT_SID") "") as [Hes|Hes]; [done|].
      destruct (String.eqb_spec tok "") as [->|Ht]; simpl.
      * destruct (String.eqb_spec (env "TWILIO_AUTH_TOKEN") "") as [Het|Het]; [done|].
        intros [= <-]; simpl. repeat split; try done;
          destruct (String.eqb_spec base ""); by repeat case_decide.
      * destruct (String.eqb_spec tok "") as [?|_]; [done|].
        intros [= <-]; simpl. repeat split; try done;
          destruct (String.eqb_spec base ""); by repeat case_decide.
    + destruct (String.eqb_spec sid "") as [?|_]; [done|].
      destruct (String.eqb_spec tok "") as [->|Ht]; simpl.
      * destruct (String.eqb_spec (env "TWILIO_AUTH_TOKEN") "") as [Het|Het]; [done|].
        intros [= <-]; simpl. repeat split; try done;
          destruct (String.eqb_spec base ""); by repeat case_decide.
      * destruct (String.eqb_spec tok "") as [?|_]; [done|].
        intros [= <-]; simpl. repeat split; try done;
          destruct (String.eqb_spec base ""); by repeat case_decide.
Qed.

Lemma X20_witness :
  let env := λ name : string,
    if (name =? "TWILIO_AUTH_TOKEN")%string then "secret" else "" in
  let cfg := client.mkConfig "AC1" "" "" None in
  let c := client.mkClient "AC1" "secret" "https://api.twilio.com/2010-04-01"
             (client.TimeoutClient 30) in
  (client.c_accountSID c ≠ "" ∧ client.c_authToken c ≠ "" ∧ client.c_baseURL c ≠ ""
   ∧ client.c_accountSID c = "AC1" ∧ client.c_authToken c = "secret"
   ∧ client.c_baseURL c = "https://api.twilio.com/2010-04-01")
  ∧ client.New env (Some (client.mkConfig "" "tok" "" None))
    = inr (OtherError "TWILIO_ACCOUNT_SID is required").
Proof.
  cbv zeta. split.
  - apply (proj2 (proj2 (proj2 (X20_client_New_resolves_credentials
             (λ name : string, if (name =? "TWILIO_AUTH_TOKEN")%string then "secret" else "")
             (client.mkConfig "AC1" "" "" None))))
             (client.mkClient "AC1" "secret" "https://api.twilio.com/2010-04-01"
                (client.TimeoutClient 30))).
    reflexivity.
  - apply (proj1 (proj2 (proj2 (X20_client_New_resolves_credentials
             (λ name : string, if (name =? "TWILIO_AUTH_TOKEN")%string then "secret" else "")
             (client.mkConfig "" "tok" "" None))))); reflexivity.
Defined.

(** ** The form of a call request *)

Lemma lookup_Set_ k v k' (d : gmap string (list string)) :
  client.Set_ k v d !! k' = if decide (k = k') then Some [v] else d !! k'.
Proof. unfold client.Set_. by rewrite lookup_insert. Qed.

Lemma lookup_when_ne b f k (d : gmap string (list string)) :
  (∀ d', f d' !! k = d' !! k) → client.when b f d !! k = d !! k.
Proof. intros Hf. unfold client.when. by destruct b. Qed.

Lemma lookup_Add_ne k v k' (d : gmap string (list string)) :
  k ≠ k' → client.Add k v d !! k' = d !! k'.
Proof. intros Hne. unfold client.Add. by rewrite lookup_insert_ne. Qed.

Lemma lookup_foldl_Add_ne k l k' (d : gmap string (list string)) :
  k ≠ k' → foldl (λ d e, client.Add k e d) d l !! k' = d !! k'.
Proof.
  intros Hne. revert d. induction l as [|e l IH]; intros d; [done|].
  simpl. by rewrite IH, lookup_Add_ne.
Qed.

Lemma lookup_custom (custom : gmap string string) (d : gmap string (list string)) k :
  map_fold (λ k v d, client.Set_ k v d) d custom !! k
  = match custom !! k with
    | Some v => Some [v]
    | None => d !! k
    end.
Proof.
  revert k. apply (map_fold_weak_ind (λ r m, ∀ k,
    r !! k = match m !! k with Some v => Some [v] | None => d !! k end)).
  - intros k. by rewrite lookup_empty.
  - intros i x m r Hi IH k. rewrite lookup_Set_. case_decide as Hk.
    + subst. by rewrite lookup_insert_eq.
    + rewrite lookup_insert_ne by done. apply IH.
Qed.

(** X21: in the form of a call request the custom parameters are set
    last, so a custom parameter whose name is one of the request's own
    fields replaces that field (a custom ["To"] or ["Twiml"] changes whom
    is called and what the call runs). Without such a parameter ["To"] and
    ["From"] are always present with the given numbers, and no field
    appears that is neither custom nor one of the request's own. The result
    does not depend on the order in which the map is ranged over. *)
Theorem X21_custom_parameters_override_fields c params :
  let data := (client.MakeCall_request c params).2 in
  (∀ k v, client.p_CustomParameters params !! k = Some v → data !! k = Some [v])
  ∧ (client.p_CustomParameters params !! "To" = None →
       data !! "To" = Some [client.p_To params])
  ∧ (client.p_CustomParameters params !! "From" = None →
       data !! "From" = Some [client.p_From params])
  ∧ (∀ k, client.p_CustomParameters params !! k = None → k ∉ call_fields →
       data !! k = None).
Proof.
  cbv zeta. unfold client.MakeCall_request; simpl.
  split; [|split; [|split]].
  - intros k v Hk. by rewrite lookup_custom, Hk.
  - intros Hk. rewrite lookup_custom, Hk.
    repeat first
      [ rewrite lookup_when_ne by (intros; by rewrite lookup_Set_, decide_False)
      | rewrite lookup_foldl_Add_ne by done ].
    by rewrite !lookup_Set_.
  - intros Hk. rewrite lookup_custom, Hk.
    repeat first
      [ rewrite lookup_when_ne by (intros; by rewrite lookup_Set_, decide_False)
      | rewrite lookup_foldl_Add_ne by done ].
    by rewrite !lookup_Set_.
  - intros k Hk Hnot. rewrite lookup_custom, Hk.
    unfold call_fields in Hnot.
    repeat (apply not_elem_of_cons in Hnot as [? Hnot]).
    repeat first
      [ rewrite lookup_when_ne by (intros; by rewrite lookup_Set_, decide_False)
      | rewrite lookup_foldl_Add_ne by done ].
    rewrite !lookup_Set_, !decide_False by done. apply lookup_empty.
Qed.

Lemma X21_witness :
  let c := client.mkClient "AC1" "secret" "https://api.twilio.com/2010-04-01"
             (client.TimeoutClient 30) in
  let params := client.mkMakeCallParams "+15559876543" "+15551234567" "" "<Response/>"
                  "" [] "" 0 false "" {[ "To" := "+15550000000" ]} in
  let data := (client.MakeCall_request c params).2 in
  data !! "To" = Some ["+15550000000"]
  ∧ data !! "From" = Some ["+15551234567"]
  ∧ data !! "Caller" = None.
Proof.
  cbv zeta.
  destruct (X21_custom_parameters_override_fields
              (client.mkClient "AC1" "secret" "https://api.twilio.com/2010-04-01"
                 (client.TimeoutClient 30))
              (client.mkMakeCallParams "+15559876543" "+15551234567" "" "<Response/>"
                 "" [] "" 0 false "" {[ "To" := "+15550000000" ]}))
    as (H1 & _ & H3 & H4).
  split; [apply H1; reflexivity|]. split; [apply H3; reflexivity|].
  apply H4; [reflexivity|].
  unfold call_fields. intros Hin.
  repeat (apply elem_of_cons in Hin as [Hin|Hin]; [discriminate Hin|]).
  by apply elem_of_nil in Hin.
Defined.

(** ** Calls and their status *)

Lemma mapCallStatus_ended status :
  callsystem.mapCallStatus status = callsystem.StatusEnded ↔ status = "completed".
Proof.
  unfold callsystem.mapCallStatus.
  repeat match goal with
         | |- context [String.eqb status ?s] =>
             destruct (String.eqb_spec status s) as [->|?]; simpl
         end; split; done.
Qed.

(** X22: a status callback for a tracked call writes the mapped status
    into the call object, and removes the call from the registry exactly
    when the status is ["completed"]: a call that ends as busy, failed,
    no-answer or canceled keeps its entry. A status the mapping does not
    know sets the call back to ringing. A callback for an unknown call
    does nothing. *)
Theorem X22_status_callback_removes_only_completed sid status s c call :
  callsystem.calls (callsystem.sys_prov s) !! sid = Some c →
  callsystem.sys_heap s !! c = Some call →
  let s' := final (callsystem.HandleStatusCallback sid status s) in
  callsystem.sys_heap s' !! c
    = Some (callsystem.set_status (callsystem.mapCallStatus status) call)
  ∧ (status = "completed" →
       callsystem.calls (callsystem.sys_prov s') !! sid = None)
  ∧ (status ≠ "completed" →
       callsystem.calls (callsystem.sys_prov s')
       = callsystem.calls (callsystem.sys_prov s))
  ∧ (status ∈ ["busy"; "failed"; "no-answer"; "canceled"] →
       callsystem.calls (callsystem.sys_prov s') !! sid = Some c
       ∧ callsystem.mapCallStatus status ≠ callsystem.StatusEnded)
  ∧ (status ∉ ["queued"; "ringing"; "in-progress"; "completed"; "busy";
               "no-answer"; "failed"; "canceled"] →
       callsystem.mapCallStatus status = callsystem.StatusRinging)
  ∧ (∀ sid', callsystem.calls (callsystem.sys_prov s) !! sid' = None →
       callsystem.HandleStatusCallback sid' status s = Ret tt s).
Proof.
  intros Hc Hcall. cbv zeta.
  assert (final (callsystem.HandleStatusCallback sid status s)
          = if decide (status = "completed")
            then callsystem.on_sys_prov
                   (λ p, callsystem.set_calls (delete sid (callsystem.calls p)) p)
                   (callsystem.set_heap
                      (alter (callsystem.set_status (callsystem.mapCallStatus status)) c
                         (callsystem.sys_heap s)) s)
            else callsystem.set_heap
                   (alter (callsystem.set_status (callsystem.mapCallStatus status)) c
                      (callsystem.sys_heap s)) s) as ->.
  { unfold callsystem.HandleStatusCallback, mbind, M_bind, get; simpl. rewrite Hc.
    pose proof (mapCallStatus_ended status) as Hend.
    case_decide as Hs.
    - apply Hend in Hs. by rewrite Hs.
    - destruct (callsystem.mapCallStatus status); try done.
      by destruct Hs; apply Hend. }
  split; [|split; [|split; [|split; [|split]]]].
  - case_decide; simpl; by rewrite lookup_alter_eq, Hcall.
  - intros ->. rewrite decide_True by done. simpl. apply lookup_delete_eq.
  - intros Hne. by rewrite decide_False.
  - intros Hin. assert (status ≠ "completed") as Hne.
    { intros ->. repeat (apply elem_of_cons in Hin as [Hin|Hin]; [discriminate Hin|]).
      by apply elem_of_nil in Hin. }
    rewrite decide_False by done. simpl. split; [done|].
    by rewrite mapCallStatus_ended.
  - intros Hnot. repeat (apply not_elem_of_cons in Hnot as [? Hnot]).
    unfold callsystem.mapCallStatus.
    repeat match goal with
           | |- context [String.eqb status ?x] =>
               destruct (String.eqb_spec status x) as [?|_]; [done|]
           end. done.
  - intros sid' Hnone.
    unfold callsystem.HandleStatusCallback, mbind, M_bind, get; simpl.
    by rewrite Hnone.
Qed.

Lemma X22_witness :
  let busy := final (callsystem.HandleStatusCallback "CA1" "busy" one_call) in
  let completed := final (callsystem.HandleStatusCallback "CA1" "completed" one_call) in
  callsystem.calls (callsystem.sys_prov busy) !! "CA1" = Some 0
  ∧ (callsystem.call_status <$> callsystem.sys_heap busy !! 0)
    = Some callsystem.StatusBusy
  ∧ callsystem.calls (callsystem.sys_prov completed) !! "CA1" = None
  ∧ (callsystem.call_status <$> callsystem.sys_heap completed !! 0)
    = Some callsystem.StatusEnded.
Proof.
  cbv zeta.
  destruct (X22_status_callback_removes_only_completed "CA1" "busy" one_call 0
              (callsystem.mkCall "CA1" callsystem.Inbound callsystem.StatusAnswered
                 "+15550001111" "+15551234567" (Some 0)))
    as (Hb1 & _ & _ & Hb2 & _); [reflexivity|reflexivity|].
  destruct (X22_status_callback_removes_only_completed "CA1" "completed" one_call 0
              (callsystem.mkCall "CA1" callsystem.Inbound callsystem.StatusAnswered
                 "+15550001111" "+15551234567" (Some 0)))
    as (Hc1 & Hc2 & _); [reflexivity|reflexivity|].
  destruct Hb2 as [Hb2 _]; [set_solver|].
  split; [exact Hb2|]. split; [by rewrite Hb1|].
  split; [by apply Hc2|]. by rewrite Hc1.
Defined.

Lemma fresh_heap (heap : gmap callptr callsystem.Call) :
  heap !! fresh (dom heap) = None.
Proof. apply not_elem_of_dom, is_fresh. Qed.

(** X23: an incoming-call webhook gives the call a new object, inbound
    and ringing with the given numbers and no transport, and tracks it
    under its SID before the handler is called: the handler runs on that
    state, so a [GetCall] it makes for the SID is answered from the
    registry without a request to the API. The object is new, so an earlier
    call under the same SID is replaced and every other object is
    untouched. What the webhook returns follows the handler: with no handler
    or a handler that returns nil, the call and the media-stream TwiML of
    the URL configured when the handler is done; with a handler that
    returns an error, no call, no TwiML and that error, in whatever state
    the handler left. So after the README's handler, which answers the
    call, the tracked call is answered when the webhook returns; and a
    handler that only turns the call away leaves it tracked as ringing,
    though the caller of the webhook gets no call. *)
Theorem X23_incoming_call_tracked_before_handler run callSID from to s fetch :
  let call := fresh (dom (callsystem.sys_heap s)) in
  let s1 := ringing callSID from to s in
  let twiml s2 :=
    callsystem.buildMediaStreamTwiML (callsystem.webhookURL (callsystem.sys_prov s2)) in
  callsystem.sys_heap s !! call = None
  ∧ tracked_call s1 callSID
    = Some (callsystem.mkCall callSID callsystem.Inbound callsystem.StatusRinging
              from to None)
  ∧ callsystem.calls (callsystem.sys_prov s1) !! callSID = Some call
  ∧ (∀ c, c ≠ call → callsystem.sys_heap s1 !! c = callsystem.sys_heap s !! c)
  ∧ (∀ sid, sid ≠ callSID →
       callsystem.calls (callsystem.sys_prov s1) !! sid
       = callsystem.calls (callsystem.sys_prov s) !! sid)
  ∧ callsystem.sys_world s1 = callsystem.sys_world s
  ∧ callsystem.GetCall fetch callSID s1 = Ret (inl call) s1
  ∧ callsystem.HandleIncomingWebhook run callSID from to s
    = match callsystem.handler (callsystem.sys_prov s) with
      | None => Ret (Some call, twiml s1, None) s1
      | Some h =>
          match run h call s1 with
          | Ret None s2 => Ret (Some call, twiml s2, None) s2
          | Ret (Some err) s2 => Ret (None, "", Some err) s2
          | Blocked s2 => Blocked s2
          | Panicked s2 => Panicked s2
          end
      end
  ∧ (∀ h, callsystem.handler (callsystem.sys_prov s) = Some h →
       run h call = callsystem.Answer call →
       ∃ s2, callsystem.HandleIncomingWebhook run callSID from to s
             = Ret (Some call, twiml s, None) s2
             ∧ tracked_call s2 callSID
               = Some (callsystem.mkCall callSID callsystem.Inbound
                         callsystem.StatusAnswered from to None))
  ∧ (∀ h err, callsystem.handler (callsystem.sys_prov s) = Some h →
       run h call = mret (Some err) →
       callsystem.HandleIncomingWebhook run callSID from to s
       = Ret (None, "", Some err) s1).
Proof.
  cbv zeta.
  assert (callsystem.HandleIncomingWebhook run callSID from to s
    = match callsystem.handler (callsystem.sys_prov s) with
      | None =>
          Ret (Some (fresh (dom (callsystem.sys_heap s))),
               callsystem.buildMediaStreamTwiML
                 (callsystem.webhookURL (callsystem.sys_prov (ringing callSID from to s))),
               None) (ringing callSID from to s)
      | Some h =>
          match run h (fresh (dom (callsystem.sys_heap s))) (ringing callSID from to s) with
          | Ret None s2 =>
              Ret (Some (fresh (dom (callsystem.sys_heap s))),
                   callsystem.buildMediaStreamTwiML
                     (callsystem.webhookURL (callsystem.sys_prov s2)), None) s2
          | Ret (Some err) s2 => Ret (None, "", Some err) s2
          | Blocked s2 => Blocked s2
          | Panicked s2 => Panicked s2
          end
      end) as Hrun.
  { unfold callsystem.HandleIncomingWebhook, mbind, M_bind, get, modify; simpl.
    fold (ringing callSID from to s).
    destruct (callsystem.handler (callsystem.sys_prov s)) as [h|]; [|done].
    by destruct (run h _ _) as [[err|] s2|s2|s2]. }
  split; [apply fresh_heap|].
  split; [unfold tracked_call, ringing; simpl; rewrite lookup_insert_eq; simpl;
          by rewrite lookup_insert_eq|].
  split; [unfold ringing; simpl; by rewrite lookup_insert_eq|].
  split; [intros c Hc; unfold ringing; simpl; by rewrite lookup_insert_ne|].
  split; [intros sid Hsid; unfold ringing; simpl; by rewrite lookup_insert_ne|].
  split; [done|].
  split; [unfold callsystem.GetCall, mbind, M_bind, get, ringing; simpl;
          by rewrite lookup_insert_eq|].
  split; [exact Hrun|]. split.
  - intros h Hh Hans. rewrite Hrun, Hh, Hans.
    unfold callsystem.Answer, mbind, M_bind, get, modify; simpl.
    eexists. split; [reflexivity|].
    unfold tracked_call; simpl. rewrite lookup_insert_eq; simpl.
    by rewrite lookup_alter_eq, lookup_insert_eq.
  - intros h err Hh Hrej. by rewrite Hrun, Hh, Hrej.
Qed.

Lemma X23_witness :
  let call := fresh (dom (callsystem.sys_heap one_call)) in
  (∃ s2, callsystem.HandleIncomingWebhook readme_handlers "CA2" "+15550003333"
           "+15551234567" (answering 0)
         = Ret (Some call,
                callsystem.buildMediaStreamTwiML "wss://example.test/media-stream",
                None) s2
         ∧ (callsystem.call_status <$> tracked_call s2 "CA2")
           = Some callsystem.StatusAnswered)
  ∧ callsystem.HandleIncomingWebhook readme_handlers "CA2" "+15550003333"
      "+15551234567" (answering 1)
    = Ret (None, "", Some (OtherError "line busy"))
        (ringing "CA2" "+15550003333" "+15551234567" (answering 1))
  ∧ (callsystem.call_status
       <$> tracked_call (ringing "CA2" "+15550003333" "+15551234567" (answering 1))
             "CA2")
    = Some callsystem.StatusRinging.
Proof.
  cbv zeta.
  destruct (X23_incoming_call_tracked_before_handler readme_handlers "CA2"
              "+15550003333" "+15551234567" (answering 0) api_up)
    as (_ & _ & _ & _ & _ & _ & _ & _ & Hans & _).
  destruct (X23_incoming_call_tracked_before_handler readme_handlers "CA2"
              "+15550003333" "+15551234567" (answering 1) api_up)
    as (_ & Htr & _ & _ & _ & _ & _ & _ & _ & Hrej).
  split; [|split].
  - destruct (Hans 0) as (s2 & Hrun & Hst); [reflexivity|reflexivity|].
    exists s2. split; [exact Hrun|]. by rewrite Hst.
  - apply (Hrej 1); reflexivity.
  - by rewrite Htr.
Defined.

(** X24: [GetCall] of a SID the registry does not hold asks the API and
    wraps its error; on success it builds a new call object from the
    answer, outbound unless the direction is ["inbound"], and does not
    register it: the registry is as before, so the next [GetCall] asks the
    API again and a status callback for that SID never reaches the
    object. *)
Theorem X24_fetched_call_is_not_tracked fetch callID s :
  callsystem.calls (callsystem.sys_prov s) !! callID = None →
  match fetch callID with
  | inr err =>
      callsystem.GetCall fetch callID s = Ret (inr (FailedBy "failed to get call" err)) s
  | inl twilioCall =>
      ∃ call s',
        callsystem.GetCall fetch callID s = Ret (inl call) s'
        ∧ callsystem.sys_heap s !! call = None
        ∧ callsystem.sys_heap s' !! call
          = Some (callsystem.mkCall (client.SID twilioCall)
                    (if decide (client.Direction twilioCall = "inbound")
                     then callsystem.Inbound else callsystem.Outbound)
                    (callsystem.mapCallStatus (client.Status twilioCall))
                    (client.From twilioCall) (client.To twilioCall) None)
        ∧ callsystem.sys_prov s' = callsystem.sys_prov s
        ∧ (∀ status, callsystem.HandleStatusCallback callID status s' = Ret tt s')
        ∧ ∃ call' s'', callsystem.GetCall fetch callID s' = Ret (inl call') s''
                       ∧ call' ≠ call
  end.
Proof.
  intros Hnone.
  destruct (fetch callID) as [tc|err] eqn:Hf.
  - exists (fresh (dom (callsystem.sys_heap s))). eexists.
    split; [|split; [|split; [|split; [|split]]]].
    + unfold callsystem.GetCall, mbind, M_bind, get, modify; simpl.
      rewrite Hnone, Hf. reflexivity.
    + apply fresh_heap.
    + simpl. rewrite lookup_insert_eq. f_equal.
      unfold callsystem.mapDirection.
      destruct (String.eqb_spec (client.Direction tc) "inbound");
        by case_decide.
    + done.
    + intros status.
      unfold callsystem.HandleStatusCallback, mbind, M_bind, get; simpl.
      by rewrite Hnone.
    + eexists _, _. split.
      * unfold callsystem.GetCall, mbind, M_bind, get, modify; simpl.
        rewrite Hnone, Hf. reflexivity.
      * simpl. intros Heq.
        pose proof (fresh_heap (<[fresh (dom (callsystem.sys_heap s)) :=
          callsystem.mkCall (client.SID tc)
            (callsystem.mapDirection (client.Direction tc))
            (callsystem.mapCallStatus (client.Status tc))
            (client.From tc) (client.To tc) None]> (callsystem.sys_heap s))) as Hfr.
        rewrite Heq in Hfr. by rewrite lookup_insert_eq in Hfr.
  - unfold callsystem.GetCall, mbind, M_bind, get; simpl.
    by rewrite Hnone, Hf.
Qed.

Lemma X24_witness :
  ∃ call s',
    callsystem.GetCall api_up "CA9" one_call = Ret (inl call) s'
    ∧ (callsystem.call_status <$> callsystem.sys_heap s' !! call)
      = Some callsystem.StatusAnswered
    ∧ callsystem.calls (callsystem.sys_prov s') !! "CA9" = None.
Proof.
  destruct (X24_fetched_call_is_not_tracked api_up "CA9" one_call)
    as (call & s' & Hget & _ & Hcall & Hprov & _); [reflexivity|].
  exists call, s'. split; [exact Hget|]. split; [by rewrite Hcall|].
  by rewrite Hprov.
Defined.

(** ** Closing the call system *)

Lemma Hangup_harmless hangup s c :
  harmless hangup s c →
  ∃ r s', callsystem.Hangup hangup c s = Ret r s'
          ∧ callsystem.sys_world s' = callsystem.sys_world s
          ∧ callsystem.sys_prov s' = callsystem.sys_prov s
          ∧ ∀ c', harmless hangup s c' → harmless hangup s' c'.
Proof.
  intros (call & Hcall & Hh).
  unfold callsystem.Hangup, mbind, M_bind, get, modify; simpl. rewrite Hcall.
  destruct (hangup (callsystem.call_id call)) as [err|] eqn:Herr.
  { eexists _, _. by split. }
  destruct Hh as [[? [=]]|Hnone]. rewrite Hnone.
  eexists _, _. split; [done|]. split; [done|]. split; [done|].
  intros c' (call' & Hcall' & Hh'). unfold harmless; simpl.
  destruct (decide (c' = c)) as [->|Hne].
  - exists (callsystem.set_status callsystem.StatusEnded call').
    rewrite lookup_alter_eq, Hcall'. by split.
  - exists call'. rewrite lookup_alter_ne by done. by split.
Qed.

Lemma hangup_all_harmless hangup cs s :
  (∀ c, c ∈ cs → harmless hangup s c) →
  ∃ s', callsystem.hangup_all hangup cs s = Ret tt s'
        ∧ callsystem.sys_world s' = callsystem.sys_world s
        ∧ callsystem.sys_prov s' = callsystem.sys_prov s.
Proof.
  revert s. induction cs as [|c cs IH]; intros s Hall.
  { by exists s. }
  destruct (Hangup_harmless hangup s c) as (r & s1 & Hr & Hw & Hp & Hkeep).
  { apply Hall. by left. }
  destruct (IH s1) as (s' & Hrest & Hw' & Hp').
  { intros c' Hc'. apply Hkeep, Hall. by right. }
  exists s'. simpl. unfold mbind at 1, M_bind at 1. rewrite Hr, Hrest.
  split; [done|]. split; congruence.
Qed.

(** X25: the call system's [Close] ends in the transport's [Close], so it
    inherits its deadlock. When no hang-up closes a connection — the API
    refuses the request, or the call has no transport attached — and the
    transport tracks a live connection, [Close] never returns; by then it
    has emptied its own call registry. *)
Theorem X25_call_system_close_waits_on_live_connection hangup s sid :
  mu (w_prov (callsystem.sys_world s)) = Unlocked →
  tracked_ok (callsystem.sys_world s) →
  tracks_live (callsystem.sys_world s) sid →
  (∀ k c, callsystem.calls (callsystem.sys_prov s) !! k = Some c →
          harmless hangup s c) →
  ∃ s', callsystem.Close hangup s = Blocked s'
        ∧ callsystem.calls (callsystem.sys_prov s') = ∅.
Proof.
  intros Hmu Hok Hlive Hall.
  destruct (hangup_all_harmless hangup
              (map_to_list (callsystem.calls (callsystem.sys_prov s))).*2 s)
    as (s1 & Hrun & Hw & Hp).
  { intros c [[k c'] [-> Hkc]]%list_elem_of_fmap.
    apply elem_of_map_to_list in Hkc. by apply (Hall k). }
  destruct (Provider_Close_blocks (callsystem.sys_world s) sid Hmu Hok Hlive)
    as (w' & Hb).
  unfold callsystem.Close.
  unfold mbind at 1, M_bind at 1, get at 1.
  unfold mbind at 1, M_bind at 1. rewrite Hrun.
  unfold mbind, M_bind, modify, zoom; simpl. rewrite Hw, Hb.
  by eexists.
Qed.

Lemma live_world_tracked_ok : tracked_ok live_world.
Proof.
  intros sid c Hc.
  assert (connections (w_prov live_world) = {[ "MZ1" := 0 ]}) as Heq
    by by vm_compute.
  rewrite Heq in Hc. apply lookup_singleton_Some in Hc as [<- <-].
  destruct (w_conns live_world !! 0) as [conn|] eqn:Hconn; [|by vm_compute in Hconn].
  exists conn. split; [done|]. left.
  vm_compute in Hconn. injection Hconn as <-. by vm_compute.
Qed.

Lemma live_world_tracks_live : tracks_live live_world "MZ1".
Proof.
  destruct (w_conns live_world !! 0) as [conn|] eqn:Hconn; [|by vm_compute in Hconn].
  exists 0, conn. split; [by vm_compute|]. split; [done|].
  vm_compute in Hconn. injection Hconn as <-. by vm_compute.
Qed.

Lemma X25_witness :
  ∃ s', callsystem.Close unreachable one_call = Blocked s'
        ∧ callsystem.calls (callsystem.sys_prov s') = ∅.
Proof.
  apply (X25_call_system_close_waits_on_live_connection unreachable one_call "MZ1").
  - by vm_compute.
  - exact live_world_tracked_ok.
  - exact live_world_tracks_live.
  - intros k c Hc.
    assert (callsystem.calls (callsystem.sys_prov one_call) = {[ "CA1" := 0 ]}) as Heq
      by reflexivity.
    rewrite Heq in Hc. apply lookup_singleton_Some in Hc as [<- <-].
    eexists. split; [reflexivity|]. left. by eexists.
Defined.

(** When the API accepts the hang-up and the call carries its connection,
    the hang-up closes the connection first, and [Close] returns with the
    transport's registry empty. *)
Example Close_after_hangup :
  ∃ s', callsystem.Close reachable one_call = Ret None s'
        ∧ connections (w_prov (callsystem.sys_world s')) = ∅
        ∧ (callsystem.call_status <$> callsystem.sys_heap s' !! 0)
          = Some callsystem.StatusEnded.
Proof. eexists. split; [vm_compute; reflexivity|]. split; by vm_compute. Qed.

(** ** The transcription stream *)

(** X26: the stream writer of [TranscribeStream] accepts every write in
    full and emits nothing: whatever audio is written, the event channel
    stays empty, so after [Close] its reader finds it closed without a
    single event. [Close] is idempotent, and a write after it fails with
    [io.ErrClosedPipe] and takes no byte. *)
Theorem X26_stream_writer_never_emits {StreamEvent : Type} (ps : list bytes) (p : bytes) :
  let w := @stt.TranscribeStream StreamEvent in
  let w' := final (stt.Close w) in
  forM stt.Write ps w = Ret (wrote <$> ps) w
  ∧ stt.Close w = Ret None w'
  ∧ Chan.recv (stt.sw_eventCh w) = Chan.RecvWouldBlock
  ∧ Chan.recv (stt.sw_eventCh w') = Chan.RecvClosed
  ∧ stt.Close w' = Ret None w'
  ∧ stt.Write p w' = Ret (0, Some ErrClosedPipe) w'.
Proof.
  cbv zeta. split; [|by repeat split].
  induction ps as [|q ps IH]; [done|].
  simpl. unfold mbind at 1, M_bind at 1. simpl.
  unfold mbind at 1, M_bind at 1. by rewrite IH.
Qed.

(** * Properties of the speech provider *)

Lemma ListVoices_unlisted s :
  unlisted s →
  tts.ListVoices s
  = Ret (fresh (dom (tts.st_arrays s)))
        (tts.mkStore (tts.set_voicesCache (Some (fresh (dom (tts.st_arrays s))))
                        (tts.st_prov s))
           (<[fresh (dom (tts.st_arrays s)) := tts.getTwilioVoices]> (tts.st_arrays s))).
Proof.
  intros Hs. unfold tts.ListVoices, mbind, M_bind, get, modify; simpl.
  unfold unlisted in Hs. by rewrite Hs.
Qed.

Lemma ListVoices_cached s cache vs :
  tts.voicesCache (tts.st_prov s) = Some cache → voices_at s cache = Some vs →
  tts.ListVoices s
  = Ret (fresh (dom (tts.st_arrays s)))
        (tts.set_arrays (<[fresh (dom (tts.st_arrays s)) := vs]> (tts.st_arrays s)) s).
Proof.
  intros Hc Hvs. unfold tts.ListVoices, mbind, M_bind, get, modify; simpl.
  unfold voices_at in Hvs. by rewrite Hc, Hvs.
Qed.

Lemma fresh_array (arrays : gmap tts.sliceptr (list tts.Voice)) :
  arrays !! fresh (dom arrays) = None.
Proof. apply not_elem_of_dom, is_fresh. Qed.

Lemma assign_ok s a vs i v :
  voices_at s a = Some vs → i < length vs →
  tts.assign a i v s = Ret tt (tts.set_arrays (<[a := <[i := v]> vs]> (tts.st_arrays s)) s).
Proof.
  intros Ha Hi. unfold tts.assign, mbind, M_bind, get, modify; simpl.
  unfold voices_at in Ha. rewrite Ha. by rewrite decide_True.
Qed.

(** X27: the first [ListVoices] of a provider returns the very slice it
    stores as its cache, while every later call returns a copy. So an
    element the first caller overwrites in its result is what every later
    [ListVoices] returns in that place, whereas a later caller's write
    to its own result changes nothing for the calls after it. *)
Theorem X27_first_voice_list_is_the_cache s i v j v' :
  unlisted s →
  i < length tts.getTwilioVoices → j < length tts.getTwilioVoices →
  ∃ a s1, tts.ListVoices s = Ret a s1
    ∧ tts.voicesCache (tts.st_prov s1) = Some a
    ∧ voices_at s1 a = Some tts.getTwilioVoices
    ∧ ∃ b s2, (tts.assign a i v;; tts.ListVoices) s1 = Ret b s2
        ∧ b ≠ a
        ∧ tts.voicesCache (tts.st_prov s2) = Some a
        ∧ voices_at s2 b = Some (<[i := v]> tts.getTwilioVoices)
        ∧ ∃ c s3, (tts.assign b j v';; tts.ListVoices) s2 = Ret c s3
            ∧ voices_at s3 c = Some (<[i := v]> tts.getTwilioVoices).
Proof.
  intros Hs Hi Hj.
  eexists _, _. split; [by apply ListVoices_unlisted|].
  set (a := fresh (dom (tts.st_arrays s))).
  set (s1 := tts.mkStore _ _).
  assert (voices_at s1 a = Some tts.getTwilioVoices) as Ha
    by (unfold voices_at; simpl; apply lookup_insert_eq).
  split; [done|]. split; [done|].
  set (s1' := tts.set_arrays (<[a := <[i := v]> tts.getTwilioVoices]> (tts.st_arrays s1)) s1).
  assert (voices_at s1' a = Some (<[i := v]> tts.getTwilioVoices)) as Ha'
    by (unfold voices_at; simpl; apply lookup_insert_eq).
  set (b := fresh (dom (tts.st_arrays s1'))).
  assert (b ≠ a) as Hba.
  { intros Hba. pose proof (fresh_array (tts.st_arrays s1')) as Hfr.
    fold b in Hfr. rewrite Hba in Hfr. unfold voices_at in Ha'. congruence. }
  set (s2 := tts.set_arrays (<[b := <[i := v]> tts.getTwilioVoices]> (tts.st_arrays s1')) s1').
  assert (voices_at s2 b = Some (<[i := v]> tts.getTwilioVoices)) as Hb
    by (unfold voices_at; simpl; apply lookup_insert_eq).
  exists b, s2. split; [|split; [done|split; [done|split; [done|]]]].
  { unfold mbind at 1, M_bind at 1. rewrite (assign_ok s1 a _ i v Ha Hi).
    cbn beta iota. fold s1'.
    by rewrite (ListVoices_cached s1' a _ eq_refl Ha'). }
  set (s2' := tts.set_arrays (<[b := <[j := v']> (<[i := v]> tts.getTwilioVoices)]>
                                (tts.st_arrays s2)) s2).
  assert (voices_at s2' a = Some (<[i := v]> tts.getTwilioVoices)) as Ha2.
  { unfold voices_at; simpl. rewrite lookup_insert_ne by done.
    rewrite lookup_insert_ne by done. apply lookup_insert_eq. }
  eexists _, _. split.
  { unfold mbind at 1, M_bind at 1.
    rewrite (assign_ok s2 b _ j v' Hb) by by rewrite length_insert.
    cbn beta iota. fold s2'.
    by rewrite (ListVoices_cached s2' a _ eq_refl Ha2). }
  unfold voices_at; simpl. apply lookup_insert_eq.
Qed.

Lemma X27_witness :
  let v := tts.mkVoice "alice" "Mallory" "en-US" "female" "twilio" in
  ∃ a s1, tts.ListVoices new_voices = Ret a s1
    ∧ ∃ b s2, (tts.assign a 0 v;; tts.ListVoices) s1 = Ret b s2
        ∧ b ≠ a
        ∧ (voices_at s2 b ≫= head) = Some v.
Proof.
  cbv zeta.
  destruct (X27_first_voice_list_is_the_cache new_voices 0
              (tts.mkVoice "alice" "Mallory" "en-US" "female" "twilio") 0
              (tts.mkVoice "alice" "Mallory" "en-US" "female" "twilio"))
    as (a & s1 & Hl & _ & _ & b & s2 & Hl2 & Hne & _ & Hb & _);
    [reflexivity|simpl; lia|simpl; lia|].
  exists a, s1. split; [exact Hl|]. exists b, s2.
  split; [exact Hl2|]. split; [exact Hne|]. by rewrite Hb.
Defined.

Lemma find_voice_none voiceID (vs : list tts.Voice) :
  voiceID ∉ (tts.v_ID <$> vs) →
  find (λ v, bool_decide (tts.v_ID v = voiceID)) vs = None.
Proof.
  induction vs as [|u vs IH]; [done|]. csimpl.
  intros [Hne Hnot]%not_elem_of_cons.
  rewrite bool_decide_eq_false_2 by done. by apply IH.
Qed.

Lemma find_voice_listed v :
  v ∈ tts.getTwilioVoices →
  find (λ u, bool_decide (tts.v_ID u = tts.v_ID v)) tts.getTwilioVoices = Some v.
Proof.
  assert (Forall (λ v, find (λ u, bool_decide (tts.v_ID u = tts.v_ID v))
                         tts.getTwilioVoices = Some v) tts.getTwilioVoices) as Hall.
  { apply (bool_decide_unpack _). by vm_compute. }
  intros Hv. by apply (proj1 (Forall_forall _ _) Hall).
Qed.

(** X28: while the cached table is as the package wrote it, [GetVoice]
    returns each listed voice for its own id — no two entries share an
    id, so none is shadowed — and fails with ["voice not found: <id>"] for
    every other id; ids are compared exactly, so ["Alice"] is not
    ["alice"]. The default voice of [New] is a listed one. *)
Theorem X28_GetVoice_finds_exactly_listed_voices s voiceID :
  pristine s →
  (∀ v, v ∈ tts.getTwilioVoices →
     ∃ s', tts.GetVoice (tts.v_ID v) s = Ret (inl v) s' ∧ pristine s')
  ∧ (voiceID ∉ (tts.v_ID <$> tts.getTwilioVoices) →
     ∃ s', tts.GetVoice voiceID s
           = Ret (inr (OtherError ("voice not found: " +:+ voiceID))) s'
           ∧ pristine s')
  ∧ ("Alice" ∉ (tts.v_ID <$> tts.getTwilioVoices))
  ∧ (tts.defaultVoice (tts.New []) ∈ (tts.v_ID <$> tts.getTwilioVoices)).
Proof.
  intros Hs.
  assert (∃ a s', tts.ListVoices s = Ret a s'
                  ∧ voices_at s' a = Some tts.getTwilioVoices ∧ pristine s')
    as (a & s' & Hl & Ha & Hs').
  { unfold pristine in Hs.
    destruct (tts.voicesCache (tts.st_prov s)) as [cache|] eqn:Hc.
    - eexists _, _. split; [by apply (ListVoices_cached s cache)|].
      split; [unfold voices_at; simpl; apply lookup_insert_eq|].
      unfold pristine; simpl. rewrite Hc. unfold voices_at; simpl.
      rewrite lookup_insert_ne; [done|].
      intros Heq. pose proof (fresh_array (tts.st_arrays s)) as Hfr.
      rewrite Heq in Hfr. unfold voices_at in Hs. congruence.
    - eexists _, _. split; [by apply ListVoices_unlisted|].
      split; [unfold voices_at; simpl; apply lookup_insert_eq|].
      unfold pristine, voices_at; simpl. apply lookup_insert_eq. }
  split; [|split; [|split]].
  - intros v Hv. exists s'. split; [|done].
    unfold tts.GetVoice. unfold mbind at 1, M_bind at 1. rewrite Hl.
    unfold mbind, M_bind, get; simpl. unfold voices_at in Ha. rewrite Ha.
    by rewrite find_voice_listed.
  - intros Hnot. exists s'. split; [|done].
    unfold tts.GetVoice. unfold mbind at 1, M_bind at 1. rewrite Hl.
    unfold mbind, M_bind, get; simpl. unfold voices_at in Ha. rewrite Ha.
    by rewrite find_voice_none.
  - apply (bool_decide_unpack _). by vm_compute.
  - apply (bool_decide_unpack _). by vm_compute.
Qed.

Lemma X28_witness :
  (∃ s', tts.GetVoice "Polly.Amy" new_voices
         = Ret (inl (tts.mkVoice "Polly.Amy" "Amy (Polly)" "en-GB" "female" "twilio")) s')
  ∧ ∃ s', tts.GetVoice "Alice" new_voices
          = Ret (inr (OtherError "voice not found: Alice")) s'.
Proof.
  destruct (X28_GetVoice_finds_exactly_listed_voices new_voices "Alice")
    as (Hin & Hnot & Hal & _); [exact I|].
  split.
  - destruct (Hin (tts.mkVoice "Polly.Amy" "Amy (Polly)" "en-GB" "female" "twilio"))
      as (s' & Hg & _); [apply (bool_decide_unpack _); by vm_compute|].
    by exists s'.
  - destruct (Hnot Hal) as (s' & Hg & _). by exists s'.
Defined.
